(** * rag-mcp: the orchestration core, embedded and verified

    A shallow embedding of the services of the repository:
    - [src/services/document_processor.py]  (module [DocumentProcessor]),
    - [src/services/query_service.py]       (module [QueryService]),
    - [src/services/rag_manager.py]         (module [RAGManager]),
    - [src/tools/registry.py], [src/tools/handlers.py] (module [Tools]).

    Python exceptions are values of [PyExc]; a call ends in an [Outcome]
    (it returns, it raises, or it never resumes).  Mutable objects live in an
    explicit store threaded through a state monad.  Logging and metrics
    (src/monitoring) only write counters and log lines and never raise, so
    they are left out. *)

From Stdlib Require Import ZArith Ascii.
From stdpp Require Import base strings gmap list sorting pretty.

Open Scope Z_scope.

(** ** Exceptions and outcomes *)

(** The exception classes the code raises or discriminates on.
    [OtherException name] is any other subclass of [Exception] that is
    neither a [ValueError] nor a [FileNotFoundError] (for instance
    [PermissionError]); [name] is [type(e).__name__]. *)
Inductive ExcType : Type :=
  | ValueError
  | FileNotFoundError
  | TypeError
  | OtherException (name : string).

Record PyExc : Type := mkExc { exc_type : ExcType; exc_msg : string }.

Definition type_name (t : ExcType) : string :=
  match t with
  | ValueError => "ValueError"
  | FileNotFoundError => "FileNotFoundError"
  | TypeError => "TypeError"
  | OtherException name => name
  end.

(** [str(e)] for an exception built from a single message. *)
Definition str_exc (e : PyExc) : string := exc_msg e.

(** How a call of the modelled code ends.  [Hang] is a coroutine that is
    suspended for ever (a semaphore with no permit). *)
Inductive Outcome (A : Type) : Type :=
  | Return (a : A)
  | Raise (e : PyExc)
  | Hang.
Arguments Return {A} a.
Arguments Raise {A} e.
Arguments Hang {A}.

(** What a collaborator outside the repository (file system, backend)
    answers: a value or an exception. *)
Inductive Reply (A : Type) : Type :=
  | Replied (a : A)
  | Failed (e : PyExc).
Arguments Replied {A} a.
Arguments Failed {A} e.

(** ** State and exceptions *)

Definition M (S A : Type) : Type := S → Outcome A * S.

Definition ret {S A} (a : A) : M S A := λ s, (Return a, s).
Definition raise {S A} (e : PyExc) : M S A := λ s, (Raise e, s).
Definition hang {S A} : M S A := λ s, (Hang, s).
Definition bind {S A B} (m : M S A) (k : A → M S B) : M S B :=
  λ s, match m s with
       | (Return a, s') => k a s'
       | (Raise e, s') => (Raise e, s')
       | (Hang, s') => (Hang, s')
       end.
Definition get {S} : M S S := λ s, (Return s, s).
Definition modify {S} (f : S → S) : M S unit := λ s, (Return tt, f s).
Definition of_reply {S A} (r : Reply A) : M S A :=
  match r with Replied a => ret a | Failed e => raise e end.

#[global] Instance M_ret {S} : MRet (M S) := @ret S.
#[global] Instance M_bind {S} : MBind (M S) := λ A B k m, bind m k.

(** [try: body finally: fin]: [fin] runs when [body] returns or raises,
    and the outcome of [body] is kept; a suspended [body] never reaches it. *)
Definition try_finally {S A} (body : M S A) (fin : M S unit) : M S A :=
  λ s, match body s with
       | (Hang, s') => (Hang, s')
       | (o, s') =>
           match fin s' with
           | (Return _, s'') => (o, s'')
           | (Raise e, s'') => (Raise e, s'')
           | (Hang, s'') => (Hang, s'')
           end
       end.

(** [asyncio.gather( *tasks, return_exceptions=True)]: every task is run,
    in submission order; an exception is collected as a value. *)
Fixpoint gather_return_exceptions {S A} (tasks : list (M S A))
  : M S (list (Reply A)) :=
  match tasks with
  | [] => ret []
  | t :: ts =>
      λ s, match t s with
           | (Return a, s') =>
               (rs ← gather_return_exceptions ts; ret (Replied a :: rs)) s'
           | (Raise e, s') =>
               (rs ← gather_return_exceptions ts; ret (Failed e :: rs)) s'
           | (Hang, s') => (Hang, s')
           end
  end.

(** ** Settings (src/config/settings.py) *)

Record Settings : Type := {
  RAG_WORKING_DIR : string;
  RAG_MAX_WORKERS : Z;
  SUPPORTED_FILE_EXTENSIONS : list string;
  MAX_FILE_SIZE_MB : Z;
  ENABLE_CACHE : bool;
}.

Definition default_settings : Settings := {|
  RAG_WORKING_DIR := "rag_storage";
  RAG_MAX_WORKERS := 4;
  SUPPORTED_FILE_EXTENSIONS := [".pdf"; ".docx"; ".pptx"; ".txt"; ".md"];
  MAX_FILE_SIZE_MB := 100;
  ENABLE_CACHE := true;
|}.

(** ** Paths *)

(** A [pathlib.Path] as its parts.  Paths compare part by part, strings by
    code point, a proper prefix first (the order [sorted] uses). *)
Definition Path : Type := list string.

Definition path_str (p : Path) : string :=
  match p with
  | [] => "."
  | "/" :: rest => "/" +:+ String.concat "/" rest
  | _ => String.concat "/" p
  end.

Fixpoint path_leb (p q : Path) : bool :=
  match p, q with
  | [], _ => true
  | _ :: _, [] => false
  | a :: p', b :: q' =>
      if decide (a = b) then path_leb p' q' else bool_decide (String.le a b)
  end.

Definition path_le (p q : Path) : Prop := path_leb p q.

#[global] Instance path_le_dec : RelDecision path_le.
Proof. intros p q. unfold path_le. apply _. Defined.

(** ** Payloads *)

Record ProcessingOptions : Type := {
  enable_image_processing : bool;
  enable_table_processing : bool;
  enable_equation_processing : bool;
}.

Record ParsedContent : Type := {
  text : string;
  images : option (list string);
  tables : option (list string);
  equations : option (list string);
}.

(** The dictionary a single-document call returns.  [file_size] is
    [st_size] in bytes (the source stores it divided by 2^20). *)
Inductive FileResult : Type :=
  | FileSuccess (file_path file_name : string) (file_size : Z)
      (file_extension : string) (parsed_content : ParsedContent)
      (parse_method : string) (processing_options : ProcessingOptions)
  | FileError (file_path error : string).

Definition status (r : FileResult) : string :=
  match r with
  | FileSuccess _ _ _ _ _ _ _ => "success"
  | FileError _ _ => "error"
  end.

Definition result_path (r : FileResult) : string :=
  match r with
  | FileSuccess p _ _ _ _ _ _ => p
  | FileError p _ => p
  end.

Record BatchReport : Type := {
  report_status : string;
  total_files : nat;
  processed_files : nat;
  failed_files : nat;
  skipped_files : nat;
  errors : list FileResult;
  working_directory : option string;
}.

(** An entry of ["sources"]; [relevance_score] is in hundredths (the
    source's 0.95 is 95). *)
Record Source : Type := {
  document : string;
  page : Z;
  relevance_score : Z;
  excerpt : string;
}.

(** What the answering backend produces for a query. *)
Record Answer : Type := {
  response : string;
  sources : list Source;
  processing_time_ms : Z;
}.

Record MultimodalAnalysis : Type := {
  tables_processed : nat;
  equations_processed : nat;
  images_processed : nat;
}.

(** The dictionary a query returns; the keys of its ["metadata"] are
    the last three fields. *)
Record QueryResult : Type := {
  qr_query : string;
  qr_mode : string;
  qr_multimodal_items : option nat;
  qr_response : string;
  qr_sources : list Source;
  qr_multimodal_analysis : option MultimodalAnalysis;
  qr_working_dir : string;
  qr_total_sources : Z;
  qr_processing_time_ms : Z;
}.

(** A multimodal item: a dictionary, seen through the keys the validation
    looks at. *)
Record MultimodalItem : Type := {
  item_type : option string;
  has_table_data : bool;
  has_latex : bool;
  has_image_url : bool;
  has_image_path : bool;
}.

(** ** Backend invocations *)

(** Every entry into a block that stands for the capability backend is
    recorded; the log is how "the backend was (not) invoked" is stated. *)
Inductive Event : Type :=
  | Ingest (file_path : string)
  | AnswerQuery (mode query : string)
  | AnswerMultimodal (mode query : string) (items : nat).

Definition emit {S} (upd : Event → S → S) (ev : Event) : M S unit :=
  modify (upd ev).

(** ** The environment *)

(** The collaborators outside the repository: [pathlib], the file system
    and the capability backend.  The backend blocks are placeholders in the
    source ([placeholder_ingest], [placeholder_answer] below are the
    source's bodies); the development is stated for any backend.  The
    answering backend may depend on the invocations so far. *)
Record Env : Type := {
  resolve : string → string;
  path_name : string → string;
  path_suffix : string → string;
  path_parent : string → string;
  path_join : string → string → string;
  glob : string → string → Reply (list Path);
  stat_size : string → option Z;
  mkdir : string → option PyExc;
  ingest : string → string → ProcessingOptions → Reply ParsedContent;
  answer : list Event → string → string → Reply Answer;
  answer_multimodal :
    list Event → string → list MultimodalItem → string → Reply Answer;
}.

Definition placeholder_ingest (path_name : string → string)
    (file_path _parse_method : string) (o : ProcessingOptions)
  : Reply ParsedContent :=
  Replied {|
    text := "Placeholder: content from " +:+ path_name file_path;
    images := if enable_image_processing o then Some [] else None;
    tables := if enable_table_processing o then Some [] else None;
    equations := if enable_equation_processing o then Some [] else None;
  |}.

Definition placeholder_sources : list Source :=
  [ {| document := "example_doc.pdf"; page := 1; relevance_score := 95;
       excerpt := "Relevant text excerpt..." |} ].

Definition placeholder_answer (_ : list Event) (query _mode : string)
  : Reply Answer :=
  Replied {| response := "Placeholder response for query: " +:+ query;
             sources := placeholder_sources;
             processing_time_ms := 150 |}.

Definition placeholder_answer_multimodal (_ : list Event) (query : string)
    (_ : list MultimodalItem) (_mode : string) : Reply Answer :=
  Replied {| response := "Placeholder multimodal response for: " +:+ query;
             sources := placeholder_sources;
             processing_time_ms := 250 |}.

(** ** src/services/document_processor.py *)

Module DocumentProcessor.

(** The state of this module is the log of backend invocations. *)
Definition log_event (ev : Event) : M (list Event) unit :=
  modify (λ l, l ++ [ev]).

(** [f"{x:.2f}"] for [x = st_size / (1024 * 1024)]: the quotient is exact
    in binary floating point below 2^53 bytes, and the rendering rounds
    the exact value to two decimals, ties to even. *)
Definition round_half_even (num den : Z) : Z :=
  let q := num `div` den in
  let r := num `mod` den in
  if decide (2 * r < den) then q
  else if decide (den < 2 * r) then q + 1
  else if Z.even q then q else q + 1.

Definition format_mb_2f (st_size : Z) : string :=
  let h := round_half_even (st_size * 100) (1024 * 1024) in
  let frac := h `mod` 100 in
  pretty (h `div` 100) +:+ "." +:+
  (if decide (frac < 10) then "0" else "") +:+ pretty frac.

Definition file_too_large (st_size max_mb : Z) : PyExc :=
  mkExc ValueError
    ("File too large: " +:+ format_mb_2f st_size +:+ "MB (max: "
     +:+ pretty max_mb +:+ "MB)").

Definition file_not_found (file_path : string) : PyExc :=
  mkExc FileNotFoundError ("File not found: " +:+ file_path).

Definition semaphore_negative : PyExc :=
  mkExc ValueError "Semaphore initial value must be >= 0".

Definition executor_not_positive : PyExc :=
  mkExc ValueError "max_workers must be greater than 0".

(** [x or default] on an optional list and on an optional integer. *)
Definition or_list {A} (x : option (list A)) (default : list A) : list A :=
  match x with
  | Some (a :: l) => a :: l
  | _ => default
  end.

Definition or_int (x : option Z) (default : Z) : Z :=
  match x with
  | Some n => if decide (n = 0) then default else n
  | None => default
  end.

Section WithEnv.
Variable env : Env.
Variable settings : Settings.

(** [__init__]: the thread pool refuses a non-positive size. *)
Definition init : Outcome unit :=
  if decide (RAG_MAX_WORKERS settings ≤ 0) then Raise executor_not_positive
  else Return tt.

(** [file_size_mb > MAX_FILE_SIZE_MB], on the byte count. *)
Definition over_limit (st_size : Z) : Prop :=
  MAX_FILE_SIZE_MB settings * (1024 * 1024) < st_size.

#[global] Instance over_limit_dec st_size : Decision (over_limit st_size).
Proof. unfold over_limit. apply _. Defined.

Definition process_single_document (file_path : string)
    (output_dir : option string) (parse_method : string)
    (opts : ProcessingOptions) : M (list Event) FileResult :=
  match stat_size env file_path with
  | None => raise (file_not_found file_path)
  | Some st_size =>
      if decide (over_limit st_size) then
        raise (file_too_large st_size (MAX_FILE_SIZE_MB settings))
      else
        _ ← log_event (Ingest file_path);
        match ingest env file_path parse_method opts with
        | Replied parsed =>
            mret (FileSuccess file_path (path_name env file_path) st_size
                    (path_suffix env file_path) parsed parse_method opts)
        | Failed e => mret (FileError file_path (str_exc e))
        end
  end.

Definition pattern (recursive : bool) : string :=
  if recursive then "**/*" else "*".

(** The loop of [_find_files]: the matches of every extension, appended
    in the order of the allow-list. *)
Fixpoint glob_all (directory : string) (pat : string)
    (extensions : list string) : Reply (list Path) :=
  match extensions with
  | [] => Replied []
  | ext :: rest =>
      match glob env directory (pat +:+ ext) with
      | Failed e => Failed e
      | Replied found =>
          match glob_all directory pat rest with
          | Failed e => Failed e
          | Replied more => Replied (found ++ more)
          end
      end
  end.

Definition _find_files (directory : string) (extensions : list string)
    (recursive : bool) : Reply (list Path) :=
  match glob_all directory (pattern recursive) extensions with
  | Failed e => Failed e
  | Replied files => Replied (merge_sort path_le files)
  end.

(** The last loop of [_process_files_batch]. *)
Definition handle_exception (file : Path) (result : Reply FileResult)
  : FileResult :=
  match result with
  | Failed e => FileError (path_str file) (str_exc e)
  | Replied r => r
  end.

(** The semaphore: a negative size is refused, and with no permit no unit
    of work ever starts. *)
Definition _process_files_batch (files : list Path) (working_dir : string)
    (max_workers : Z) (opts : ProcessingOptions)
  : M (list Event) (list FileResult) :=
  let tasks :=
    map (λ file, process_single_document (path_str file)
                   (Some working_dir) "auto" opts) files in
  if decide (max_workers < 0) then raise semaphore_negative
  else if decide (max_workers = 0 ∧ files ≠ []) then hang
  else
    results ← gather_return_exceptions tasks;
    mret (zip_with handle_exception files results).

Definition count_status (s : string) (results : list FileResult) : nat :=
  length (filter (λ r, status r = s) results).

Definition process_directory (directory_path working_dir : string)
    (file_extensions : option (list string)) (recursive : bool)
    (opts : ProcessingOptions) (max_workers : option Z)
  : M (list Event) BatchReport :=
  let extensions :=
    or_list file_extensions (SUPPORTED_FILE_EXTENSIONS settings) in
  files ← of_reply (_find_files directory_path extensions recursive);
  match files with
  | [] =>
      mret {| report_status := "completed";
              total_files := 0; processed_files := 0;
              failed_files := 0; skipped_files := 0;
              errors := []; working_directory := None |}
  | _ :: _ =>
      let workers := or_int max_workers (RAG_MAX_WORKERS settings) in
      results ← _process_files_batch files working_dir workers opts;
      mret {| report_status := "completed";
              total_files := length files;
              processed_files := count_status "success" results;
              failed_files := count_status "error" results;
              skipped_files := count_status "skipped" results;
              errors := filter (λ r, status r = "error") results;
              working_directory := Some working_dir |}
  end.

End WithEnv.

End DocumentProcessor.

(** ** src/services/query_service.py *)

Module QueryService.

Definition VALID_MODES : list string :=
  ["hybrid"; "local"; "global"; "naive"; "mix"; "bypass"].

(** The object: its working directory and its cache, which is [None]
    when caching is disabled. *)
Record t : Type := {
  working_dir : string;
  _cache : option (gmap string QueryResult);
}.

(** The methods run on the object and the log of backend invocations. *)
Definition State : Type := (t * list Event)%type.

Definition log_event (ev : Event) : M State unit :=
  modify (λ s, (s.1, s.2 ++ [ev])).

Definition store (cache_key : string) (result : QueryResult) : M State unit :=
  modify (λ s,
    ({| working_dir := working_dir s.1;
        _cache := (λ c, <[cache_key := result]> c) <$> _cache s.1 |}, s.2)).

Definition invalid_mode (mode : string) : PyExc :=
  mkExc ValueError
    ("Invalid query mode: " +:+ mode +:+ ". Valid modes: "
     +:+ String.concat ", " VALID_MODES).

Definition table_missing_data : PyExc :=
  mkExc ValueError "Table items must have 'table_data' field".
Definition equation_missing_latex : PyExc :=
  mkExc ValueError "Equation items must have 'latex' field".
Definition image_missing_source : PyExc :=
  mkExc ValueError "Image items must have 'image_url' or 'image_path' field".
Definition item_missing_type : PyExc :=
  mkExc ValueError "Each multimodal item must have a 'type' field".

Section WithEnv.
Variable env : Env.
Variable settings : Settings.

Definition init (working_dir : string) : t :=
  {| working_dir := working_dir;
     _cache := if ENABLE_CACHE settings then Some ∅ else None |}.

Definition _validate_mode {S} (mode : string) : M S unit :=
  if decide (mode ∈ VALID_MODES) then mret tt
  else raise (invalid_mode mode).

Definition cache_key (mode query : string) : string :=
  mode +:+ ":" +:+ query.

Definition query (query mode : string) : M State QueryResult :=
  _ ← _validate_mode mode;
  s ← get;
  match _cache s.1 ≫= (λ c, c !! cache_key mode query) with
  | Some cached => mret cached
  | None =>
      _ ← log_event (AnswerQuery mode query);
      a ← of_reply (answer env s.2 query mode);
      let result :=
        {| qr_query := query; qr_mode := mode;
           qr_multimodal_items := None;
           qr_response := response a; qr_sources := sources a;
           qr_multimodal_analysis := None;
           qr_working_dir := working_dir s.1;
           qr_total_sources := 1;
           qr_processing_time_ms := processing_time_ms a |} in
      _ ← store (cache_key mode query) result;
      mret result
  end.

Definition validate_item (item : MultimodalItem) : Reply MultimodalItem :=
  match item_type item with
  | None => Failed item_missing_type
  | Some ty =>
      if decide (ty = "table") then
        if has_table_data item then Replied item
        else Failed table_missing_data
      else if decide (ty = "equation") then
        if has_latex item then Replied item
        else Failed equation_missing_latex
      else if decide (ty = "image") then
        if has_image_url item || has_image_path item then Replied item
        else Failed image_missing_source
      else Replied item
  end.

Fixpoint _validate_multimodal_content (content : list MultimodalItem)
  : Reply (list MultimodalItem) :=
  match content with
  | [] => Replied []
  | item :: rest =>
      match validate_item item with
      | Failed e => Failed e
      | Replied v =>
          match _validate_multimodal_content rest with
          | Failed e => Failed e
          | Replied vs => Replied (v :: vs)
          end
      end
  end.

Definition count_type (ty : string) (content : list MultimodalItem) : nat :=
  length (filter (λ c, item_type c = Some ty) content).

Definition query_with_multimodal (query : string)
    (multimodal_content : list MultimodalItem) (mode : string)
  : M State QueryResult :=
  _ ← _validate_mode mode;
  validated ← of_reply (_validate_multimodal_content multimodal_content);
  s ← get;
  _ ← log_event (AnswerMultimodal mode query (length validated));
  a ← of_reply (answer_multimodal env s.2 query validated mode);
  mret {| qr_query := query; qr_mode := mode;
          qr_multimodal_items := Some (length validated);
          qr_response := response a; qr_sources := sources a;
          qr_multimodal_analysis := Some
            {| tables_processed := count_type "table" validated;
               equations_processed := count_type "equation" validated;
               images_processed := count_type "image" validated |};
          qr_working_dir := working_dir s.1;
          qr_total_sources := 1;
          qr_processing_time_ms := processing_time_ms a |}.

End WithEnv.

End QueryService.

(** ** src/services/rag_manager.py *)

Module RAGManager.

(** A reference to a [RAGInstance] object. *)
Definition loc : Type := nat.

Record RAGInstance : Type := {
  directory_path : string;
  api_key : string;
  working_dir : string;
  created_at : Z;
  last_accessed : Z;
  is_processing : bool;
  is_initialized : bool;
  query_service : QueryService.t;
}.

#[global] Instance RAGInstance_inhabited : Inhabited RAGInstance :=
  populate {| directory_path := ""; api_key := ""; working_dir := "";
              created_at := 0; last_accessed := 0;
              is_processing := false; is_initialized := false;
              query_service := {| QueryService.working_dir := "";
                                  QueryService._cache := None |} |}.

(** The manager ([_instances]), the instance objects it or a running call
    refers to, and the log of backend invocations.  The lock is held over
    code without suspension points and is not represented. *)
Record World : Type := {
  _instances : gmap string loc;
  objects : gmap loc RAGInstance;
  log : list Event;
}.

Definition empty_world : World :=
  {| _instances := ∅; objects := ∅; log := [] |}.

Definition instance_at (w : World) (l : loc) : RAGInstance := objects w !!! l.

Definition update_instance (l : loc) (f : RAGInstance → RAGInstance)
  : M World unit :=
  modify (λ w, {| _instances := _instances w;
                  objects := <[l := f (instance_at w l)]> (objects w);
                  log := log w |}).

Definition set_last_accessed (now : Z) (i : RAGInstance) : RAGInstance :=
  {| directory_path := directory_path i; api_key := api_key i;
     working_dir := working_dir i; created_at := created_at i;
     last_accessed := now;
     is_processing := is_processing i; is_initialized := is_initialized i;
     query_service := query_service i |}.

Definition set_is_processing (b : bool) (i : RAGInstance) : RAGInstance :=
  {| directory_path := directory_path i; api_key := api_key i;
     working_dir := working_dir i; created_at := created_at i;
     last_accessed := last_accessed i;
     is_processing := b; is_initialized := is_initialized i;
     query_service := query_service i |}.

Definition set_is_initialized (b : bool) (i : RAGInstance) : RAGInstance :=
  {| directory_path := directory_path i; api_key := api_key i;
     working_dir := working_dir i; created_at := created_at i;
     last_accessed := last_accessed i;
     is_processing := is_processing i; is_initialized := b;
     query_service := query_service i |}.

Definition set_query_service (q : QueryService.t) (i : RAGInstance)
  : RAGInstance :=
  {| directory_path := directory_path i; api_key := api_key i;
     working_dir := working_dir i; created_at := created_at i;
     last_accessed := last_accessed i;
     is_processing := is_processing i; is_initialized := is_initialized i;
     query_service := q |}.

(** Run a method of the document processor: it only adds to the log. *)
Definition with_log {A} (m : M (list Event) A) : M World A :=
  λ w, let '(o, log') := m (log w) in
       (o, {| _instances := _instances w; objects := objects w;
              log := log' |}).

(** Run a method of the query service owned by the instance at [l]. *)
Definition with_query_service {A} (l : loc) (m : M QueryService.State A)
  : M World A :=
  λ w, let '(o, (q', log')) := m (query_service (instance_at w l), log w) in
       (o, {| _instances := _instances w;
              objects := <[l := set_query_service q' (instance_at w l)]>
                           (objects w);
              log := log' |}).

(** The keyword arguments of [process_directory]: [kw_working_dir] is
    [Some v] when the key is present (with value [v], possibly [None]);
    an absent option has its default; [kw_unexpected] is a keyword the
    document processor does not know, if the caller passed one. *)
Record DirectoryKwargs : Type := {
  kw_working_dir : option (option string);
  kw_file_extensions : option (list string);
  kw_recursive : bool;
  kw_options : ProcessingOptions;
  kw_max_workers : option Z;
  kw_unexpected : option string;
}.

(** The keyword arguments of [process_single_document]. *)
Record DocumentKwargs : Type := {
  dk_working_dir : option (option string);
  dk_output_dir : option string;
  dk_parse_method : string;
  dk_options : ProcessingOptions;
  dk_unexpected : option string;
}.

Record InstanceInfo : Type := {
  info_directory_path : string;
  info_working_dir : string;
  info_created_at : Z;
  info_last_accessed : Z;
  info_is_processing : bool;
  info_is_initialized : bool;
}.

Definition get_info (i : RAGInstance) : InstanceInfo :=
  {| info_directory_path := directory_path i;
     info_working_dir := working_dir i;
     info_created_at := created_at i;
     info_last_accessed := last_accessed i;
     info_is_processing := is_processing i;
     info_is_initialized := is_initialized i |}.

Definition already_processing (directory_path : string) : PyExc :=
  mkExc ValueError
    ("Directory is already being processed: " +:+ directory_path).
Definition not_processed (directory_path : string) : PyExc :=
  mkExc ValueError ("Directory not processed: " +:+ directory_path).
Definition not_initialized (directory_path : string) : PyExc :=
  mkExc ValueError ("Directory not fully initialized: " +:+ directory_path).
Definition multiple_values (callee kw : string) : PyExc :=
  mkExc TypeError
    (callee +:+ "() got multiple values for keyword argument '"
     +:+ kw +:+ "'").
Definition unexpected_keyword (callee kw : string) : PyExc :=
  mkExc TypeError
    (callee +:+ "() got an unexpected keyword argument '" +:+ kw +:+ "'").

Section WithEnv.
Variable env : Env.
Variable settings : Settings.

(** [RAGInstance.__init__]: the working directory is created and the
    two services are built; either step can raise. *)
Definition new_instance (now : Z) (dir_path api_key : string)
    (working_dir : option string) : Outcome RAGInstance :=
  let wd :=
    match working_dir with
    | Some d => d
    | None => path_join env (RAG_WORKING_DIR settings) (path_name env dir_path)
    end in
  match mkdir env wd with
  | Some e => Raise e
  | None =>
      match DocumentProcessor.init settings with
      | Return _ =>
          Return {| directory_path := dir_path; api_key := api_key;
                    working_dir := wd;
                    created_at := now; last_accessed := now;
                    is_processing := false; is_initialized := false;
                    query_service := QueryService.init settings wd |}
      | Raise e => Raise e
      | Hang => Hang
      end
  end.

Definition touch (now : Z) (l : loc) : M World unit :=
  update_instance l (set_last_accessed now).

Definition register (cache_key : string) (i : RAGInstance) : M World loc :=
  λ w, let l := fresh (dom (objects w)) in
       (Return l, {| _instances := <[cache_key := l]> (_instances w);
                     objects := <[l := i]> (objects w);
                     log := log w |}).

(** [Path(working_dir) if working_dir else None]. *)
Definition truthy_path (working_dir : option string) : option string :=
  match working_dir with
  | Some "" => None
  | other => other
  end.

Definition get_or_create_instance (now : Z) (directory_path api_key : string)
    (working_dir : option string) : M World loc :=
  let cache_key := resolve env directory_path in
  w ← get;
  match _instances w !! cache_key with
  | Some l => _ ← touch now l; mret l
  | None =>
      i ← (λ w, (new_instance now cache_key api_key
                   (truthy_path working_dir), w));
      register cache_key i
  end.

(** The call of the document processor inside [process_directory]:
    [directory_path] and [working_dir] are passed by name next to
    [**kwargs]. *)
Definition call_processor (l : loc) (directory_path : string)
    (kwargs : DirectoryKwargs) : M World BatchReport :=
  let callee := "DocumentProcessor.process_directory" in
  match kw_working_dir kwargs, kw_unexpected kwargs with
  | Some _, _ => raise (multiple_values callee "working_dir")
  | None, Some kw => raise (unexpected_keyword callee kw)
  | None, None =>
      w ← get;
      with_log (DocumentProcessor.process_directory env settings
                  directory_path (working_dir (instance_at w l))
                  (kw_file_extensions kwargs) (kw_recursive kwargs)
                  (kw_options kwargs) (kw_max_workers kwargs))
  end.

(** [process_directory] up to the point where the flag is taken.  There
    is no [await] between the lookup, the test of the flag and its
    assignment, so under the event loop this part runs without
    interruption. *)
Definition process_directory_admit (now : Z) (directory_path api_key : string)
    (kwargs : DirectoryKwargs) : M World loc :=
  l ← get_or_create_instance now directory_path api_key
         (kw_working_dir kwargs ≫= id);
  w ← get;
  if is_processing (instance_at w l) then
    raise (already_processing directory_path)
  else
    _ ← update_instance l (set_is_processing true);
    mret l.

(** The rest of [process_directory], on the instance the call holds:
    the ingestion, [is_initialized = True] after it, and the [finally]
    clause.  The units of work of a batch touch nothing but the backend,
    so the ingestion is run in one step, at the point where the call
    resumes. *)
Definition process_directory_run (l : loc) (directory_path : string)
    (kwargs : DirectoryKwargs) : M World BatchReport :=
  try_finally
    (result ← call_processor l directory_path kwargs;
     _ ← update_instance l (set_is_initialized true);
     mret result)
    (update_instance l (set_is_processing false)).

Definition process_directory (now : Z) (directory_path api_key : string)
    (kwargs : DirectoryKwargs) : M World BatchReport :=
  l ← process_directory_admit now directory_path api_key kwargs;
  process_directory_run l directory_path kwargs.

Definition process_single_document (now : Z) (file_path api_key : string)
    (kwargs : DocumentKwargs) : M World FileResult :=
  let directory_path := path_parent env file_path in
  l ← get_or_create_instance now directory_path api_key
         (dk_working_dir kwargs ≫= id);
  let callee := "DocumentProcessor.process_single_document" in
  match dk_working_dir kwargs, dk_unexpected kwargs with
  | Some _, _ => raise (unexpected_keyword callee "working_dir")
  | None, Some kw => raise (unexpected_keyword callee kw)
  | None, None =>
      with_log (DocumentProcessor.process_single_document env settings
                  file_path (dk_output_dir kwargs) (dk_parse_method kwargs)
                  (dk_options kwargs))
  end.

(** The lookup shared by the two query methods. *)
Definition lookup_instance (now : Z) (directory_path : string) : M World loc :=
  let cache_key := resolve env directory_path in
  w ← get;
  match _instances w !! cache_key with
  | None => raise (not_processed directory_path)
  | Some l => _ ← touch now l; mret l
  end.

Definition query_directory (now : Z) (directory_path query mode : string)
  : M World QueryResult :=
  l ← lookup_instance now directory_path;
  w ← get;
  if is_initialized (instance_at w l) then
    with_query_service l (QueryService.query env query mode)
  else raise (not_initialized directory_path).

Definition query_with_multimodal (now : Z) (directory_path query : string)
    (multimodal_content : list MultimodalItem) (mode : string)
  : M World QueryResult :=
  l ← lookup_instance now directory_path;
  with_query_service l
    (QueryService.query_with_multimodal env query multimodal_content mode).

(** The listing follows the keys; the order of a listing is not part of
    this model. *)
Definition list_processed_directories : M World (list InstanceInfo) :=
  w ← get;
  mret ((λ kl, get_info (instance_at w kl.2)) <$> map_to_list (_instances w)).

Definition get_rag_info (directory_path : string)
  : M World (option InstanceInfo) :=
  w ← get;
  mret ((λ l, get_info (instance_at w l))
          <$> _instances w !! resolve env directory_path).

(** Timestamps are in microseconds. *)
Definition is_stale (w : World) (cutoff_time : Z) (l : loc) : Prop :=
  last_accessed (instance_at w l) < cutoff_time
  ∧ is_processing (instance_at w l) = false.

Definition cleanup_stale_instances (now ttl_seconds : Z) : M World unit :=
  let cutoff_time := now - ttl_seconds * 1000000 in
  modify (λ w,
    {| _instances :=
         filter (λ kl, ¬ is_stale w cutoff_time kl.2) (_instances w);
       objects := objects w; log := log w |}).

Definition cleanup : M World unit :=
  modify (λ w, {| _instances := ∅; objects := objects w; log := log w |}).

End WithEnv.

(** The calls that can reach the manager, and the worlds they lead to.
    A call of [process_directory] is suspended while it ingests, so its
    two halves are separate steps and other calls may run in between.
    The second half is allowed on any reference, which covers every
    schedule of the real calls (and more). *)
Inductive Call : Type :=
  | GetOrCreateInstance (now : Z) (directory_path api_key : string)
      (working_dir : option string)
  | ProcessDirectoryAdmit (now : Z) (directory_path api_key : string)
      (kwargs : DirectoryKwargs)
  | ProcessDirectoryRun (l : loc) (directory_path : string)
      (kwargs : DirectoryKwargs)
  | ProcessSingleDocument (now : Z) (file_path api_key : string)
      (kwargs : DocumentKwargs)
  | QueryDirectory (now : Z) (directory_path query mode : string)
  | QueryWithMultimodal (now : Z) (directory_path query : string)
      (multimodal_content : list MultimodalItem) (mode : string)
  | ListProcessedDirectories
  | GetRagInfo (directory_path : string)
  | CleanupStaleInstances (now ttl_seconds : Z)
  | Cleanup.

Definition after (env : Env) (settings : Settings) (c : Call) (w : World)
  : World :=
  match c with
  | GetOrCreateInstance now d k wd =>
      (get_or_create_instance env settings now d k wd w).2
  | ProcessDirectoryAdmit now d k kw =>
      (process_directory_admit env settings now d k kw w).2
  | ProcessDirectoryRun l d kw => (process_directory_run env settings l d kw w).2
  | ProcessSingleDocument now f k kw =>
      (process_single_document env settings now f k kw w).2
  | QueryDirectory now d q m => (query_directory env now d q m w).2
  | QueryWithMultimodal now d q c m =>
      (query_with_multimodal env now d q c m w).2
  | ListProcessedDirectories => (list_processed_directories w).2
  | GetRagInfo d => (get_rag_info env d w).2
  | CleanupStaleInstances now ttl => (cleanup_stale_instances now ttl w).2
  | Cleanup => (cleanup w).2
  end.

Inductive reachable (env : Env) (settings : Settings) : World → Prop :=
  | reachable_empty : reachable env settings empty_world
  | reachable_after c w :
      reachable env settings w → reachable env settings (after env settings c w).

End RAGManager.

(** ** src/tools/handlers.py and src/tools/registry.py *)

Module Tools.
Import RAGManager.

Inductive ToolPayload : Type :=
  | BatchPayload (report : BatchReport)
  | FilePayload (result : FileResult)
  | QueryPayload (result : QueryResult)
  | DirectoriesPayload (directories : list InstanceInfo) (total_count : nat)
  | InfoPayload (info : InstanceInfo).

(** What a tool returns: the payload with [success: True], or
    [{success: False, error, error_type}]. *)
Inductive ToolResult : Type :=
  | ToolSuccess (payload : ToolPayload)
  | ToolFailure (error error_type : string).

(** The parameters of each tool; [None] is a key that is absent (or
    null, for the required ones). *)
Record ProcessDirectoryParams : Type := {
  pd_directory_path : option string;
  pd_api_key : option string;
  pd_working_dir : option string;
  pd_file_extensions : option (list string);
  pd_recursive : option bool;
  pd_enable_image_processing : option bool;
  pd_enable_table_processing : option bool;
  pd_enable_equation_processing : option bool;
  pd_max_workers : option Z;
}.

Record ProcessSingleDocumentParams : Type := {
  ps_file_path : option string;
  ps_api_key : option string;
  ps_working_dir : option string;
  ps_output_dir : option string;
  ps_parse_method : option string;
  ps_enable_image_processing : option bool;
  ps_enable_table_processing : option bool;
  ps_enable_equation_processing : option bool;
}.

Record QueryDirectoryParams : Type := {
  qd_directory_path : option string;
  qd_query : option string;
  qd_mode : option string;
}.

Record QueryWithMultimodalParams : Type := {
  qm_directory_path : option string;
  qm_query : option string;
  qm_multimodal_content : option (list MultimodalItem);
  qm_mode : option string;
}.

Inductive ToolCall : Type :=
  | CallProcessDirectory (p : ProcessDirectoryParams)
  | CallProcessSingleDocument (p : ProcessSingleDocumentParams)
  | CallQueryDirectory (p : QueryDirectoryParams)
  | CallQueryWithMultimodal (p : QueryWithMultimodalParams)
  | CallListProcessedDirectories
  | CallGetRagInfo (directory_path : option string).

(** [validate_required_params]: the names of the required parameters
    that are missing, in the order they are required. *)
Definition missing (required : list (string * bool)) : list string :=
  fst <$> filter (λ r, r.2 = false) required.

Definition missing_parameters (names : list string) : PyExc :=
  mkExc ValueError
    ("Missing required parameters: " +:+ String.concat ", " names).

Definition present {A} (x : option A) : bool :=
  match x with Some _ => true | None => false end.

(** The error type [handle_errors] reports for an exception. *)
Definition error_type_of (e : PyExc) : string :=
  match exc_type e with
  | ValueError => "ValidationError"
  | FileNotFoundError => "FileNotFoundError"
  | t => type_name t
  end.

(** The decorator [handle_errors]. *)
Definition handle_errors {S} (func : M S ToolResult) : M S ToolResult :=
  λ s, match func s with
       | (Return r, s') => (Return r, s')
       | (Raise e, s') =>
           (Return (ToolFailure (str_exc e) (error_type_of e)), s')
       | (Hang, s') => (Hang, s')
       end.

Section WithEnv.
Variable env : Env.
Variable settings : Settings.

Definition ProcessDirectoryHandler (now : Z) (p : ProcessDirectoryParams)
  : M World ToolResult :=
  match pd_directory_path p, pd_api_key p with
  | Some directory_path, Some api_key =>
      result ← process_directory env settings now directory_path api_key
        {| kw_working_dir := Some (pd_working_dir p);
           kw_file_extensions :=
             Some (default (SUPPORTED_FILE_EXTENSIONS settings)
                           (pd_file_extensions p));
           kw_recursive := default true (pd_recursive p);
           kw_options :=
             {| enable_image_processing :=
                  default true (pd_enable_image_processing p);
                enable_table_processing :=
                  default true (pd_enable_table_processing p);
                enable_equation_processing :=
                  default true (pd_enable_equation_processing p) |};
           kw_max_workers :=
             Some (default (RAG_MAX_WORKERS settings) (pd_max_workers p));
           kw_unexpected := None |};
      mret (ToolSuccess (BatchPayload result))
  | d, k =>
      raise (missing_parameters
               (missing [("directory_path", present d);
                         ("api_key", present k)]))
  end.

Definition ProcessSingleDocumentHandler (now : Z)
    (p : ProcessSingleDocumentParams) : M World ToolResult :=
  match ps_file_path p, ps_api_key p with
  | Some file_path, Some api_key =>
      result ← process_single_document env settings now file_path api_key
        {| dk_working_dir := Some (ps_working_dir p);
           dk_output_dir := ps_output_dir p;
           dk_parse_method := default "auto" (ps_parse_method p);
           dk_options :=
             {| enable_image_processing :=
                  default true (ps_enable_image_processing p);
                enable_table_processing :=
                  default true (ps_enable_table_processing p);
                enable_equation_processing :=
                  default true (ps_enable_equation_processing p) |};
           dk_unexpected := None |};
      mret (ToolSuccess (FilePayload result))
  | f, k =>
      raise (missing_parameters
               (missing [("file_path", present f); ("api_key", present k)]))
  end.

Definition QueryDirectoryHandler (now : Z) (p : QueryDirectoryParams)
  : M World ToolResult :=
  match qd_directory_path p, qd_query p with
  | Some directory_path, Some query =>
      result ← query_directory env now directory_path query
                 (default "hybrid" (qd_mode p));
      mret (ToolSuccess (QueryPayload result))
  | d, q =>
      raise (missing_parameters
               (missing [("directory_path", present d);
                         ("query", present q)]))
  end.

Definition QueryWithMultimodalHandler (now : Z)
    (p : QueryWithMultimodalParams) : M World ToolResult :=
  match qm_directory_path p, qm_query p, qm_multimodal_content p with
  | Some directory_path, Some query, Some multimodal_content =>
      result ← query_with_multimodal env now directory_path query
                 multimodal_content (default "hybrid" (qm_mode p));
      mret (ToolSuccess (QueryPayload result))
  | d, q, c =>
      raise (missing_parameters
               (missing [("directory_path", present d);
                         ("query", present q);
                         ("multimodal_content", present c)]))
  end.

Definition ListProcessedDirectoriesHandler : M World ToolResult :=
  directories ← list_processed_directories;
  mret (ToolSuccess (DirectoriesPayload directories (length directories))).

Definition GetRAGInfoHandler (directory_path : option string)
  : M World ToolResult :=
  match directory_path with
  | Some directory_path =>
      info ← get_rag_info env directory_path;
      match info with
      | None =>
          mret (ToolFailure
                  ("No RAG instance found for directory: "
                   +:+ directory_path)
                  "NotFoundError")
      | Some info => mret (ToolSuccess (InfoPayload info))
      end
  | None =>
      raise (missing_parameters (missing [("directory_path", false)]))
  end.

Definition handler (now : Z) (c : ToolCall) : M World ToolResult :=
  match c with
  | CallProcessDirectory p => ProcessDirectoryHandler now p
  | CallProcessSingleDocument p => ProcessSingleDocumentHandler now p
  | CallQueryDirectory p => QueryDirectoryHandler now p
  | CallQueryWithMultimodal p => QueryWithMultimodalHandler now p
  | CallListProcessedDirectories => ListProcessedDirectoriesHandler
  | CallGetRagInfo d => GetRAGInfoHandler d
  end.

(** A tool as the registry hands it out ([register_tool] wraps every
    handler in [handle_errors]). *)
Definition call_tool (now : Z) (c : ToolCall) : M World ToolResult :=
  handle_errors (handler now c).

End WithEnv.

End Tools.

(** ** A concrete environment *)

(** A small file system and the placeholder backend, to run the code on:
    [/docs] holds two small files and one of 100 MB plus one byte, [/pkg]
    holds one archive, and [/a/./b] is another spelling of [/a/b]. *)
Module Demo.

Fixpoint name_from (acc s : string) : string :=
  match s with
  | "" => acc
  | String c s' =>
      if decide (c = "/"%char) then name_from "" s'
      else name_from (acc +:+ String c "") s'
  end.

(** The last component of a normalised path. *)
Definition name (p : string) : string := name_from "" p.

Fixpoint suffix_from (acc : option string) (s : string) : string :=
  match s with
  | "" => default "" acc
  | String c s' =>
      if decide (c = "."%char) then suffix_from (Some ".") s'
      else suffix_from ((λ a, a +:+ String c "") <$> acc) s'
  end.

Definition suffix (p : string) : string := suffix_from None (name p).

Definition ends_with (suffix s : string) : bool :=
  String.prefix (String.rev suffix) (String.rev s).

Definition strip_prefix (prefix s : string) : option string :=
  if String.prefix prefix s
  then Some (String.substring (String.length prefix)
               (String.length s - String.length prefix)%nat s)
  else None.

(** The parent of a path of the shape [/dir/file]. *)
Definition parent (p : string) : string :=
  let n := (String.length p - String.length (name p) - 1)%nat in
  if decide (n = 0)%nat then "/" else String.substring 0 n p.

Definition listing (directory : string) : list Path :=
  if decide (directory = "/docs") then
    [ ["/"; "docs"; "big.txt"]; ["/"; "docs"; "a.txt"]; ["/"; "docs"; "b.md"] ]
  else if decide (directory = "/pkg") then
    [ ["/"; "pkg"; "x.tar.gz"] ]
  else [].

(** [Path(directory).glob(pat)] for the patterns [*<suffix>] and
    [**/*<suffix>] with a literal suffix, on directories without
    subdirectories. *)
Definition listing_glob (directory pat : string) : Reply (list Path) :=
  match strip_prefix "**/*" pat, strip_prefix "*" pat with
  | Some suffix, _ | None, Some suffix =>
      Replied (filter (λ p : Path, ends_with suffix (default "" (last p)))
                      (listing directory))
  | None, None => Replied []
  end.

Definition listing_size (file_path : string) : option Z :=
  if decide (file_path = "/docs/a.txt") then Some 10
  else if decide (file_path = "/docs/b.md") then Some 20
  else if decide (file_path = "/docs/big.txt") then Some 104857601
  else if decide (file_path = "/pkg/x.tar.gz") then Some 4096
  else None.

Definition lexical_resolve (p : string) : string :=
  if decide (p = "/a/./b") then "/a/b" else p.

Definition env : Env := {|
  resolve := lexical_resolve;
  path_name := name;
  path_suffix := suffix;
  path_parent := parent;
  path_join := λ a b, a +:+ "/" +:+ b;
  glob := listing_glob;
  stat_size := listing_size;
  mkdir := λ _, None;
  ingest := placeholder_ingest name;
  answer := placeholder_answer;
  answer_multimodal := placeholder_answer_multimodal;
|}.



(** The same file system with an answering backend whose response
    changes with every invocation. *)
Definition numbered_answer (history : list Event) (query _mode : string)
  : Reply Answer :=
  Replied {| response := "answer " +:+ pretty (length history)
                         +:+ " to: " +:+ query;
             sources := []; processing_time_ms := 1 |}.

Definition numbered_env : Env := {|
  resolve := lexical_resolve;
  path_name := name;
  path_suffix := suffix;
  path_parent := parent;
  path_join := λ a b, a +:+ "/" +:+ b;
  glob := listing_glob;
  stat_size := listing_size;
  mkdir := λ _, None;
  ingest := placeholder_ingest name;
  answer := numbered_answer;
  answer_multimodal := placeholder_answer_multimodal;
|}.

Definition all_enabled : ProcessingOptions :=
  {| enable_image_processing := true;
     enable_table_processing := true;
     enable_equation_processing := true |}.

(** [process_directory(directory_path, api_key)] with no option. *)
Definition no_kwargs : RAGManager.DirectoryKwargs := {|
  RAGManager.kw_working_dir := None;
  RAGManager.kw_file_extensions := None;
  RAGManager.kw_recursive := true;
  RAGManager.kw_options := all_enabled;
  RAGManager.kw_max_workers := None;
  RAGManager.kw_unexpected := None;
|}.

Definition no_cache_settings : Settings := {|
  RAG_WORKING_DIR := "rag_storage";
  RAG_MAX_WORKERS := 4;
  SUPPORTED_FILE_EXTENSIONS := [".pdf"; ".docx"; ".pptx"; ".txt"; ".md"];
  MAX_FILE_SIZE_MB := 100;
  ENABLE_CACHE := false;
|}.

(** The keyword arguments the tool handler builds: [working_dir] is
    always among them. *)
Definition tool_kwargs : RAGManager.DirectoryKwargs := {|
  RAGManager.kw_working_dir := Some None;
  RAGManager.kw_file_extensions :=
    Some [".pdf"; ".docx"; ".pptx"; ".txt"; ".md"];
  RAGManager.kw_recursive := true;
  RAGManager.kw_options := all_enabled;
  RAGManager.kw_max_workers := Some 4;
  RAGManager.kw_unexpected := None;
|}.

End Demo.


(** ** Vocabulary of the statements *)

Section Vocabulary.
Variable env : Env.
Variable settings : Settings.

(** The files that the pattern built from one extension matches. *)
Definition matches (directory : string) (recursive : bool) (ext : string)
  : list Path :=
  match glob env directory (DocumentProcessor.pattern recursive +:+ ext) with
  | Replied found => found
  | Failed _ => []
  end.

(** The file exists and is over the size limit. *)
Definition oversized (file_path : string) : Prop :=
  match stat_size env file_path with
  | Some st_size => DocumentProcessor.over_limit settings st_size
  | None => False
  end.

(** The file passes the checks made before the backend is called. *)
Definition reaches_backend (file_path : string) : Prop :=
  match stat_size env file_path with
  | Some st_size => ¬ DocumentProcessor.over_limit settings st_size
  | None => False
  end.

(** The file cannot be ingested in a batch: it is missing, over the
    size limit, or the backend fails on it. *)
Definition fails (opts : ProcessingOptions) (file_path : string) : Prop :=
  match stat_size env file_path with
  | None => True
  | Some st_size =>
      DocumentProcessor.over_limit settings st_size
      ∨ match ingest env file_path "auto" opts with
        | Failed _ => True
        | Replied _ => False
        end
  end.

#[global] Instance oversized_dec file_path : Decision (oversized file_path).
Proof. unfold oversized. destruct (stat_size env file_path); apply _. Defined.

#[global] Instance reaches_backend_dec file_path :
  Decision (reaches_backend file_path).
Proof.
  unfold reaches_backend. destruct (stat_size env file_path); apply _.
Defined.

#[global] Instance fails_dec opts file_path : Decision (fails opts file_path).
Proof.
  unfold fails. destruct (stat_size env file_path); [|apply _].
  destruct (ingest env file_path "auto" opts); apply _.
Defined.

(** What a batch records for one file. *)
Definition batch_result (opts : ProcessingOptions) (file_path : string)
  : FileResult :=
  match stat_size env file_path with
  | None =>
      FileError file_path
        (str_exc (DocumentProcessor.file_not_found file_path))
  | Some st_size =>
      if decide (DocumentProcessor.over_limit settings st_size) then
        FileError file_path
          (str_exc (DocumentProcessor.file_too_large st_size
                      (MAX_FILE_SIZE_MB settings)))
      else
        match ingest env file_path "auto" opts with
        | Replied parsed =>
            FileSuccess file_path (path_name env file_path) st_size
              (path_suffix env file_path) parsed "auto" opts
        | Failed e => FileError file_path (str_exc e)
        end
  end.

(** The number of the workers of a batch. *)
Definition workers (max_workers : option Z) : Z :=
  DocumentProcessor.or_int max_workers (RAG_MAX_WORKERS settings).

End Vocabulary.

(** The payload a text query builds from what the backend answered. *)
Definition built (q : QueryService.t) (text mode : string) (a : Answer)
  : QueryResult :=
  {| qr_query := text; qr_mode := mode; qr_multimodal_items := None;
     qr_response := response a; qr_sources := sources a;
     qr_multimodal_analysis := None;
     qr_working_dir := QueryService.working_dir q;
     qr_total_sources := 1;
     qr_processing_time_ms := processing_time_ms a |}.

(** A call that ends: it returns or raises in every state. *)
Definition ends {S A} (m : M S A) : Prop := ∀ s, (m s).1 ≠ Hang.

(** The registry is keyed by the canonical path of the instances it
    holds, and those instances exist. *)
Definition registry_ok (w : RAGManager.World) : Prop :=
  ∀ k l, RAGManager._instances w !! k = Some l →
    l ∈ dom (RAGManager.objects w)
    ∧ RAGManager.directory_path (RAGManager.instance_at w l) = k.

(** Relations between the world before and after a call. *)
Definition keeps_registry_ok : relation RAGManager.World :=
  λ w w', registry_ok w → registry_ok w'.

Definition keeps_initialized : relation RAGManager.World :=
  λ w w', ∀ l,
    RAGManager.is_initialized (RAGManager.instance_at w l) = true →
    RAGManager.is_initialized (RAGManager.instance_at w' l) = true.

(** An update of an instance that keeps its identity and does not reset
    [is_initialized]. *)
Definition benign (f : RAGManager.RAGInstance → RAGManager.RAGInstance)
  : Prop :=
  ∀ i, RAGManager.directory_path (f i) = RAGManager.directory_path i
       ∧ (RAGManager.is_initialized i = true →
          RAGManager.is_initialized (f i) = true).

(** A relation on worlds that every elementary change of the manager
    respects; what such a relation says of one change, it says of every
    call. *)
Class Stable (R : relation RAGManager.World) : Prop := {
  stable_update l f w :
    benign f → R w (RAGManager.update_instance l f w).2;
  stable_register key i w :
    RAGManager.directory_path i = key → R w (RAGManager.register key i w).2;
  stable_log w log' :
    R w {| RAGManager._instances := RAGManager._instances w;
           RAGManager.objects := RAGManager.objects w;
           RAGManager.log := log' |};
  stable_drop w kept :
    kept ⊆ RAGManager._instances w →
    R w {| RAGManager._instances := kept;
           RAGManager.objects := RAGManager.objects w;
           RAGManager.log := RAGManager.log w |};
}.

(** [m] moves the world along [R] and returns only values in [Q]. *)
Definition preserves (R : relation RAGManager.World) {A}
    (m : M RAGManager.World A) (Q : A → Prop) : Prop :=
  ∀ w, R w (m w).2 ∧ ∀ a, (m w).1 = Return a → Q a.

(** ** src/monitoring/metrics.py *)

Module MetricsCollector.

(** The collector: its dictionaries, and whether its lock is held.  The
    values of counters and gauges, the observations and the readings of
    the clock are integers here (readings and durations in
    microseconds). *)
Record t : Type := {
  _counters : gmap string Z;
  _gauges : gmap string Z;
  _histograms : gmap string (list Z);
  _timers : gmap string Z;
  _metadata : gmap string string;
  _lock : bool;
}.

(** [__init__], on the first construction of the singleton. *)
Definition init : t :=
  {| _counters := ∅; _gauges := ∅; _histograms := ∅; _timers := ∅;
     _metadata := ∅; _lock := false |}.

Definition set_counters (c : gmap string Z) (s : t) : t :=
  {| _counters := c; _gauges := _gauges s; _histograms := _histograms s;
     _timers := _timers s; _metadata := _metadata s; _lock := _lock s |}.

Definition set_gauges (g : gmap string Z) (s : t) : t :=
  {| _counters := _counters s; _gauges := g; _histograms := _histograms s;
     _timers := _timers s; _metadata := _metadata s; _lock := _lock s |}.

Definition set_histograms (h : gmap string (list Z)) (s : t) : t :=
  {| _counters := _counters s; _gauges := _gauges s; _histograms := h;
     _timers := _timers s; _metadata := _metadata s; _lock := _lock s |}.

Definition set_timers (m : gmap string Z) (s : t) : t :=
  {| _counters := _counters s; _gauges := _gauges s;
     _histograms := _histograms s; _timers := m;
     _metadata := _metadata s; _lock := _lock s |}.

Definition set_metadata_dict (m : gmap string string) (s : t) : t :=
  {| _counters := _counters s; _gauges := _gauges s;
     _histograms := _histograms s; _timers := _timers s;
     _metadata := m; _lock := _lock s |}.

Definition set_lock (held : bool) (s : t) : t :=
  {| _counters := _counters s; _gauges := _gauges s;
     _histograms := _histograms s; _timers := _timers s;
     _metadata := _metadata s; _lock := held |}.

(** [with self._lock: body].  The lock is a [threading.Lock]: it is not
    reentrant, so taking it while it is held blocks for ever; it is
    released when the body returns or raises. *)
Definition with_lock {A} (body : M t A) : M t A :=
  λ s, if _lock s then (Hang, s)
       else match body (set_lock true s) with
            | (Hang, s') => (Hang, s')
            | (o, s') => (o, set_lock false s')
            end.

(** The labels of a metric: the items of the dict, in insertion order. *)
Definition Labels : Type := list (string * string).

(** The order of the tuples [(key, value)]. *)
Definition item_le (a b : string * string) : Prop :=
  if decide (a.1 = b.1) then String.le a.2 b.2 else String.le a.1 b.1.

#[global] Instance item_le_dec : RelDecision item_le.
Proof. intros a b. unfold item_le. destruct (decide (a.1 = b.1)); apply _. Defined.

Definition quote : string := String "034" "".

Definition label_str (labels : Labels) : string :=
  String.concat ","
    ((λ kv, kv.1 +:+ "=" +:+ quote +:+ kv.2 +:+ quote)
       <$> merge_sort item_le labels).

Definition _build_metric_name (metric_name : string) (labels : option Labels)
  : string :=
  match labels with
  | None | Some [] => metric_name
  | Some items => metric_name +:+ "{" +:+ label_str items +:+ "}"
  end.

Definition increment (metric_name : string) (value : Z)
    (labels : option Labels) : M t unit :=
  with_lock
    (let full_name := _build_metric_name metric_name labels in
     modify (λ s, set_counters
                    (<[full_name := default 0 (_counters s !! full_name)
                                    + value]> (_counters s)) s)).

Definition set_gauge (metric_name : string) (value : Z)
    (labels : option Labels) : M t unit :=
  with_lock
    (let full_name := _build_metric_name metric_name labels in
     modify (λ s, set_gauges (<[full_name := value]> (_gauges s)) s)).

(** [self._histograms[full_name].append(value)] on a [defaultdict(list)]. *)
Definition append_observation (full_name : string) (value : Z) (s : t) : t :=
  set_histograms
    (<[full_name := default [] (_histograms s !! full_name) ++ [value]]>
       (_histograms s)) s.

Definition observe (metric_name : string) (value : Z)
    (labels : option Labels) : M t unit :=
  with_lock
    (let full_name := _build_metric_name metric_name labels in
     modify (append_observation full_name value)).

(** [now] is the reading of [time.time()]. *)
Definition start_timer (timer_name : string) (now : Z) : M t unit :=
  with_lock (modify (λ s, set_timers (<[timer_name := now]> (_timers s)) s)).

Definition stop_timer (timer_name : string) (labels : option Labels)
    (now : Z) : M t (option Z) :=
  with_lock
    (s ← get;
     match _timers s !! timer_name with
     | None => mret None
     | Some start_time =>
         let duration := now - start_time in
         let metric_name := timer_name +:+ "_duration_seconds" in
         let full_name := _build_metric_name metric_name labels in
         _ ← modify (λ s, set_timers (delete timer_name (_timers s)) s);
         _ ← modify (append_observation full_name duration);
         mret (Some duration)
     end).

Definition get_counter (metric_name : string) (labels : option Labels)
  : M t Z :=
  with_lock
    (s ← get;
     mret (default 0 (_counters s !! _build_metric_name metric_name labels))).

Definition get_gauge (metric_name : string) (labels : option Labels)
  : M t (option Z) :=
  with_lock
    (s ← get; mret (_gauges s !! _build_metric_name metric_name labels)).

(** The statistics of a histogram; [mean] is the fraction
    [sum / count]. *)
Record HistogramStats : Type := {
  hs_count : nat;
  hs_min : Z;
  hs_max : Z;
  hs_mean : Z * nat;
  hs_median : Z;
  hs_p95 : Z;
  hs_p99 : Z;
}.

Definition index_error : PyExc :=
  mkExc (OtherException "IndexError") "list index out of range".

(** [values[i]], for [i >= 0]. *)
Definition item {S} (values : list Z) (i : nat) : M S Z :=
  match values !! i with
  | Some v => mret v
  | None => raise index_error
  end.

(** [int(count * 0.95)] and [int(count * 0.99)]: the product is taken in
    double precision and truncated, which for the length of a list is
    the integer part of [count * percent / 100]. *)
Definition percentile_index (count : nat) (percent : Z) : nat :=
  Z.to_nat (Z.of_nat count * percent / 100).

Definition get_histogram_stats (metric_name : string)
    (labels : option Labels) : M t (option HistogramStats) :=
  with_lock
    (s ← get;
     match _histograms s !! _build_metric_name metric_name labels with
     | None | Some [] => mret None
     | Some values =>
         let sorted_values := merge_sort Z.le values in
         let count := length sorted_values in
         min ← item sorted_values 0;
         max ← item sorted_values (count - 1);
         median ← item sorted_values (count / 2);
         p95 ← item sorted_values (percentile_index count 95);
         p99 ← item sorted_values (percentile_index count 99);
         mret (Some {| hs_count := count; hs_min := min; hs_max := max;
                       hs_mean := (foldr Z.add 0 sorted_values, count);
                       hs_median := median; hs_p95 := p95; hs_p99 := p99 |})
     end).

(** [name.split("{")[0]]. *)
Fixpoint before_brace (name : string) : string :=
  match name with
  | "" => ""
  | String c rest =>
      if decide (c = "{"%char) then "" else String c (before_brace rest)
  end.

(** The calls of a comprehension, in order. *)
Fixpoint for_each {S A B} (f : A → M S B) (l : list A) : M S (list B) :=
  match l with
  | [] => mret []
  | x :: rest => y ← f x; ys ← for_each f rest; mret (y :: ys)
  end.

Record MetricsData : Type := {
  timestamp : Z;
  counters : gmap string Z;
  gauges : gmap string Z;
  histograms : gmap string (option HistogramStats);
  metadata : gmap string string;
}.

(** [now] is the reading of [datetime.utcnow()]. *)
Definition get_all_metrics (now : Z) : M t MetricsData :=
  with_lock
    (s ← get;
     stats ← for_each
               (λ name, st ← get_histogram_stats (before_brace name) None;
                        mret (name, st))
               (map_to_list (_histograms s)).*1;
     mret {| timestamp := now; counters := _counters s; gauges := _gauges s;
             histograms := list_to_map stats; metadata := _metadata s |}).

Definition reset : M t unit :=
  with_lock
    (modify (λ s, set_timers ∅ (set_histograms ∅
                    (set_gauges ∅ (set_counters ∅ s))))).

Definition flush (now : Z) : M t MetricsData := get_all_metrics now.

Definition set_metadata (key value : string) : M t unit :=
  with_lock
    (modify (λ s, set_metadata_dict (<[key := value]> (_metadata s)) s)).

(** [with timer(name): body], and the call of a function decorated with
    [@timer(name)]; [started] and [stopped] are the readings of the clock
    on entry and on exit. *)
Definition timer {A} (name : string) (started stopped : Z) (body : M t A)
  : M t A :=
  _ ← start_timer name started;
  try_finally body (_ ← stop_timer name None stopped; mret tt).

End MetricsCollector.

(** ** src/utils/file_utils.py *)

Module FileUtils.

(** The characters of [invalid_chars]; ["034"] is the double quote. *)
Definition invalid_chars : list ascii :=
  ["<"; ">"; ":"; "034"; "/"; "\"; "|"; "?"; "*"]%char.

(** [c if c not in invalid_chars else "_"]. *)
Definition replace_invalid (c : ascii) : ascii :=
  if decide (c ∈ invalid_chars) then "_"%char else c.

(** [str.lstrip(chars)] and [str.strip(chars)], on the characters of the
    string. *)
Fixpoint lstrip (chars name : list ascii) : list ascii :=
  match name with
  | [] => []
  | c :: rest => if decide (c ∈ chars) then lstrip chars rest else name
  end.

Definition strip (chars name : list ascii) : list ascii :=
  reverse (lstrip chars (reverse (lstrip chars name))).

Definition safe_filename (filename : string) : string :=
  let safe_name :=
    strip ["."; " "]%char
      (replace_invalid <$> String.list_ascii_of_string filename) in
  match safe_name with
  | [] => "unnamed"
  | _ => String.string_of_list_ascii safe_name
  end.

End FileUtils.

(** ** src/utils/retry.py *)

Module RetryHandler.

(** [raise last_exception] when no exception was caught: [raise None]. *)
Definition no_last_exception : PyExc :=
  mkExc TypeError "exceptions must derive from BaseException".

Section WithTypes.
Context {S A D : Type}.

(** The arithmetic of the delays (numbers of type [D]): the product, the
    minimum, and the value of [0.5 + random.random()] drawn on an
    attempt; and [await asyncio.sleep(delay)], during which the rest of
    the program may run. *)
Variable mul : D → D → D.
Variable min : D → D → D.
Variable jitter_factor : nat → D.
Variable sleep : D → M S unit.

(** The loop [for attempt in range(max_retries + 1)], with the
    iterations that remain, and the statement after it. *)
Fixpoint attempts (func : M S A) (max_retries : Z)
    (backoff_factor max_delay : D) (jitter : bool)
    (exceptions : PyExc → bool) (remaining attempt : nat) (delay : D)
    (last_exception : option PyExc) : M S A :=
  match remaining with
  | O => raise (default no_last_exception last_exception)
  | Datatypes.S remaining' =>
      λ s,
        match func s with
        | (Raise e, s') =>
            if exceptions e then
              if decide (Z.of_nat attempt = max_retries) then (Raise e, s')
              else
                let delay' :=
                  if jitter
                  then mul (min (mul delay backoff_factor) max_delay)
                           (jitter_factor attempt)
                  else min (mul delay backoff_factor) max_delay in
                (_ ← sleep delay';
                 attempts func max_retries backoff_factor max_delay jitter
                   exceptions remaining' (Datatypes.S attempt) delay'
                   (Some e)) s'
            else (Raise e, s')
        | other => other
        end
  end.

Definition retry_async (func : M S A) (max_retries : Z)
    (backoff_factor initial_delay max_delay : D) (jitter : bool)
    (exceptions : PyExc → bool) : M S A :=
  attempts func max_retries backoff_factor max_delay jitter exceptions
    (Z.to_nat (max_retries + 1)) 0 initial_delay None.

End WithTypes.

End RetryHandler.

(** ** src/utils/validation.py *)

Module Validator.

Definition valid_modes : list string :=
  ["hybrid"; "local"; "global"; "naive"; "mix"; "bypass"].

Definition validate_query_mode (mode : string) : Outcome unit :=
  if decide (mode ∈ valid_modes) then Return tt
  else Raise (mkExc ValueError
                ("Invalid query mode: " +:+ mode +:+ ". Valid modes: "
                 +:+ String.concat ", " valid_modes)).

Definition validate_positive_int (value : Z) (name : string) : Outcome unit :=
  if decide (value ≤ 0)
  then Raise (mkExc ValueError (name +:+ " must be positive"))
  else Return tt.

End Validator.

(** ** More vocabulary *)

(** A multimodal item that the validation accepts: it has a type, and a
    table, an equation or an image has the key its type requires. *)
Definition item_ok (item : MultimodalItem) : Prop :=
  match item_type item with
  | None => False
  | Some ty =>
      (ty = "table" → has_table_data item = true)
      ∧ (ty = "equation" → has_latex item = true)
      ∧ (ty = "image" → has_image_url item || has_image_path item = true)
  end.

(** Every entry of the cache of a query service sits under the key of
    its own mode and text, belongs to a valid mode and was built for the
    working directory of the service. *)
Definition cache_ok (q : QueryService.t) : Prop :=
  ∀ c k r,
    QueryService._cache q = Some c → c !! k = Some r →
    k = QueryService.cache_key (qr_mode r) (qr_query r)
    ∧ qr_mode r ∈ QueryService.VALID_MODES
    ∧ qr_working_dir r = QueryService.working_dir q.

(** The worlds the manager reaches when it is only driven through the
    tools of the registry. *)
Inductive tool_reachable (env : Env) (settings : Settings)
  : RAGManager.World → Prop :=
  | tool_reachable_empty : tool_reachable env settings RAGManager.empty_world
  | tool_reachable_call now c w :
      tool_reachable env settings w →
      tool_reachable env settings (Tools.call_tool env settings now c w).2.

(** The parameters a tool requires, in the order its handler lists
    them, each with whether the call has it. *)
Definition required_params (c : Tools.ToolCall) : list (string * bool) :=
  match c with
  | Tools.CallProcessDirectory p =>
      [("directory_path", Tools.present (Tools.pd_directory_path p));
       ("api_key", Tools.present (Tools.pd_api_key p))]
  | Tools.CallProcessSingleDocument p =>
      [("file_path", Tools.present (Tools.ps_file_path p));
       ("api_key", Tools.present (Tools.ps_api_key p))]
  | Tools.CallQueryDirectory p =>
      [("directory_path", Tools.present (Tools.qd_directory_path p));
       ("query", Tools.present (Tools.qd_query p))]
  | Tools.CallQueryWithMultimodal p =>
      [("directory_path", Tools.present (Tools.qm_directory_path p));
       ("query", Tools.present (Tools.qm_query p));
       ("multimodal_content", Tools.present (Tools.qm_multimodal_content p))]
  | Tools.CallListProcessedDirectories => []
  | Tools.CallGetRagInfo directory_path =>
      [("directory_path", Tools.present directory_path)]
  end.

(** The flags of every instance object are down. *)
Definition all_idle (w : RAGManager.World) : Prop :=
  ∀ l, RAGManager.is_initialized (RAGManager.instance_at w l) = false
       ∧ RAGManager.is_processing (RAGManager.instance_at w l) = false.

(** An invocation of the backend for a multimodal query. *)
Definition is_multimodal_answer (ev : Event) : Prop :=
  match ev with AnswerMultimodal _ _ _ => True | _ => False end.

(** ** More sample environments *)

Module Samples.

(** The file system of [Demo.env], where listing the [.md] files is
    refused. *)
Definition denied_glob (directory pat : string) : Reply (list Path) :=
  if decide (pat = "**/*.md")
  then Failed (mkExc (OtherException "PermissionError")
                 ("[Errno 13] Permission denied: '" +:+ directory +:+ "'"))
  else Demo.listing_glob directory pat.

Definition denied_env : Env := {|
  resolve := Demo.lexical_resolve;
  path_name := Demo.name;
  path_suffix := Demo.suffix;
  path_parent := Demo.parent;
  path_join := λ a b, a +:+ "/" +:+ b;
  glob := denied_glob;
  stat_size := Demo.listing_size;
  mkdir := λ _, None;
  ingest := placeholder_ingest Demo.name;
  answer := placeholder_answer;
  answer_multimodal := placeholder_answer_multimodal;
|}.

Definition docs : list Path :=
  [["/"; "docs"; "a.txt"]; ["/"; "docs"; "b.md"]; ["/"; "docs"; "big.txt"]].

Definition table_item : MultimodalItem :=
  {| item_type := Some "table"; has_table_data := true; has_latex := false;
     has_image_url := false; has_image_path := false |}.

Definition equation_item : MultimodalItem :=
  {| item_type := Some "equation"; has_table_data := false; has_latex := true;
     has_image_url := false; has_image_path := false |}.


(** The world after [/docs] has been registered at time 1. *)
Definition registered : RAGManager.World :=
  (RAGManager.get_or_create_instance Demo.env default_settings 1
     "/docs" "key" None RAGManager.empty_world).2.

(** The parameters of a call of the tool [process_directory] on
    [/docs]. *)
Definition process_docs : Tools.ProcessDirectoryParams :=
  {| Tools.pd_directory_path := Some "/docs";
     Tools.pd_api_key := Some "key";
     Tools.pd_working_dir := None;
     Tools.pd_file_extensions := None;
     Tools.pd_recursive := None;
     Tools.pd_enable_image_processing := None;
     Tools.pd_enable_table_processing := None;
     Tools.pd_enable_equation_processing := None;
     Tools.pd_max_workers := None |}.

End Samples.

(** * Properties *)

(** ** Unfolding the monad *)

Ltac unfold_monad :=
  unfold mbind, M_bind, bind, mret, M_ret, ret, raise, hang, get, modify,
    of_reply in *.

(** ** Calls that end *)

Section Ends.
Context {S : Type}.

Lemma ends_ret {A} (a : A) : ends (mret a : M S A).
Proof. by intros s. Qed.

Lemma ends_raise {A} (e : PyExc) : ends (raise e : M S A).
Proof. by intros s. Qed.

Lemma ends_get : ends (get : M S S).
Proof. by intros s. Qed.

Lemma ends_modify (f : S → S) : ends (modify f).
Proof. by intros s. Qed.

Lemma ends_of_reply {A} (r : Reply A) : ends (of_reply r : M S A).
Proof. intros s. by destruct r. Qed.

Lemma ends_outcome {A} (o : Outcome A) :
  o ≠ Hang → ends (λ s : S, (o, s)).
Proof. by intros Ho s. Qed.

Lemma ends_bind {A B} (m : M S A) (k : A → M S B) :
  ends m → (∀ a, ends (k a)) → ends (m ≫= k).
Proof.
  intros Hm Hk s. unfold_monad. specialize (Hm s).
  destruct (m s) as [[a|e|] s1]; simpl in *; [apply Hk|done..].
Qed.

Lemma ends_try_finally {A} (body : M S A) (fin : M S unit) :
  ends body → ends fin → ends (try_finally body fin).
Proof.
  intros Hbody Hfin s. unfold try_finally. specialize (Hbody s).
  destruct (body s) as [[a|e|] s1]; simpl in *; [| |done].
  - specialize (Hfin s1). by destruct (fin s1) as [[[]|e'|] s2].
  - specialize (Hfin s1). by destruct (fin s1) as [[[]|e'|] s2].
Qed.

End Ends.

(** ** The order of paths *)

#[global] Instance path_le_total : Total path_le.
Proof.
  intros p. unfold path_le.
  induction p as [|a p IH]; intros [|b q]; simpl; auto.
  destruct (decide (a = b)) as [->|Hab].
  - rewrite decide_True by done. apply IH.
  - rewrite decide_False by congruence.
    destruct (total String.le a b); [left|right]; by apply bool_decide_pack.
Qed.

#[global] Instance path_le_trans : Transitive path_le.
Proof.
  intros p. unfold path_le.
  induction p as [|a p IH]; intros [|b q] [|c r]; simpl; try done.
  repeat case_decide; subst; try done; eauto.
  all: intros Hle1%bool_decide_unpack Hle2%bool_decide_unpack.
  - exfalso. by apply H0, (anti_symm String.le).
  - apply bool_decide_pack. by etrans.
Qed.

#[global] Instance path_le_refl : Reflexive path_le.
Proof. intros p. by destruct (total path_le p p). Qed.

#[global] Instance path_le_antisym : AntiSymm (=) path_le.
Proof.
  intros p. unfold path_le.
  induction p as [|a p IH]; intros [|b q]; simpl; try done.
  destruct (decide (a = b)) as [->|Hab].
  - rewrite decide_True by done. intros ??. f_equal. by apply IH.
  - rewrite decide_False by congruence.
    intros ?%bool_decide_unpack ?%bool_decide_unpack.
    destruct Hab. by apply (anti_symm String.le).
Qed.

(** ** The ingestion pipeline *)

Section Ingestion.
Variable env : Env.
Variable settings : Settings.

Lemma glob_all_matches directory recursive extensions files :
  DocumentProcessor.glob_all env directory
    (DocumentProcessor.pattern recursive) extensions = Replied files →
  files = extensions ≫= matches env directory recursive.
Proof.
  revert files. induction extensions as [|ext rest IH]; intros files; simpl.
  - by intros [= <-].
  - unfold matches at 1.
    destruct (glob env directory _) as [found|]; [|done].
    destruct (DocumentProcessor.glob_all _ _ _ rest) as [more|]; [|done].
    intros [= <-]. by rewrite (IH more).
Qed.

Lemma glob_all_replies directory recursive extensions :
  Forall (λ ext, ∃ found,
            glob env directory (DocumentProcessor.pattern recursive +:+ ext)
            = Replied found) extensions →
  ∃ files, DocumentProcessor.glob_all env directory
             (DocumentProcessor.pattern recursive) extensions = Replied files.
Proof.
  induction 1 as [|ext rest [found Hf] _ [more IH]]; simpl; [by eexists|].
  rewrite Hf, IH. by eexists.
Qed.

Lemma find_files_spec directory extensions recursive files :
  DocumentProcessor._find_files env directory extensions recursive
    = Replied files →
  files = merge_sort path_le (extensions ≫= matches env directory recursive).
Proof.
  unfold DocumentProcessor._find_files.
  destruct (DocumentProcessor.glob_all _ _ _ _) as [l|] eqn:Hl; [|done].
  intros [= <-]. by rewrite (glob_all_matches _ _ _ _ Hl).
Qed.

(** One unit of work of a batch. *)
Lemma process_single_document_run opts file_path output_dir log :
  DocumentProcessor.process_single_document env settings file_path
    output_dir "auto" opts log
  = (match stat_size env file_path with
     | None => Raise (DocumentProcessor.file_not_found file_path)
     | Some st_size =>
         if decide (DocumentProcessor.over_limit settings st_size)
         then Raise (DocumentProcessor.file_too_large st_size
                       (MAX_FILE_SIZE_MB settings))
         else Return (batch_result env settings opts file_path)
     end,
     if decide (reaches_backend env settings file_path)
     then log ++ [Ingest file_path] else log).
Proof.
  unfold DocumentProcessor.process_single_document, batch_result.
  destruct (stat_size env file_path) as [sz|] eqn:Hsz.
  - destruct (decide (DocumentProcessor.over_limit settings sz)).
    + rewrite decide_False; [done|].
      unfold reaches_backend. rewrite Hsz. tauto.
    + rewrite decide_True by (unfold reaches_backend; by rewrite Hsz).
      unfold_monad. simpl.
      by destruct (ingest env file_path "auto" opts).
  - rewrite decide_False; [done|].
    unfold reaches_backend. rewrite Hsz. tauto.
Qed.

Lemma gather_batch opts working_dir files log :
  gather_return_exceptions
    (map (λ file, DocumentProcessor.process_single_document env settings
                    (path_str file) (Some working_dir) "auto" opts) files) log
  = (Return (map (λ file,
       match stat_size env (path_str file) with
       | None => Failed (DocumentProcessor.file_not_found (path_str file))
       | Some st_size =>
           if decide (DocumentProcessor.over_limit settings st_size)
           then Failed (DocumentProcessor.file_too_large st_size
                          (MAX_FILE_SIZE_MB settings))
           else Replied (batch_result env settings opts (path_str file))
       end) files),
     log ++ (Ingest <$> filter (reaches_backend env settings)
                               (path_str <$> files))).
Proof.
  revert log. induction files as [|file files IH]; intros log; simpl.
  - unfold_monad. by rewrite app_nil_r.
  - rewrite process_single_document_run.
    rewrite filter_cons.
    destruct (stat_size env (path_str file)) as [sz|] eqn:Hsz.
    + destruct (decide (DocumentProcessor.over_limit settings sz)).
      * unfold_monad. rewrite IH.
        destruct (decide (reaches_backend _ _ _)); [|done].
        simpl. by rewrite <-app_assoc.
      * unfold_monad. rewrite IH.
        destruct (decide (reaches_backend _ _ _)); [|done].
        simpl. by rewrite <-app_assoc.
    + unfold_monad. rewrite IH.
      destruct (decide (reaches_backend _ _ _)); [|done].
      simpl. by rewrite <-app_assoc.
Qed.

Lemma zip_with_handle_exception opts files :
  zip_with DocumentProcessor.handle_exception files
    (map (λ file,
       match stat_size env (path_str file) with
       | None => Failed (DocumentProcessor.file_not_found (path_str file))
       | Some st_size =>
           if decide (DocumentProcessor.over_limit settings st_size)
           then Failed (DocumentProcessor.file_too_large st_size
                          (MAX_FILE_SIZE_MB settings))
           else Replied (batch_result env settings opts (path_str file))
       end) files)
  = batch_result env settings opts ∘ path_str <$> files.
Proof.
  induction files as [|file files IH]; simpl; [done|].
  rewrite IH. f_equal. unfold batch_result.
  destruct (stat_size env (path_str file)) as [sz|] eqn:Hsz; [|done].
  by destruct (decide (DocumentProcessor.over_limit settings sz)).
Qed.

(** A batch with at least one permit records one result per file, in the
    order of the files, and calls the backend for exactly the files that
    pass the checks. *)
Lemma process_files_batch_spec files working_dir max_workers opts log :
  0 < max_workers →
  DocumentProcessor._process_files_batch env settings files working_dir
    max_workers opts log
  = (Return (batch_result env settings opts ∘ path_str <$> files),
     log ++ (Ingest <$> filter (reaches_backend env settings)
                               (path_str <$> files))).
Proof.
  intros Hpos. unfold DocumentProcessor._process_files_batch.
  rewrite decide_False by lia.
  rewrite decide_False by (intros [? _]; lia).
  unfold_monad. rewrite gather_batch.
  by rewrite zip_with_handle_exception.
Qed.

Lemma process_files_batch_refused files working_dir max_workers opts log :
  max_workers ≤ 0 → files ≠ [] →
  ∀ results log',
    DocumentProcessor._process_files_batch env settings files working_dir
      max_workers opts log ≠ (Return results, log').
Proof.
  intros Hle Hne results log'.
  unfold DocumentProcessor._process_files_batch.
  destruct (decide (max_workers < 0)); [done|].
  by rewrite decide_True by (split; [lia|done]).
Qed.

(** The statuses a batch can record. *)
Lemma batch_result_status opts file_path :
  status (batch_result env settings opts file_path)
  = if decide (fails env settings opts file_path) then "error" else "success".
Proof.
  unfold batch_result.
  destruct (stat_size env file_path) as [sz|] eqn:Hsz.
  - destruct (decide (DocumentProcessor.over_limit settings sz)).
    + rewrite decide_True; [done|]. unfold fails. rewrite Hsz. by left.
    + destruct (ingest env file_path "auto" opts) eqn:Hi; simpl.
      * rewrite decide_False; [done|]. unfold fails. rewrite Hsz, Hi. tauto.
      * rewrite decide_True; [done|]. unfold fails. rewrite Hsz, Hi. tauto.
  - rewrite decide_True; [done|]. unfold fails. by rewrite Hsz.
Qed.

Lemma batch_result_path opts file_path :
  result_path (batch_result env settings opts file_path) = file_path.
Proof.
  unfold batch_result.
  destruct (stat_size env file_path) as [sz|]; [|done].
  destruct (decide _); [done|]. by destruct (ingest _ _ _ _).
Qed.

Lemma filter_error_results opts (paths : list string) :
  filter (λ r, status r = "error") (batch_result env settings opts <$> paths)
  = batch_result env settings opts <$> filter (fails env settings opts) paths.
Proof.
  induction paths as [|p paths IH]; [done|].
  rewrite fmap_cons, !filter_cons, batch_result_status.
  destruct (decide (fails env settings opts p)).
  - rewrite decide_True by done. by rewrite fmap_cons, IH.
  - by rewrite decide_False by done.
Qed.

Lemma filter_success_results opts (paths : list string) :
  filter (λ r, status r = "success") (batch_result env settings opts <$> paths)
  = batch_result env settings opts
      <$> filter (λ p, ¬ fails env settings opts p) paths.
Proof.
  induction paths as [|p paths IH]; [done|].
  rewrite fmap_cons, !filter_cons, batch_result_status.
  destruct (decide (fails env settings opts p)).
  - rewrite decide_False by done. by rewrite decide_False by tauto.
  - rewrite decide_True by done. rewrite decide_True by done.
    by rewrite fmap_cons, IH.
Qed.

Lemma filter_skipped_results opts (paths : list string) :
  filter (λ r, status r = "skipped") (batch_result env settings opts <$> paths)
  = [].
Proof.
  induction paths as [|p paths IH]; [done|].
  rewrite fmap_cons, filter_cons, batch_result_status.
  by destruct (decide (fails env settings opts p)).
Qed.

Lemma filter_split_length {A} (P : A → Prop) `{!∀ x, Decision (P x)}
    (l : list A) :
  (length (filter (λ x, ¬ P x) l) + length (filter P l) = length l)%nat.
Proof.
  induction l as [|x l IH]; [done|].
  rewrite !filter_cons. destruct (decide (P x)).
  - rewrite decide_False by tauto. simpl. lia.
  - rewrite decide_True by done. simpl. lia.
Qed.

(** The report of a directory whose scan returned [files]. *)
Lemma process_directory_report directory working_dir file_extensions
    recursive opts max_workers log files :
  DocumentProcessor._find_files env directory
    (DocumentProcessor.or_list file_extensions
       (SUPPORTED_FILE_EXTENSIONS settings)) recursive = Replied files →
  0 < workers settings max_workers →
  ∃ report,
    DocumentProcessor.process_directory env settings directory working_dir
      file_extensions recursive opts max_workers log
    = (Return report,
       log ++ (Ingest <$> filter (reaches_backend env settings)
                                 (path_str <$> files)))
    ∧ total_files report = length files
    ∧ processed_files report
      = length (filter (λ p, ¬ fails env settings opts p) (path_str <$> files))
    ∧ failed_files report
      = length (filter (fails env settings opts) (path_str <$> files))
    ∧ skipped_files report = 0%nat
    ∧ errors report
      = batch_result env settings opts
          <$> filter (fails env settings opts) (path_str <$> files).
Proof.
  intros Hscan Hpos. unfold DocumentProcessor.process_directory.
  unfold_monad. rewrite Hscan. simpl.
  destruct files as [|file files].
  - eexists. split; [by rewrite app_nil_r|]. by repeat split.
  - fold (workers settings max_workers).
    rewrite process_files_batch_spec by done.
    generalize (file :: files). intros fs.
    eexists. split; [done|]. simpl total_files. simpl processed_files.
    simpl failed_files. simpl skipped_files. simpl errors.
    unfold DocumentProcessor.count_status.
    rewrite list_fmap_compose.
    rewrite filter_error_results, filter_success_results,
      filter_skipped_results, !length_fmap.
    by repeat split.
Qed.

Lemma find_files_replies directory extensions recursive :
  Forall (λ ext, ∃ found,
            glob env directory (DocumentProcessor.pattern recursive +:+ ext)
            = Replied found) extensions →
  ∃ files,
    DocumentProcessor._find_files env directory extensions recursive
    = Replied files.
Proof.
  intros [files Hfiles]%glob_all_replies.
  unfold DocumentProcessor._find_files. rewrite Hfiles. by eexists.
Qed.

(** The pipeline ends unless the semaphore has no permit. *)
Lemma ends_process_files_batch files working_dir max_workers opts :
  max_workers ≠ 0 →
  ends (DocumentProcessor._process_files_batch env settings files
          working_dir max_workers opts).
Proof.
  intros Hne log. unfold DocumentProcessor._process_files_batch.
  destruct (decide (max_workers < 0)); [done|].
  rewrite decide_False by (intros [? _]; done).
  unfold_monad. by rewrite gather_batch.
Qed.

Lemma workers_nonzero max_workers :
  0 < RAG_MAX_WORKERS settings → workers settings max_workers ≠ 0.
Proof.
  intros Hpos. unfold workers, DocumentProcessor.or_int.
  destruct max_workers as [n|]; [|lia].
  destruct (decide (n = 0)); [lia|done].
Qed.

Lemma ends_document_processor_process_directory directory working_dir
    file_extensions recursive opts max_workers :
  0 < RAG_MAX_WORKERS settings →
  ends (DocumentProcessor.process_directory env settings directory
          working_dir file_extensions recursive opts max_workers).
Proof.
  intros Hpos. unfold DocumentProcessor.process_directory.
  apply ends_bind; [apply ends_of_reply|]. intros [|file files].
  - apply ends_ret.
  - apply ends_bind; [|intros results; apply ends_ret].
    apply ends_process_files_batch. by apply workers_nonzero.
Qed.

End Ingestion.

(** ** Counting in lists *)

Lemma filter_iff_on {A} (P Q : A → Prop) `{!∀ x, Decision (P x)}
    `{!∀ x, Decision (Q x)} (l : list A) :
  (∀ x, x ∈ l → P x ↔ Q x) → filter P l = filter Q l.
Proof.
  induction l as [|a l IH]; intros Hiff; [done|].
  rewrite !filter_cons.
  assert (filter P l = filter Q l) as ->
    by (apply IH; intros x Hx; apply Hiff; by right).
  destruct (decide (P a)) as [Ha|Ha].
  - rewrite decide_True; [done|]. apply Hiff; [by left|done].
  - rewrite decide_False; [done|]. intros Hq. apply Ha, Hiff; [by left|done].
Qed.

Lemma count_NoDup {A} `{!EqDecision A} (x : A) (l : list A) :
  NoDup l →
  length (filter (λ y, y = x) l) = if decide (x ∈ l) then 1%nat else 0%nat.
Proof.
  induction 1 as [|a l Ha Hl IH]; [done|].
  rewrite filter_cons. destruct (decide (a = x)) as [->|Hne].
  - rewrite decide_True by (by left). simpl. rewrite IH.
    by rewrite decide_False.
  - rewrite IH. destruct (decide (x ∈ l)).
    + by rewrite decide_True by (by right).
    + rewrite decide_False; [done|]. intros [?|?]%elem_of_cons; by subst.
Qed.

(** ** The scan *)

Section Scan.
Variable env : Env.

Lemma count_matches directory recursive (file : Path) extensions :
  Forall (λ ext, NoDup (matches env directory recursive ext)) extensions →
  length (filter (λ f, f = file)
                 (extensions ≫= matches env directory recursive))
  = length (filter (λ ext, file ∈ matches env directory recursive ext)
                   extensions).
Proof.
  induction 1 as [|ext rest Hnd _ IH]; [done|].
  rewrite bind_cons, filter_app, length_app, IH, filter_cons.
  rewrite (count_NoDup _ _ Hnd).
  by destruct (decide (file ∈ matches env directory recursive ext)).
Qed.

(** C9, as amended: when the scan returns, its result is sorted by path
    (every file is below all the files after it), it is a rearrangement
    of the matches of the allow-list entries taken one after the other,
    and a file therefore appears once for each entry whose pattern it
    matches: at most once when it matches a single entry, more than once
    when it matches several. *)
Theorem C9_scan_sorted_per_entry directory extensions recursive files :
  DocumentProcessor._find_files env directory extensions recursive
    = Replied files →
  StronglySorted path_le files
  ∧ files ≡ₚ extensions ≫= matches env directory recursive
  ∧ (Forall (λ ext, NoDup (matches env directory recursive ext)) extensions →
     ∀ file,
       length (filter (λ f, f = file) files)
       = length (filter (λ ext, file ∈ matches env directory recursive ext)
                        extensions)).
Proof.
  intros ->%find_files_spec. split; [|split].
  - apply (StronglySorted_merge_sort _).
  - apply merge_sort_Permutation.
  - intros Hnd file. rewrite <-(count_matches _ _ _ _ Hnd).
    apply Permutation_length. f_equiv. apply merge_sort_Permutation.
Qed.

End Scan.

(** C9 on [/docs]: the three files, sorted. *)
Lemma C9_scan_sorted_per_entry_witness :
  let files := [["/"; "docs"; "a.txt"]; ["/"; "docs"; "b.md"];
                ["/"; "docs"; "big.txt"]] in
  DocumentProcessor._find_files Demo.env "/docs" [".txt"; ".md"] true
    = Replied files
  ∧ StronglySorted path_le files.
Proof.
  split; [vm_compute; reflexivity|].
  apply (C9_scan_sorted_per_entry Demo.env "/docs" [".txt"; ".md"] true).
  vm_compute; reflexivity.
Defined.

(** C9 as stated fails: an archive that matches both [.gz] and [.tar.gz]
    is returned twice. *)
Lemma C9_scan_repeats_a_file :
  ∃ files,
    DocumentProcessor._find_files Demo.env "/pkg" [".gz"; ".tar.gz"] true
      = Replied files
    ∧ ¬ NoDup files.
Proof.
  exists [["/"; "pkg"; "x.tar.gz"]; ["/"; "pkg"; "x.tar.gz"]].
  split; [vm_compute; reflexivity|].
  intros [Hin _]%NoDup_cons. apply Hin. by left.
Qed.

(** ** Batch reports *)

Section Reports.
Variable env : Env.
Variable settings : Settings.

Lemma oversized_fails opts file_path :
  oversized env settings file_path → fails env settings opts file_path.
Proof.
  unfold oversized, fails.
  destruct (stat_size env file_path); [by left|done].
Qed.

Lemma oversized_skips_backend file_path :
  oversized env settings file_path → ¬ reaches_backend env settings file_path.
Proof.
  unfold oversized, reaches_backend.
  destruct (stat_size env file_path); tauto.
Qed.

(** C2, as amended: a file over the size limit is recorded as an error
    (never as skipped: no batch counts a skipped file), with the error
    message of the size check, and the backend is not invoked for it; so
    a scan of 3 files of which exactly one is over the limit, the two
    others being ingested, is reported as total 3, processed 2,
    failed 1, skipped 0. *)
Theorem C2_oversized_file_is_failed directory working_dir file_extensions
    recursive opts max_workers log files :
  DocumentProcessor._find_files env directory
    (DocumentProcessor.or_list file_extensions
       (SUPPORTED_FILE_EXTENSIONS settings)) recursive = Replied files →
  0 < workers settings max_workers →
  ∃ report invoked,
    DocumentProcessor.process_directory env settings directory working_dir
      file_extensions recursive opts max_workers log
    = (Return report, log ++ (Ingest <$> invoked))
    ∧ total_files report = length files
    ∧ skipped_files report = 0%nat
    ∧ (∀ file st_size,
         file ∈ files →
         stat_size env (path_str file) = Some st_size →
         DocumentProcessor.over_limit settings st_size →
         FileError (path_str file)
           (str_exc (DocumentProcessor.file_too_large st_size
                       (MAX_FILE_SIZE_MB settings))) ∈ errors report
         ∧ path_str file ∉ invoked)
    ∧ (length files = 3%nat →
       length (filter (oversized env settings) (path_str <$> files)) = 1%nat →
       (∀ file, file ∈ files →
          ¬ oversized env settings (path_str file) →
          ¬ fails env settings opts (path_str file)) →
       processed_files report = 2%nat ∧ failed_files report = 1%nat).
Proof.
  intros Hscan Hpos.
  destruct (process_directory_report env settings directory working_dir
              file_extensions recursive opts max_workers log files Hscan Hpos)
    as (report & Hrun & Htotal & Hproc & Hfail & Hskip & Herr).
  exists report, (filter (reaches_backend env settings) (path_str <$> files)).
  split; [done|]. split; [done|]. split; [done|]. split.
  - intros file sz Hin Hsz Hover.
    assert (oversized env settings (path_str file)) as Hbig
      by (unfold oversized; by rewrite Hsz).
    split.
    + rewrite Herr. apply list_elem_of_fmap. exists (path_str file). split.
      * unfold batch_result. rewrite Hsz. by rewrite decide_True.
      * apply list_elem_of_filter. split; [by apply oversized_fails|].
        by apply list_elem_of_fmap_2.
    + intros [Hreach _]%list_elem_of_filter.
      by apply (oversized_skips_backend _ Hbig).
  - intros Hlen Hone Hrest.
    assert (filter (fails env settings opts) (path_str <$> files)
            = filter (oversized env settings) (path_str <$> files)) as Heq.
    { apply filter_iff_on. intros p [file [-> Hin]]%list_elem_of_fmap.
      split; [|apply oversized_fails].
      intros Hf. destruct (decide (oversized env settings (path_str file)));
        [done|]. by destruct (Hrest file Hin). }
    pose proof (filter_split_length (fails env settings opts)
                  (path_str <$> files)) as Hsplit.
    rewrite length_fmap in Hsplit.
    rewrite Hproc, Hfail. rewrite Heq in *. lia.
Qed.


End Reports.

(** C2 on [/docs]: three files, none skipped, and the file over the
    limit never reaches the backend. *)
Lemma C2_oversized_file_is_failed_witness :
  ∃ report invoked,
    DocumentProcessor.process_directory Demo.env default_settings "/docs" "wd"
      None true Demo.all_enabled None [] = (Return report, Ingest <$> invoked)
    ∧ total_files report = 3%nat
    ∧ skipped_files report = 0%nat
    ∧ "/docs/big.txt" ∉ invoked.
Proof.
  destruct (C2_oversized_file_is_failed Demo.env default_settings "/docs" "wd"
              None true Demo.all_enabled None []
              [["/"; "docs"; "a.txt"]; ["/"; "docs"; "b.md"];
               ["/"; "docs"; "big.txt"]])
    as (report & invoked & Hrun & Htotal & Hskip & Hbig & _).
  - vm_compute; reflexivity.
  - vm_compute; reflexivity.
  - exists report, invoked. repeat split; try done.
    apply (Hbig ["/"; "docs"; "big.txt"] 104857601).
    + vm_compute. do 2 right. by left.
    + vm_compute; reflexivity.
    + vm_compute; reflexivity.
Defined.

(** C2 as stated fails: of the three files of [/docs], the one over the
    limit is counted as failed, and none is counted as skipped. *)
Lemma C2_oversized_file_is_not_skipped :
  let report :=
    {| report_status := "completed";
       total_files := 3; processed_files := 2;
       failed_files := 1; skipped_files := 0;
       errors := [FileError "/docs/big.txt"
                    "File too large: 100.00MB (max: 100MB)"];
       working_directory := Some "wd" |} in
  DocumentProcessor.process_directory Demo.env default_settings "/docs" "wd"
    None true Demo.all_enabled None []
  = (Return report, [Ingest "/docs/a.txt"; Ingest "/docs/b.md"])
  ∧ ¬ (failed_files report = 0%nat ∧ skipped_files report = 1%nat).
Proof. split; [vm_compute; reflexivity|]. by intros [? _]. Qed.


(** ** The query cache *)

Section Queries.
Variable env : Env.

Lemma cache_key_inj mode1 text1 mode2 text2 :
  mode1 ∈ QueryService.VALID_MODES → mode2 ∈ QueryService.VALID_MODES →
  QueryService.cache_key mode1 text1 = QueryService.cache_key mode2 text2 →
  mode1 = mode2 ∧ text1 = text2.
Proof.
  unfold QueryService.VALID_MODES. intros H1 H2 Hkey.
  repeat (apply elem_of_cons in H1 as [->|H1]);
    [| | | | | |by apply elem_of_nil in H1].
  all: repeat (apply elem_of_cons in H2 as [->|H2]);
    [| | | | | |by apply elem_of_nil in H2].
  all: cbv in Hkey; by simplify_eq.
Qed.

Lemma validate_mode_valid {S} mode (s : S) :
  mode ∈ QueryService.VALID_MODES →
  QueryService._validate_mode mode s = (Return tt, s).
Proof.
  intros Hmode. unfold QueryService._validate_mode.
  by rewrite decide_True by done.
Qed.

Lemma validate_mode_invalid {S} mode (s : S) :
  mode ∉ QueryService.VALID_MODES →
  QueryService._validate_mode mode s
  = (Raise (QueryService.invalid_mode mode), s).
Proof.
  intros Hmode. unfold QueryService._validate_mode.
  by rewrite decide_False by done.
Qed.


Lemma query_hit q c text mode log cached :
  mode ∈ QueryService.VALID_MODES →
  QueryService._cache q = Some c →
  c !! QueryService.cache_key mode text = Some cached →
  QueryService.query env text mode (q, log) = (Return cached, (q, log)).
Proof.
  intros Hmode Hc Hhit. unfold QueryService.query. unfold_monad.
  rewrite validate_mode_valid by done. simpl. rewrite Hc. simpl.
  by rewrite Hhit.
Qed.

Lemma query_miss q c text mode log :
  mode ∈ QueryService.VALID_MODES →
  QueryService._cache q = Some c →
  c !! QueryService.cache_key mode text = None →
  QueryService.query env text mode (q, log)
  = match answer env log text mode with
    | Replied a =>
        (Return (built q text mode a),
         ({| QueryService.working_dir := QueryService.working_dir q;
             QueryService._cache :=
               Some (<[QueryService.cache_key mode text
                       := built q text mode a]> c) |},
          log ++ [AnswerQuery mode text]))
    | Failed e => (Raise e, (q, log ++ [AnswerQuery mode text]))
    end.
Proof.
  intros Hmode Hc Hmiss. unfold QueryService.query. unfold_monad.
  rewrite validate_mode_valid by done. simpl. rewrite Hc. simpl.
  rewrite Hmiss. unfold QueryService.log_event, QueryService.store.
  unfold_monad. simpl.
  destruct (answer env log text mode); [|done]. simpl. by rewrite Hc.
Qed.

Lemma query_uncached q text mode log :
  mode ∈ QueryService.VALID_MODES →
  QueryService._cache q = None →
  QueryService.query env text mode (q, log)
  = (match answer env log text mode with
     | Replied a => Return (built q text mode a)
     | Failed e => Raise e
     end, (q, log ++ [AnswerQuery mode text])).
Proof.
  intros Hmode Hc. unfold QueryService.query. unfold_monad.
  rewrite validate_mode_valid by done. simpl. rewrite Hc. simpl.
  unfold QueryService.log_event, QueryService.store.
  unfold_monad. simpl.
  destruct (answer env log text mode); [|done]. simpl. rewrite Hc.
  by destruct q; simplify_eq/=.
Qed.

(** C5, as amended: for a query service built with the cache enabled,
    a text and a valid mode, a first miss computes the result, stores it
    under the key of (mode, text) and returns it, the keys of distinct
    (mode, text) pairs being distinct; and a second query with the same
    (mode, text) returns the payload the first one returned, leaving the
    cache and the log of backend invocations as they were. *)
Theorem C5_cached_query_is_replayed q c text mode log :
  QueryService._cache q = Some c →
  mode ∈ QueryService.VALID_MODES →
  (c !! QueryService.cache_key mode text = None →
   ∀ a, answer env log text mode = Replied a →
     QueryService.query env text mode (q, log)
     = (Return (built q text mode a),
        ({| QueryService.working_dir := QueryService.working_dir q;
            QueryService._cache :=
              Some (<[QueryService.cache_key mode text
                      := built q text mode a]> c) |},
         log ++ [AnswerQuery mode text])))
  ∧ (∀ first s1,
       QueryService.query env text mode (q, log) = (Return first, s1) →
       QueryService.query env text mode s1 = (Return first, s1))
  ∧ (∀ mode' text',
       mode' ∈ QueryService.VALID_MODES →
       QueryService.cache_key mode' text' = QueryService.cache_key mode text →
       mode' = mode ∧ text' = text).
Proof.
  intros Hc Hmode. split; [|split].
  - intros Hmiss a Ha. rewrite (query_miss q c) by done. by rewrite Ha.
  - intros first s1.
    destruct (c !! QueryService.cache_key mode text) as [cached|] eqn:Hlook.
    + rewrite (query_hit q c _ _ _ cached) by done.
      intros [= <- <-]. by apply (query_hit q c).
    + rewrite (query_miss q c) by done.
      destruct (answer env log text mode) as [a|]; [|done].
      intros [= <- <-]. eapply query_hit; [done|done|].
      apply lookup_insert_eq.
  - intros mode' text' Hmode'. by apply cache_key_inj.
Qed.

(** C10: a query service built while [ENABLE_CACHE] is false has no
    cache; every query with a valid mode then runs the backend block
    (one more invocation is logged by every call, also by a repeated
    one), its outcome is what the backend answers now, and the service
    is left without a cache. *)
Theorem C10_disabled_cache_always_executes settings working_dir :
  ENABLE_CACHE settings = false →
  QueryService._cache (QueryService.init settings working_dir) = None
  ∧ ∀ q text mode log,
      QueryService._cache q = None →
      mode ∈ QueryService.VALID_MODES →
      QueryService.query env text mode (q, log)
      = (match answer env log text mode with
         | Replied a => Return (built q text mode a)
         | Failed e => Raise e
         end, (q, log ++ [AnswerQuery mode text])).
Proof.
  intros Hoff. split.
  - unfold QueryService.init. by rewrite Hoff.
  - intros q text mode log Hc Hmode. by apply query_uncached.
Qed.

End Queries.

(** C5 with a backend whose answers change from call to call: the second
    query replays the answer of the first. *)
Lemma C5_cached_query_is_replayed_witness :
  let q := QueryService.init default_settings "wd" in
  let first :=
    {| qr_query := "what is X"; qr_mode := "hybrid";
       qr_multimodal_items := None;
       qr_response := "answer 0 to: what is X";
       qr_sources := [];
       qr_multimodal_analysis := None;
       qr_working_dir := "wd"; qr_total_sources := 1;
       qr_processing_time_ms := 1 |} in
  let s1 :=
    ({| QueryService.working_dir := "wd";
        QueryService._cache := Some (<["hybrid:what is X" := first]> ∅) |},
     [AnswerQuery "hybrid" "what is X"]) in
  QueryService.query Demo.numbered_env "what is X" "hybrid" (q, [])
    = (Return first, s1)
  ∧ QueryService.query Demo.numbered_env "what is X" "hybrid" s1
    = (Return first, s1).
Proof.
  intros q first s1.
  assert (QueryService.query Demo.numbered_env "what is X" "hybrid" (q, [])
          = (Return first, s1)) as Hfirst by (vm_compute; reflexivity).
  split; [exact Hfirst|].
  apply (C5_cached_query_is_replayed Demo.numbered_env q ∅ "what is X"
           "hybrid" []); [reflexivity| |exact Hfirst].
  vm_compute. by left.
Defined.

(** C5 as stated fails on an instance built with [ENABLE_CACHE] off: the
    second identical query runs the backend block again. *)
Lemma C5_uncached_query_is_executed_again :
  let q := QueryService.init Demo.no_cache_settings "wd" in
  let result :=
    {| qr_query := "what is X"; qr_mode := "hybrid";
       qr_multimodal_items := None;
       qr_response := "Placeholder response for query: what is X";
       qr_sources := placeholder_sources;
       qr_multimodal_analysis := None;
       qr_working_dir := "wd"; qr_total_sources := 1;
       qr_processing_time_ms := 150 |} in
  QueryService.query Demo.env "what is X" "hybrid" (q, [])
    = (Return result, (q, [AnswerQuery "hybrid" "what is X"]))
  ∧ QueryService.query Demo.env "what is X" "hybrid"
      (q, [AnswerQuery "hybrid" "what is X"])
    = (Return result,
       (q, [AnswerQuery "hybrid" "what is X"; AnswerQuery "hybrid" "what is X"])).
Proof. split; vm_compute; reflexivity. Qed.

(** C10 on settings with [ENABLE_CACHE] off. *)
Lemma C10_disabled_cache_always_executes_witness :
  QueryService._cache (QueryService.init Demo.no_cache_settings "wd") = None.
Proof.
  apply (C10_disabled_cache_always_executes Demo.env Demo.no_cache_settings
           "wd").
  reflexivity.
Defined.

(** ** The registry *)

Lemma instance_at_update_eq l f w :
  RAGManager.instance_at (RAGManager.update_instance l f w).2 l
  = f (RAGManager.instance_at w l).
Proof. unfold RAGManager.instance_at. simpl. apply lookup_total_insert_eq. Qed.

Lemma instance_at_update_ne' l l' f w :
  l ≠ l' →
  RAGManager.instance_at (RAGManager.update_instance l f w).2 l'
  = RAGManager.instance_at w l'.
Proof.
  intros. unfold RAGManager.instance_at. simpl.
  by apply lookup_total_insert_ne.
Qed.

Lemma ends_with_log {A} (m : M (list Event) A) : ends m → ends (RAGManager.with_log m).
Proof.
  intros Hm w. unfold RAGManager.with_log. specialize (Hm (RAGManager.log w)).
  by destruct (m (RAGManager.log w)).
Qed.


Section Registry.
Import RAGManager.
Variable env : Env.
Variable settings : Settings.

Lemma new_instance_returns now dir_path api_key working_dir :
  new_instance env settings now dir_path api_key working_dir ≠ Hang.
Proof.
  unfold new_instance, DocumentProcessor.init.
  destruct (mkdir env _); [done|]. by destruct (decide _).
Qed.

Lemma get_or_create_instance_hit now directory_path api_key working_dir w l :
  _instances w !! resolve env directory_path = Some l →
  get_or_create_instance env settings now directory_path api_key working_dir w
  = (Return l, (touch now l w).2).
Proof.
  intros Hl. unfold get_or_create_instance. unfold_monad. simpl.
  by rewrite Hl.
Qed.

Lemma get_or_create_instance_miss now directory_path api_key working_dir w :
  _instances w !! resolve env directory_path = None →
  get_or_create_instance env settings now directory_path api_key working_dir w
  = match new_instance env settings now (resolve env directory_path) api_key
            (truthy_path working_dir) with
    | Return i => register (resolve env directory_path) i w
    | Raise e => (Raise e, w)
    | Hang => (Hang, w)
    end.
Proof.
  intros Hl. unfold get_or_create_instance. unfold_monad. simpl.
  rewrite Hl. by destruct (new_instance _ _ _ _ _ _).
Qed.

(** The finally clause of [process_directory]. *)
Lemma process_directory_run_releases l directory_path kwargs w o w' :
  process_directory_run env settings l directory_path kwargs w = (o, w') →
  o ≠ Hang →
  is_processing (instance_at w' l) = false.
Proof.
  unfold process_directory_run, try_finally. unfold_monad.
  destruct (call_processor env settings l directory_path kwargs w)
    as [[report|e|] w1]; simpl.
  - intros [= <- <-] _. unfold instance_at. simpl.
    by rewrite lookup_total_insert_eq.
  - intros [= <- <-] _. unfold instance_at. simpl.
    by rewrite lookup_total_insert_eq.
  - by intros [= <- <-].
Qed.

Lemma process_directory_admit_takes_flag now directory_path api_key kwargs
    w l w1 :
  process_directory_admit env settings now directory_path api_key kwargs w
    = (Return l, w1) →
  is_processing (instance_at w1 l) = true.
Proof.
  unfold process_directory_admit. unfold_monad.
  destruct (get_or_create_instance _ _ _ _ _ _ _) as [[l0|e|] w0]; try done.
  simpl. destruct (is_processing (instance_at w0 l0)); [done|].
  intros [= <- <-]. unfold instance_at. simpl.
  by rewrite lookup_total_insert_eq.
Qed.

(** With a positive [RAG_MAX_WORKERS] (no instance is built otherwise)
    the ingestion of an admitted call always comes back. *)
Lemma ends_process_directory_run l directory_path kwargs :
  0 < RAG_MAX_WORKERS settings →
  ends (process_directory_run env settings l directory_path kwargs).
Proof.
  intros Hpos. unfold process_directory_run.
  apply ends_try_finally; [|apply ends_modify].
  apply ends_bind.
  - unfold call_processor.
    destruct (kw_working_dir kwargs); [apply ends_raise|].
    destruct (kw_unexpected kwargs); [apply ends_raise|].
    apply ends_bind; [apply ends_get|]. intros w.
    by apply ends_with_log, ends_document_processor_process_directory.
  - intros report. apply ends_bind; [apply ends_modify|].
    intros _. apply ends_ret.
Qed.

(** A call on a directory whose instance is processing is refused
    before anything but the access time has changed. *)
Lemma process_directory_busy now directory_path api_key kwargs w l :
  _instances w !! resolve env directory_path = Some l →
  is_processing (instance_at w l) = true →
  process_directory env settings now directory_path api_key kwargs w
  = (Raise (already_processing directory_path), (touch now l w).2).
Proof.
  intros Hl Hbusy.
  unfold process_directory, process_directory_admit. unfold_monad.
  rewrite (get_or_create_instance_hit _ _ _ _ _ l) by done. simpl.
  unfold instance_at at 1. simpl. rewrite lookup_total_insert_eq. simpl.
  fold (instance_at w l). by rewrite Hbusy.
Qed.

(** C1: a call of [process_directory] on a directory whose instance is
    processing fails with the already-processing error, ingests nothing
    (the log of backend invocations, the registry and the flags of the
    instance stay as they were; only the access time moves); and a call
    that is admitted holds the flag while it runs and has cleared it when
    it returns, with a report or with an exception, whatever happened to
    the world while it was suspended; and it does return when
    [RAG_MAX_WORKERS] is positive. *)
Theorem C1_single_flight now directory_path api_key kwargs w :
  (∀ l,
     _instances w !! resolve env directory_path = Some l →
     is_processing (instance_at w l) = true →
     ∃ w',
       process_directory env settings now directory_path api_key kwargs w
       = (Raise (already_processing directory_path), w')
       ∧ log w' = log w
       ∧ _instances w' = _instances w
       ∧ instance_at w' l = set_last_accessed now (instance_at w l))
  ∧ (∀ l w1,
       process_directory_admit env settings now directory_path api_key
         kwargs w = (Return l, w1) →
       is_processing (instance_at w1 l) = true
       ∧ (∀ w2 o w3,
            process_directory_run env settings l directory_path kwargs w2
              = (o, w3) →
            o ≠ Hang → is_processing (instance_at w3 l) = false)
       ∧ (0 < RAG_MAX_WORKERS settings →
          ∀ w2,
            (process_directory_run env settings l directory_path kwargs w2).1
            ≠ Hang)
       ∧ (∀ o w',
            process_directory env settings now directory_path api_key
              kwargs w = (o, w') →
            o ≠ Hang → is_processing (instance_at w' l) = false)).
Proof.
  split.
  - intros l Hl Hbusy. exists (touch now l w).2.
    split; [by apply process_directory_busy|].
    split; [done|]. split; [done|]. apply instance_at_update_eq.
  - intros l w1 Hadmit. split; [|split; [|split]].
    + by eapply process_directory_admit_takes_flag.
    + intros w2 o w3. apply process_directory_run_releases.
    + intros Hpos w2. by apply ends_process_directory_run.
    + intros o w'. unfold process_directory. unfold_monad.
      rewrite Hadmit. apply process_directory_run_releases.
Qed.

End Registry.

(** ** What every call respects *)

Section Preservation.
Import RAGManager.
Context (R : relation World) `{!PreOrder R}.

Lemma preserves_ret {A} (a : A) (Q : A → Prop) :
  Q a → preserves R (mret a : M World A) Q.
Proof. intros HQ w. split; [done|]. by intros ? [= <-]. Qed.

Lemma preserves_raise {A} (e : PyExc) (Q : A → Prop) :
  preserves R (raise e : M World A) Q.
Proof. intros w. by split. Qed.

Lemma preserves_get : preserves R (get : M World World) (λ _, True).
Proof. intros w. by split. Qed.

Lemma preserves_outcome {A} (o : Outcome A) (Q : A → Prop) :
  (∀ a, o = Return a → Q a) → preserves R (λ w, (o, w)) Q.
Proof. intros HQ w. by split. Qed.

Lemma preserves_weaken {A} (m : M World A) (Q Q' : A → Prop) :
  preserves R m Q → (∀ a, Q a → Q' a) → preserves R m Q'.
Proof. intros Hm HQ w. destruct (Hm w). split; auto. Qed.

Lemma preserves_bind {A B} (m : M World A) (k : A → M World B)
    (Q : A → Prop) (Q' : B → Prop) :
  preserves R m Q → (∀ a, Q a → preserves R (k a) Q') →
  preserves R (m ≫= k) Q'.
Proof.
  intros Hm Hk w. unfold_monad. destruct (Hm w) as [HR HQ].
  destruct (m w) as [[a|e|] w1]; simpl in *; try done.
  destruct (Hk a (HQ a eq_refl) w1) as [HR' HQ'].
  split; [by etrans|done].
Qed.

Lemma preserves_try_finally {A} (body : M World A) (fin : M World unit)
    (Q : A → Prop) :
  preserves R body Q → preserves R fin (λ _, True) →
  preserves R (try_finally body fin) Q.
Proof.
  intros Hbody Hfin w. unfold try_finally.
  destruct (Hbody w) as [HR HQ].
  destruct (body w) as [[a|e|] w1]; simpl in *; [| |done].
  - destruct (Hfin w1) as [HR' _].
    destruct (fin w1) as [[[]|e'|] w2]; simpl in *;
      (split; [by etrans|done]).
  - destruct (Hfin w1) as [HR' _].
    destruct (fin w1) as [[[]|e'|] w2]; simpl in *;
      (split; [by etrans|done]).
Qed.

Context `{!Stable R}.

Lemma preserves_update l f :
  benign f → preserves R (update_instance l f) (λ _, True).
Proof. intros Hf w. split; [by apply stable_update|done]. Qed.

Lemma preserves_touch now l : preserves R (touch now l) (λ _, True).
Proof. apply preserves_update. by intros i. Qed.

Lemma preserves_register key i :
  directory_path i = key → preserves R (register key i) (λ _, True).
Proof. intros Hi w. split; [by apply stable_register|done]. Qed.

Lemma preserves_with_log {A} (m : M (list Event) A) :
  preserves R (with_log m) (λ _, True).
Proof.
  intros w. unfold with_log. destruct (m (log w)) as [o log'].
  split; [apply stable_log|done].
Qed.

Lemma preserves_with_query_service {A} l (m : M QueryService.State A) :
  preserves R (with_query_service l m) (λ _, True).
Proof.
  intros w. unfold with_query_service.
  destruct (m _) as [o [q' log']]. split; [|done]. simpl.
  etrans; [apply (stable_update l (set_query_service q')); by intros i|].
  exact (stable_log (update_instance l (set_query_service q') w).2 log').
Qed.

Section Calls.
Variable env : Env.
Variable settings : Settings.

Lemma new_instance_directory_path now dir_path api_key working_dir i :
  new_instance env settings now dir_path api_key working_dir = Return i →
  directory_path i = dir_path.
Proof.
  unfold new_instance. destruct (mkdir env _); [done|].
  destruct (DocumentProcessor.init settings); [|done..].
  by intros [= <-].
Qed.

Lemma preserves_get_or_create_instance now directory_path api_key
    working_dir :
  preserves R (get_or_create_instance env settings now directory_path
                 api_key working_dir) (λ _, True).
Proof.
  unfold get_or_create_instance.
  eapply preserves_bind; [apply preserves_get|]. intros w _.
  destruct (_instances w !! resolve env directory_path) as [l|].
  - eapply preserves_bind; [apply preserves_touch|]. intros _ _.
    by apply preserves_ret.
  - eapply preserves_bind.
    + apply (preserves_outcome _
               (λ i, RAGManager.directory_path i
                     = resolve env directory_path)).
      apply new_instance_directory_path.
    + intros i Hi. by apply preserves_register.
Qed.

Lemma preserves_call_processor l directory_path kwargs :
  preserves R (call_processor env settings l directory_path kwargs)
    (λ _, True).
Proof.
  unfold call_processor.
  destruct (kw_working_dir kwargs); [apply preserves_raise|].
  destruct (kw_unexpected kwargs); [apply preserves_raise|].
  eapply preserves_bind; [apply preserves_get|]. intros w _.
  apply preserves_with_log.
Qed.

Lemma preserves_process_directory_admit now directory_path api_key kwargs :
  preserves R (process_directory_admit env settings now directory_path
                 api_key kwargs) (λ _, True).
Proof.
  unfold process_directory_admit.
  eapply preserves_bind; [apply preserves_get_or_create_instance|].
  intros l _. eapply preserves_bind; [apply preserves_get|]. intros w _.
  destruct (is_processing (instance_at w l)); [apply preserves_raise|].
  eapply preserves_bind; [apply preserves_update; by intros i|].
  intros _ _. by apply preserves_ret.
Qed.

Lemma preserves_process_directory_run l directory_path kwargs :
  preserves R (process_directory_run env settings l directory_path kwargs)
    (λ _, True).
Proof.
  unfold process_directory_run. apply preserves_try_finally.
  - eapply preserves_bind; [apply preserves_call_processor|].
    intros report _.
    eapply preserves_bind; [apply preserves_update; by intros i|].
    intros _ _. by apply preserves_ret.
  - apply preserves_update. by intros i.
Qed.

Lemma preserves_process_single_document now file_path api_key kwargs :
  preserves R (process_single_document env settings now file_path api_key
                 kwargs) (λ _, True).
Proof.
  unfold process_single_document.
  eapply preserves_bind; [apply preserves_get_or_create_instance|].
  intros l _.
  destruct (dk_working_dir kwargs); [apply preserves_raise|].
  destruct (dk_unexpected kwargs); [apply preserves_raise|].
  apply preserves_with_log.
Qed.

Lemma preserves_lookup_instance now directory_path :
  preserves R (lookup_instance env now directory_path) (λ _, True).
Proof.
  unfold lookup_instance.
  eapply preserves_bind; [apply preserves_get|]. intros w _.
  destruct (_instances w !! resolve env directory_path) as [l|];
    [|apply preserves_raise].
  eapply preserves_bind; [apply preserves_touch|]. intros _ _.
  by apply preserves_ret.
Qed.

Lemma preserves_query_directory now directory_path query mode :
  preserves R (query_directory env now directory_path query mode)
    (λ _, True).
Proof.
  unfold query_directory.
  eapply preserves_bind; [apply preserves_lookup_instance|]. intros l _.
  eapply preserves_bind; [apply preserves_get|]. intros w _.
  destruct (is_initialized (instance_at w l)); [|apply preserves_raise].
  apply preserves_with_query_service.
Qed.

Lemma preserves_query_with_multimodal now directory_path query content
    mode :
  preserves R (query_with_multimodal env now directory_path query content
                 mode) (λ _, True).
Proof.
  unfold query_with_multimodal.
  eapply preserves_bind; [apply preserves_lookup_instance|]. intros l _.
  apply preserves_with_query_service.
Qed.

(** Every call moves the world along a stable relation. *)
Lemma after_stable c w : R w (after env settings c w).
Proof.
  destruct c; simpl.
  - apply preserves_get_or_create_instance.
  - apply preserves_process_directory_admit.
  - apply preserves_process_directory_run.
  - apply preserves_process_single_document.
  - apply preserves_query_directory.
  - apply preserves_query_with_multimodal.
  - done.
  - done.
  - apply (stable_drop w). apply map_filter_subseteq.
  - apply (stable_drop w). apply map_empty_subseteq.
Qed.

End Calls.

End Preservation.

#[global] Instance keeps_registry_ok_preorder : PreOrder keeps_registry_ok.
Proof.
  split; unfold keeps_registry_ok.
  - by intros w.
  - intros w1 w2 w3 H12 H23 H1. auto.
Qed.

#[global] Instance keeps_initialized_preorder : PreOrder keeps_initialized.
Proof.
  split; unfold keeps_initialized.
  - by intros w.
  - intros w1 w2 w3 H12 H23 l Hl. auto.
Qed.

#[global] Instance keeps_registry_ok_stable : Stable keeps_registry_ok.
Proof.
  split.
  - intros l f w Hf Hok k l0 Hk. simpl in Hk.
    destruct (Hok k l0 Hk) as [Hdom Hpath]. split.
    + simpl. rewrite dom_insert. set_solver.
    + destruct (decide (l = l0)) as [<-|Hne].
      * rewrite instance_at_update_eq. by rewrite (proj1 (Hf _)).
      * by rewrite instance_at_update_ne'.
  - intros key i w Hi Hok k l0. simpl.
    pose proof (is_fresh (dom (RAGManager.objects w))) as Hfresh.
    destruct (decide (key = k)) as [<-|Hne].
    + rewrite lookup_insert_eq. intros [= <-]. split.
      * rewrite dom_insert. set_solver.
      * unfold RAGManager.instance_at. simpl.
        by rewrite lookup_total_insert_eq.
    + rewrite lookup_insert_ne by done. intros Hk.
      destruct (Hok k l0 Hk) as [Hdom Hpath]. split.
      * rewrite dom_insert. set_solver.
      * unfold RAGManager.instance_at. simpl.
        rewrite lookup_total_insert_ne; [done|]. by intros <-.
  - intros w log' Hok k l Hk. by apply Hok.
  - intros w kept Hsub Hok k l Hk. apply Hok.
    by eapply lookup_weaken.
Qed.

#[global] Instance keeps_initialized_stable : Stable keeps_initialized.
Proof.
  split.
  - intros l f w Hf l0 Hl0.
    destruct (decide (l = l0)) as [<-|Hne].
    + rewrite instance_at_update_eq. by apply Hf.
    + by rewrite instance_at_update_ne'.
  - intros key i w Hi l0. unfold RAGManager.instance_at. simpl.
    pose proof (is_fresh (dom (RAGManager.objects w))) as Hfresh.
    destruct (decide (fresh (dom (RAGManager.objects w)) = l0)) as [<-|Hne].
    + rewrite (lookup_total_alt (RAGManager.objects w)).
      apply not_elem_of_dom in Hfresh. by rewrite Hfresh.
    + by rewrite lookup_total_insert_ne.
  - by intros w log' l Hl.
  - by intros w kept _ l Hl.
Qed.

(** ** Initialisation and the registry *)

Section Lifecycle.
Import RAGManager.
Variable env : Env.
Variable settings : Settings.



(** C4: two spellings with the same canonical path get the same
    instance object, the second call finding what the first one left in
    the registry (which it does not change); and in every world the
    manager can reach, the instance registered under a key has that key
    as its canonical path, so that no instance is registered under two
    keys and no canonical path has two registered instances. *)
Theorem C4_one_instance_per_canonical_path now1 now2 path1 path2
    api_key1 api_key2 working_dir1 working_dir2 w l w1 :
  resolve env path1 = resolve env path2 →
  get_or_create_instance env settings now1 path1 api_key1 working_dir1 w
    = (Return l, w1) →
  _instances w1 !! resolve env path1 = Some l
  ∧ (∃ w2,
       get_or_create_instance env settings now2 path2 api_key2 working_dir2
         w1 = (Return l, w2)
       ∧ _instances w2 = _instances w1)
  ∧ (∀ w', reachable env settings w' →
       (∀ k l', _instances w' !! k = Some l' →
          directory_path (instance_at w' l') = k)
       ∧ (∀ k k' l', _instances w' !! k = Some l' →
            _instances w' !! k' = Some l' → k = k')).
Proof.
  intros Hsame Hfirst.
  assert (_instances w1 !! resolve env path1 = Some l) as Hreg.
  { destruct (_instances w !! resolve env path1) as [l0|] eqn:Hlook.
    - rewrite (get_or_create_instance_hit _ _ _ _ _ _ _ l0) in Hfirst by done.
      by injection Hfirst as <- <-.
    - rewrite get_or_create_instance_miss in Hfirst by done.
      destruct (new_instance _ _ _ _ _ _) as [i|e|]; [|done..].
      unfold register in Hfirst. injection Hfirst as <- <-. simpl.
      apply lookup_insert_eq. }
  split; [done|]. split.
  - exists (touch now2 l w1).2. split; [|done].
    apply get_or_create_instance_hit. by rewrite <-Hsame.
  - intros w' Hreach.
    assert (registry_ok w') as Hok.
    { induction Hreach as [|c w0 _ IH].
      - intros k l' Hk. simpl in Hk. by rewrite lookup_empty in Hk.
      - by apply (after_stable keeps_registry_ok). }
    split.
    + intros k l' Hk. by apply Hok.
    + intros k k' l' Hk Hk'.
      destruct (Hok k l' Hk) as [_ <-]. by destruct (Hok k' l' Hk') as [_ <-].
Qed.

(** The multimodal query does not look at [is_initialized]: once the
    instance is found, the query service is called. *)
Lemma query_with_multimodal_found now directory_path query content mode
    w l :
  _instances w !! resolve env directory_path = Some l →
  query_with_multimodal env now directory_path query content mode w
  = with_query_service l
      (QueryService.query_with_multimodal env query content mode)
      (touch now l w).2.
Proof.
  intros Hl. unfold query_with_multimodal, lookup_instance. unfold_monad.
  simpl. by rewrite Hl.
Qed.

Lemma query_directory_not_initialized now directory_path query mode w l :
  _instances w !! resolve env directory_path = Some l →
  is_initialized (instance_at w l) = false →
  query_directory env now directory_path query mode w
  = (Raise (not_initialized directory_path), (touch now l w).2).
Proof.
  intros Hl Hinit. unfold query_directory, lookup_instance. unfold_monad.
  simpl. rewrite Hl. simpl. unfold instance_at at 1. simpl.
  rewrite lookup_total_insert_eq. simpl. fold (instance_at w l).
  by rewrite Hinit.
Qed.

Lemma lookup_instance_missing now directory_path w :
  _instances w !! resolve env directory_path = None →
  lookup_instance env now directory_path w
  = (Raise (not_processed directory_path), w).
Proof.
  intros Hl. unfold lookup_instance. unfold_monad. simpl. by rewrite Hl.
Qed.

End Lifecycle.

Lemma pair_from_fst {A B} (p : A * B) (a : A) : p.1 = a → p = (a, p.2).
Proof. intros <-. by destruct p. Qed.



(** C4 on the spellings [/a/b] and [/a/./b]. *)
Lemma C4_one_instance_per_canonical_path_witness :
  let w1 := (RAGManager.get_or_create_instance Demo.env default_settings 1
               "/a/b" "key" None RAGManager.empty_world).2 in
  RAGManager._instances w1 !! "/a/b" = Some 0%nat
  ∧ (RAGManager.get_or_create_instance Demo.env default_settings 2
       "/a/./b" "key" None w1).1 = Return 0%nat.
Proof.
  intros w1.
  destruct (C4_one_instance_per_canonical_path Demo.env default_settings
              1 2 "/a/b" "/a/./b" "key" "key" None None
              RAGManager.empty_world 0%nat w1)
    as (Hreg & (w2 & Hsecond & _) & _).
  - vm_compute; reflexivity.
  - apply pair_from_fst. vm_compute; reflexivity.
  - split; [exact Hreg|]. by rewrite Hsecond.
Defined.

(** C1 on [/docs]: while an admitted call holds the flag, a second call
    is refused. *)
Lemma C1_single_flight_witness :
  let w1 := (RAGManager.process_directory_admit Demo.env default_settings 5
               "/docs" "key" Demo.no_kwargs RAGManager.empty_world).2 in
  (RAGManager.process_directory Demo.env default_settings 6 "/docs" "key"
     Demo.no_kwargs w1).1
  = Raise (RAGManager.already_processing "/docs")
  ∧ RAGManager.is_processing (RAGManager.instance_at w1 0%nat) = true.
Proof.
  intros w1.
  destruct (C1_single_flight Demo.env default_settings 6 "/docs" "key"
              Demo.no_kwargs w1) as [Hreject _].
  destruct (Hreject 0%nat) as (w' & Hrun & _).
  - vm_compute; reflexivity.
  - vm_compute; reflexivity.
  - rewrite Hrun. split; [done|]. vm_compute; reflexivity.
Defined.

(** C7 at the failing input: after a call of [process_directory] that
    raised, [/docs] has an instance that never completed an ingestion;
    [query_directory] refuses it, [query_with_multimodal] answers. *)
Theorem C7_multimodal_query_on_uninitialized_instance :
  let w := (RAGManager.process_directory Demo.env default_settings 5
              "/docs" "key" Demo.tool_kwargs RAGManager.empty_world).2 in
  RAGManager.is_initialized (RAGManager.instance_at w 0%nat) = false
  ∧ (RAGManager.query_directory Demo.env 6 "/docs" "q" "hybrid" w).1
    = Raise (RAGManager.not_initialized "/docs")
  ∧ (RAGManager.query_with_multimodal Demo.env 6 "/docs" "q" [] "hybrid" w).1
    = Return {| qr_query := "q"; qr_mode := "hybrid";
                qr_multimodal_items := Some 0%nat;
                qr_response := "Placeholder multimodal response for: q";
                qr_sources := placeholder_sources;
                qr_multimodal_analysis := Some
                  {| tables_processed := 0; equations_processed := 0;
                     images_processed := 0 |};
                qr_working_dir := "rag_storage/docs";
                qr_total_sources := 1;
                qr_processing_time_ms := 250 |}.
Proof. repeat split; vm_compute; reflexivity. Qed.

(** ** The tools *)

Section Tools.
Import RAGManager Tools.
Variable env : Env.
Variable settings : Settings.




Lemma ends_get_or_create_instance now directory_path api_key working_dir :
  ends (get_or_create_instance env settings now directory_path api_key
          working_dir).
Proof.
  unfold get_or_create_instance.
  apply ends_bind; [apply ends_get|]. intros w.
  destruct (_instances w !! _) as [l|].
  - apply ends_bind; [apply ends_modify|]. intros _. apply ends_ret.
  - apply ends_bind; [apply ends_outcome, new_instance_returns|].
    by intros i s.
Qed.




Lemma call_tool_of_raise now c w e w' :
  handler env settings now c w = (Raise e, w') →
  call_tool env settings now c w
  = (Return (ToolFailure (str_exc e) (error_type_of e)), w').
Proof. intros H. unfold call_tool, handle_errors. by rewrite H. Qed.


End Tools.




(** * Further properties *)

(** ** Single documents and batches *)

Section MoreIngestion.
Variable env : Env.
Variable settings : Settings.


(** X2: a batch that returns has one result per file, in the order of the
    files; the result of a file is what that file alone determines
    (whatever happens to the other files of the batch), and the backend
    has been invoked, in that order, for exactly the files that exist and
    are within the size limit. *)
Theorem X2_batch_results_follow_the_files files working_dir max_workers opts
    log results log' :
  DocumentProcessor._process_files_batch env settings files working_dir
    max_workers opts log = (Return results, log') →
  length results = length files
  ∧ result_path <$> results = path_str <$> files
  ∧ (∀ i file, files !! i = Some file →
       results !! i = Some (batch_result env settings opts (path_str file)))
  ∧ log' = log ++ (Ingest <$> filter (reaches_backend env settings)
                                     (path_str <$> files)).
Proof.
  intros Hrun.
  assert (results = batch_result env settings opts ∘ path_str <$> files
          ∧ log' = log ++ (Ingest <$> filter (reaches_backend env settings)
                                             (path_str <$> files)))
    as [-> ->].
  { destruct (decide (0 < max_workers)) as [Hpos|Hneg].
    - rewrite process_files_batch_spec in Hrun by done. by injection Hrun.
    - destruct files as [|file files].
      + unfold DocumentProcessor._process_files_batch in Hrun.
        destruct (decide (max_workers < 0)); [done|].
        rewrite decide_False in Hrun by (by intros [_ ?]).
        unfold_monad. simpl in Hrun. injection Hrun as <- <-.
        by rewrite app_nil_r.
      + exfalso.
        eapply (process_files_batch_refused env settings (file :: files));
          [|done|exact Hrun]. lia. }
  split; [by rewrite length_fmap|]. split; [|split; [|done]].
  - rewrite <-list_fmap_compose. apply list_fmap_ext.
    intros i file _. simpl. apply batch_result_path.
  - intros i file Hi. rewrite list_lookup_fmap, Hi. done.
Qed.

(** X3: how [process_directory] treats the number of workers.  An empty
    scan returns the all-zero report (without [working_directory])
    whatever the number of workers, and invokes no backend.  On a scan
    that found files, a negative number of workers is refused with a
    [ValueError] before any file is ingested; [max_workers = 0] and an
    empty [file_extensions] are taken as absent. *)
Theorem X3_worker_count_edges directory working_dir file_extensions recursive
    opts max_workers log files :
  DocumentProcessor._find_files env directory
    (DocumentProcessor.or_list file_extensions
       (SUPPORTED_FILE_EXTENSIONS settings)) recursive = Replied files →
  (files = [] →
   DocumentProcessor.process_directory env settings directory working_dir
     file_extensions recursive opts max_workers log
   = (Return {| report_status := "completed"; total_files := 0;
                processed_files := 0; failed_files := 0; skipped_files := 0;
                errors := []; working_directory := None |}, log))
  ∧ (files ≠ [] → workers settings max_workers < 0 →
     DocumentProcessor.process_directory env settings directory working_dir
       file_extensions recursive opts max_workers log
     = (Raise DocumentProcessor.semaphore_negative, log))
  ∧ (∀ extensions,
       DocumentProcessor.process_directory env settings directory working_dir
         extensions recursive opts (Some 0) log
       = DocumentProcessor.process_directory env settings directory
           working_dir extensions recursive opts None log)
  ∧ (∀ workers,
       DocumentProcessor.process_directory env settings directory working_dir
         (Some []) recursive opts workers log
       = DocumentProcessor.process_directory env settings directory
           working_dir None recursive opts workers log).
Proof.
  intros Hscan. split; [|split; [|split]].
  - intros ->. unfold DocumentProcessor.process_directory. unfold_monad.
    by rewrite Hscan.
  - intros Hne Hneg. unfold DocumentProcessor.process_directory. unfold_monad.
    rewrite Hscan. simpl. destruct files as [|file files]; [done|].
    fold (workers settings max_workers).
    unfold DocumentProcessor._process_files_batch.
    by rewrite decide_True by done.
  - done.
  - done.
Qed.

(** X4: when the pattern of some extension is refused by [glob] (the
    patterns of the extensions before it being answered), the scan fails
    with that error, and so does [process_directory], which returns no
    report and invokes no backend. *)
Theorem X4_scan_error_aborts_the_batch directory working_dir recursive opts
    max_workers log before ext after e :
  Forall (λ x, ∃ found,
            glob env directory (DocumentProcessor.pattern recursive +:+ x)
            = Replied found) before →
  glob env directory (DocumentProcessor.pattern recursive +:+ ext) = Failed e →
  DocumentProcessor._find_files env directory (before ++ ext :: after) recursive
    = Failed e
  ∧ DocumentProcessor.process_directory env settings directory working_dir
      (Some (before ++ ext :: after)) recursive opts max_workers log
    = (Raise e, log).
Proof.
  intros Hbefore Hext.
  assert (DocumentProcessor.glob_all env directory
            (DocumentProcessor.pattern recursive) (before ++ ext :: after)
          = Failed e) as Hall.
  { induction Hbefore as [|x before [found Hx] _ IH]; simpl.
    - by rewrite Hext.
    - by rewrite Hx, IH. }
  assert (DocumentProcessor._find_files env directory
            (before ++ ext :: after) recursive = Failed e) as Hscan.
  { unfold DocumentProcessor._find_files. by rewrite Hall. }
  split; [done|].
  unfold DocumentProcessor.process_directory. unfold_monad.
  assert (DocumentProcessor.or_list (Some (before ++ ext :: after))
            (SUPPORTED_FILE_EXTENSIONS settings) = before ++ ext :: after)
    as -> by (by destruct before).
  by rewrite Hscan.
Qed.

End MoreIngestion.


(** ** Queries *)

Section MoreQueries.
Variable env : Env.

(** X5: a query with a mode outside the fixed set is refused with the
    invalid-mode [ValueError] before anything else happens: neither kind
    of query touches the cache or invokes the backend. *)
Theorem X5_invalid_mode_is_refused_first text content mode s :
  mode ∉ QueryService.VALID_MODES →
  QueryService.query env text mode s
    = (Raise (QueryService.invalid_mode mode), s)
  ∧ QueryService.query_with_multimodal env text content mode s
    = (Raise (QueryService.invalid_mode mode), s).
Proof.
  intros Hmode. unfold QueryService.query, QueryService.query_with_multimodal.
  unfold_monad. split; rewrite validate_mode_invalid by done; done.
Qed.

Lemma validate_content_spec content :
  (Forall item_ok content →
   QueryService._validate_multimodal_content content = Replied content)
  ∧ (∀ validated,
       QueryService._validate_multimodal_content content = Replied validated →
       validated = content ∧ Forall item_ok content).
Proof.
  assert (∀ item,
    match QueryService.validate_item item with
    | Replied v => v = item ∧ item_ok item
    | Failed _ => ¬ item_ok item
    end) as Hitem.
  { intros item. unfold QueryService.validate_item, item_ok.
    destruct (item_type item) as [ty|]; [|tauto].
    destruct (decide (ty = "table")) as [->|?];
      [|destruct (decide (ty = "equation")) as [->|?];
         [|destruct (decide (ty = "image")) as [->|?]]];
      repeat match goal with
      | |- context [if ?b then _ else _] => destruct b eqn:?
      end; simpl;
      first [ by (split; [done|repeat split; intros; congruence])
            | (intros (H1 & H2 & H3);
               first [specialize (H1 eq_refl) | specialize (H2 eq_refl)
                     | specialize (H3 eq_refl)]; congruence)
            | tauto ]. }
  induction content as [|item rest [IH1 IH2]]; simpl.
  - split; [done|]. by intros ? [= <-].
  - specialize (Hitem item).
    destruct (QueryService.validate_item item) as [v|e].
    + destruct Hitem as [-> Hok]. split.
      * intros [_ Hrest]%Forall_cons. by rewrite (IH1 Hrest).
      * intros validated.
        destruct (QueryService._validate_multimodal_content rest) as [vs|];
          [|done].
        intros [= <-]. destruct (IH2 vs eq_refl) as [-> Hrest].
        split; [done|]. by constructor.
    + split; [|done]. by intros [? _]%Forall_cons.
Qed.

(** X6: the validation of the multimodal content accepts exactly the
    lists whose items all have a type and the key their type requires
    (an item of an unknown type is accepted), gives the list back
    unchanged, and otherwise fails with the error of the first item that
    is not acceptable. *)
Theorem X6_multimodal_content_validation content :
  (Forall item_ok content ↔
   QueryService._validate_multimodal_content content = Replied content)
  ∧ (∀ validated,
       QueryService._validate_multimodal_content content = Replied validated →
       validated = content)
  ∧ (∀ good bad rest e,
       content = good ++ bad :: rest → Forall item_ok good →
       QueryService.validate_item bad = Failed e →
       QueryService._validate_multimodal_content content = Failed e).
Proof.
  split; [|split].
  - split; [apply validate_content_spec|].
    intros H. by apply (validate_content_spec content) in H as [_ ?].
  - intros validated H. by apply (validate_content_spec content) in H as [? _].
  - intros good bad rest e -> Hgood Hbad.
    induction Hgood as [|item good Hitem _ IH]; simpl.
    + by rewrite Hbad.
    + destruct (validate_content_spec [item]) as [H1 _]. simpl in H1.
      specialize (H1 (proj2 (Forall_singleton _ _) Hitem)).
      destruct (QueryService.validate_item item) as [v|]; [|done].
      injection H1 as ->. by rewrite IH.
Qed.

(** X7: a multimodal query is never served from the cache and never
    stored in it: with a valid mode and acceptable content every call
    invokes the backend (one more invocation is logged, for the number of
    items given) and leaves the query service as it was, also when the
    cache is enabled and the same query is repeated; with content that is
    not acceptable the call raises before the backend is invoked. *)
Theorem X7_multimodal_query_bypasses_the_cache q text content mode log :
  mode ∈ QueryService.VALID_MODES →
  (Forall item_ok content →
   ∃ o,
     QueryService.query_with_multimodal env text content mode (q, log)
     = (o, (q, log ++ [AnswerMultimodal mode text (length content)]))
     ∧ o ≠ Hang)
  ∧ (∀ e,
       QueryService._validate_multimodal_content content = Failed e →
       QueryService.query_with_multimodal env text content mode (q, log)
       = (Raise e, (q, log))).
Proof.
  intros Hmode. split.
  - intros Hok%validate_content_spec.
    unfold QueryService.query_with_multimodal. unfold_monad.
    rewrite validate_mode_valid by done. simpl. rewrite Hok. simpl.
    destruct (answer_multimodal env log text content mode) as [a|e];
      simpl; by eexists.
  - intros e He. unfold QueryService.query_with_multimodal. unfold_monad.
    rewrite validate_mode_valid by done. simpl. by rewrite He.
Qed.

Lemma count_type_disjoint (content : list MultimodalItem) :
  (QueryService.count_type "table" content
   + QueryService.count_type "equation" content
   + QueryService.count_type "image" content ≤ length content)%nat.
Proof.
  unfold QueryService.count_type.
  induction content as [|item rest IH]; simpl; [done|].
  rewrite !filter_cons.
  destruct (item_type item) as [ty|]; repeat case_decide;
    simplify_eq/=; lia.
Qed.

(** X8: in the payload of a multimodal query the three counters of the
    analysis count disjoint items: they never add up to more than
    [multimodal_items], which is the number of items given. *)
Theorem X8_multimodal_counts_are_bounded q text content mode log r s :
  QueryService.query_with_multimodal env text content mode (q, log)
    = (Return r, s) →
  qr_multimodal_items r = Some (length content)
  ∧ ∃ analysis,
      qr_multimodal_analysis r = Some analysis
      ∧ (tables_processed analysis + equations_processed analysis
         + images_processed analysis ≤ length content)%nat.
Proof.
  unfold QueryService.query_with_multimodal. unfold_monad.
  destruct (QueryService._validate_mode mode _) as [[[]|e|] s0];
    simpl; [|done..].
  destruct (QueryService._validate_multimodal_content content)
    as [validated|e] eqn:Hv; simpl; [|done].
  apply validate_content_spec in Hv as [-> _].
  destruct (answer_multimodal env _ text content mode) as [a|e];
    simpl; [|done].
  intros [= <- <-]. simpl. split; [done|]. eexists. split; [done|]. simpl.
  apply count_type_disjoint.
Qed.

(** X9: the entries of the cache stay well-formed: a fresh query service
    has a well-formed cache and a query keeps it so; hence a hit for a
    valid mode and a text returns a payload that was built for that mode,
    that text and the working directory of the service. *)
Theorem X9_cache_entries_match_their_key settings working_dir q text mode log :
  cache_ok (QueryService.init settings working_dir)
  ∧ (cache_ok q → cache_ok (QueryService.query env text mode (q, log)).2.1)
  ∧ (cache_ok q → mode ∈ QueryService.VALID_MODES →
     ∀ c r,
       QueryService._cache q = Some c →
       c !! QueryService.cache_key mode text = Some r →
       qr_query r = text ∧ qr_mode r = mode
       ∧ qr_working_dir r = QueryService.working_dir q).
Proof.
  split; [|split].
  - intros c k r. unfold QueryService.init. simpl.
    destruct (ENABLE_CACHE settings); [|by intros [=]].
    intros [= <-]. by rewrite lookup_empty.
  - intros Hok.
    destruct (decide (mode ∈ QueryService.VALID_MODES)) as [Hmode|Hmode];
      cycle 1.
    { unfold QueryService.query. unfold_monad.
      by rewrite validate_mode_invalid by done. }
    destruct (QueryService._cache q) as [c|] eqn:Hc; cycle 1.
    { by rewrite query_uncached by done. }
    destruct (c !! QueryService.cache_key mode text) as [cached|] eqn:Hlook.
    { by rewrite (query_hit env q c _ _ _ cached) by done. }
    rewrite (query_miss env q c) by done.
    destruct (answer env log text mode) as [a|e]; [|done].
    simpl. intros c' k r [= <-] Hk. simpl.
    destruct (decide (QueryService.cache_key mode text = k)) as [<-|Hne].
    + rewrite lookup_insert_eq in Hk. by injection Hk as <-.
    + rewrite lookup_insert_ne in Hk by done. by eapply Hok.
  - intros Hok Hmode c r Hc Hr.
    destruct (Hok c _ r Hc Hr) as (Hkey & Hvalid & Hwd).
    apply cache_key_inj in Hkey as [-> ->]; done.
Qed.

(** X10: the cache only grows: a query leaves every entry it finds in
    place and unchanged and adds at most one, and it never enables or
    disables the cache or moves the working directory. *)
Theorem X10_cache_only_grows q text mode log :
  let q' := (QueryService.query env text mode (q, log)).2.1 in
  QueryService.working_dir q' = QueryService.working_dir q
  ∧ match QueryService._cache q, QueryService._cache q' with
    | Some c, Some c' => c ⊆ c' ∧ (size c' ≤ S (size c))%nat
    | None, None => True
    | _, _ => False
    end.
Proof.
  destruct (decide (mode ∈ QueryService.VALID_MODES)) as [Hmode|Hmode];
    cycle 1.
  { unfold QueryService.query. unfold_monad.
    rewrite validate_mode_invalid by done. simpl. split; [done|].
    destruct (QueryService._cache q); [|done]. split; [done|lia]. }
  destruct (QueryService._cache q) as [c|] eqn:Hc; cycle 1.
  { rewrite query_uncached by done. simpl. by rewrite Hc. }
  destruct (c !! QueryService.cache_key mode text) as [cached|] eqn:Hlook.
  { rewrite (query_hit env q c _ _ _ cached) by done. simpl. rewrite Hc.
    split; [done|]. split; [done|lia]. }
  rewrite (query_miss env q c) by done.
  destruct (answer env log text mode) as [a|e]; simpl.
  - split; [done|]. split; [by apply insert_subseteq|].
    by rewrite map_size_insert_None.
  - rewrite Hc. split; [done|]. split; [done|lia].
Qed.

End MoreQueries.


(** ** The life of an instance *)

Section MoreLifecycle.
Import RAGManager.
Variable env : Env.
Variable settings : Settings.

Lemma instance_at_fresh w :
  instance_at w (fresh (dom (objects w))) = inhabitant.
Proof.
  unfold instance_at. rewrite lookup_total_alt.
  pose proof (is_fresh (dom (objects w))) as Hfresh.
  apply not_elem_of_dom in Hfresh. by rewrite Hfresh.
Qed.

Lemma instance_at_register key i w l :
  instance_at (register key i w).2 l
  = if decide (l = fresh (dom (objects w))) then i else instance_at w l.
Proof.
  unfold instance_at, register. simpl. destruct (decide _) as [->|Hne].
  - apply lookup_total_insert_eq.
  - by apply lookup_total_insert_ne.
Qed.

Lemma call_processor_world l directory_path kwargs w :
  ∃ log',
    (call_processor env settings l directory_path kwargs w).2
    = {| _instances := _instances w; objects := objects w; log := log' |}.
Proof.
  unfold call_processor.
  destruct (kw_working_dir kwargs); [exists (log w); by destruct w|].
  destruct (kw_unexpected kwargs); [exists (log w); by destruct w|].
  unfold_monad. unfold with_log. simpl.
  destruct (DocumentProcessor.process_directory _ _ _ _ _ _ _ _ _)
    as [o log']. by exists log'.
Qed.

(** What the second half of [process_directory] does to the world: the
    registry stays, and only the two flags of the instance it holds can
    change. *)
Lemma process_directory_run_world l directory_path kwargs w :
  let w' := (process_directory_run env settings l directory_path kwargs w).2 in
  _instances w' = _instances w
  ∧ (∀ l', l' ≠ l → instance_at w' l' = instance_at w l')
  ∧ ∃ processing initialized,
      instance_at w' l
      = set_is_processing processing
          (set_is_initialized initialized (instance_at w l)).
Proof.
  unfold process_directory_run, try_finally. unfold_monad.
  destruct (call_processor_world l directory_path kwargs w) as [log' Hw].
  destruct (call_processor env settings l directory_path kwargs w)
    as [[report|e|] w1]; simpl in *; subst w1.
  - split; [done|]. split.
    + intros l' Hne. unfold instance_at. simpl.
      by rewrite !lookup_total_insert_ne.
    + exists false, true. unfold instance_at. simpl.
      by rewrite !lookup_total_insert_eq.
  - split; [done|]. split.
    + intros l' Hne. unfold instance_at. simpl.
      by rewrite !lookup_total_insert_ne.
    + exists false, (is_initialized (instance_at w l)).
      unfold instance_at. simpl. rewrite !lookup_total_insert_eq.
      by destruct (objects w !!! l).
  - split; [done|]. split; [done|].
    exists (is_processing (instance_at w l)), (is_initialized (instance_at w l)).
    unfold instance_at. simpl. by destruct (objects w !!! l).
Qed.


Lemma with_query_service_world {A} l (m : M QueryService.State A) w :
  ∃ o q' log',
    with_query_service l m w
    = (o, {| _instances := _instances w;
             objects := <[l := set_query_service q' (instance_at w l)]>
                          (objects w);
             log := log' |}).
Proof.
  unfold with_query_service.
  destruct (m _) as [o [q' log']]. by exists o, q', log'.
Qed.

Lemma query_directory_initialized now directory_path query mode w l :
  _instances w !! resolve env directory_path = Some l →
  is_initialized (instance_at w l) = true →
  query_directory env now directory_path query mode w
  = with_query_service l (QueryService.query env query mode)
      (touch now l w).2.
Proof.
  intros Hl Hinit. unfold query_directory, lookup_instance. unfold_monad.
  simpl. rewrite Hl. simpl. unfold instance_at at 1. simpl.
  rewrite lookup_total_insert_eq. simpl. fold (instance_at w l).
  by rewrite Hinit.
Qed.

Lemma query_directory_found now directory_path query mode w l :
  _instances w !! resolve env directory_path = Some l →
  let w1 := (query_directory env now directory_path query mode w).2 in
  _instances w1 = _instances w
  ∧ last_accessed (instance_at w1 l) = now
  ∧ is_processing (instance_at w1 l) = is_processing (instance_at w l)
  ∧ is_initialized (instance_at w1 l) = is_initialized (instance_at w l)
  ∧ (∀ l', l' ≠ l → instance_at w1 l' = instance_at w l').
Proof.
  intros Hl.
  destruct (is_initialized (instance_at w l)) eqn:Hinit.
  - rewrite (query_directory_initialized _ _ _ _ _ l) by done.
    destruct (with_query_service_world l (QueryService.query env query mode)
                (touch now l w).2) as (o & q' & log' & ->).
    simpl. split; [done|]. unfold instance_at. simpl.
    rewrite !lookup_total_insert_eq. simpl.
    fold (instance_at w l). rewrite Hinit. repeat split; try done.
    intros l' Hne. by rewrite !lookup_total_insert_ne.
  - rewrite (query_directory_not_initialized _ _ _ _ _ _ l) by done.
    simpl. split; [done|]. unfold instance_at. simpl.
    rewrite !lookup_total_insert_eq. simpl.
    fold (instance_at w l). rewrite Hinit. repeat split; try done.
    intros l' Hne. by rewrite !lookup_total_insert_ne.
Qed.

(** X12: a query refreshes the instance it finds, also when it then
    fails (the instance is not initialised, or the mode is invalid): the
    access time of the instance is the time of the query, so an eviction
    whose cutoff is not later than that time keeps the instance; reading
    the information of the instance does not refresh it. *)
Theorem X12_a_query_keeps_its_instance_alive now directory_path query mode
    w l now' ttl_seconds :
  _instances w !! resolve env directory_path = Some l →
  let w1 := (query_directory env now directory_path query mode w).2 in
  last_accessed (instance_at w1 l) = now
  ∧ (now' - ttl_seconds * 1000000 ≤ now →
     _instances (cleanup_stale_instances now' ttl_seconds w1).2
       !! resolve env directory_path = Some l)
  ∧ (get_rag_info env directory_path w).2 = w.
Proof.
  intros Hl w1.
  destruct (query_directory_found now directory_path query mode w l Hl)
    as (Hreg & Hnow & _). fold w1 in Hreg, Hnow.
  split; [done|]. split; [|done].
  intros Hcut. simpl. apply map_lookup_filter_Some. split.
  - by rewrite Hreg.
  - simpl. intros [Hold _]. rewrite Hnow in Hold. lia.
Qed.

(** X13: [cleanup] empties the registry and keeps the instance objects:
    afterwards every query and every request for information finds no
    instance, and a call of [process_directory] that is admitted works on
    a new object, not initialised, while every object that existed is as
    it was - an ingestion that was in flight for the same directory is
    still in flight. *)
Theorem X13_cleanup_forgets_every_instance now directory_path api_key query
    content mode kwargs w :
  let w1 := (cleanup w).2 in
  _instances w1 = ∅
  ∧ objects w1 = objects w
  ∧ query_directory env now directory_path query mode w1
    = (Raise (not_processed directory_path), w1)
  ∧ query_with_multimodal env now directory_path query content mode w1
    = (Raise (not_processed directory_path), w1)
  ∧ get_rag_info env directory_path w1 = (Return None, w1)
  ∧ (∀ l w2,
       process_directory_admit env settings now directory_path api_key
         kwargs w1 = (Return l, w2) →
       (l ∉ dom (objects w))
       ∧ is_initialized (instance_at w2 l) = false
       ∧ ∀ l', l' ∈ dom (objects w) → instance_at w2 l' = instance_at w l').
Proof.
  simpl. split; [done|]. split; [done|].
  set (w1 := {| _instances := ∅; objects := objects w; log := log w |}).
  assert (_instances w1 !! resolve env directory_path = None) as Hnone
    by apply lookup_empty.
  split; [|split; [|split]].
  - unfold query_directory. unfold_monad.
    by rewrite lookup_instance_missing.
  - unfold query_with_multimodal. unfold_monad.
    by rewrite lookup_instance_missing.
  - unfold get_rag_info. unfold_monad. simpl. by rewrite lookup_empty.
  - intros l w2. unfold process_directory_admit. unfold_monad.
    rewrite get_or_create_instance_miss by done.
    destruct (new_instance _ _ _ _ _ _) as [i|e|] eqn:Hnew; [|done..].
    assert (is_processing i = false ∧ is_initialized i = false) as [Hp Hi].
    { unfold new_instance in Hnew. destruct (mkdir env _); [done|].
      destruct (DocumentProcessor.init settings); [|done..].
      by injection Hnew as <-. }
    pose proof (is_fresh (dom (objects w))) as Hfresh.
    unfold register. simpl. unfold instance_at at 1. simpl.
    rewrite lookup_total_insert_eq, Hp.
    intros [= <- <-]. split; [done|]. unfold instance_at. simpl.
    rewrite !lookup_total_insert_eq. simpl. split; [done|].
    intros l' Hl'. rewrite !lookup_total_insert_ne; [done|..];
      by intros <-.
Qed.

Lemma with_log_world {A} (m : M (list Event) A) w :
  ∃ log',
    (with_log m w).2
    = {| _instances := _instances w; objects := objects w; log := log' |}.
Proof. unfold with_log. destruct (m (log w)) as [o log']. by exists log'. Qed.

Lemma new_instance_flags now dir_path api_key working_dir i :
  new_instance env settings now dir_path api_key working_dir = Return i →
  is_processing i = false ∧ is_initialized i = false.
Proof.
  unfold new_instance. destruct (mkdir env _); [done|].
  destruct (DocumentProcessor.init settings); [|done..].
  by intros [= <-].
Qed.

(** What [get_or_create_instance] does to the world: no flag of any
    instance changes, and an entry of the registry is an entry that was
    there or a new, uninitialised object. *)
Lemma get_or_create_instance_world now directory_path api_key working_dir w :
  let w' := (get_or_create_instance env settings now directory_path api_key
               working_dir w).2 in
  log w' = log w
  ∧ (∀ l, is_initialized (instance_at w' l) = is_initialized (instance_at w l)
          ∧ is_processing (instance_at w' l) = is_processing (instance_at w l))
  ∧ (∀ k l, _instances w' !! k = Some l →
       _instances w !! k = Some l ∨ l ∉ dom (objects w)).
Proof.
  destruct (_instances w !! resolve env directory_path) as [l0|] eqn:Hlook.
  - rewrite (get_or_create_instance_hit _ _ _ _ _ _ _ l0) by done. simpl.
    split; [done|]. split; [|by left].
    intros l. unfold instance_at. simpl.
    destruct (decide (l0 = l)) as [<-|Hne].
    + by rewrite lookup_total_insert_eq.
    + by rewrite lookup_total_insert_ne.
  - rewrite get_or_create_instance_miss by done.
    destruct (new_instance _ _ _ _ _ _) as [i|e|] eqn:Hnew;
      [|by repeat split; auto..].
    apply new_instance_flags in Hnew as [Hp Hi].
    pose proof (is_fresh (dom (objects w))) as Hfresh.
    split; [done|]. split.
    + intros l. rewrite instance_at_register.
      destruct (decide _) as [->|]; [|done].
      by rewrite instance_at_fresh, Hp, Hi.
    + intros k l. unfold register. simpl.
      destruct (decide (resolve env directory_path = k)) as [<-|Hne].
      * rewrite lookup_insert_eq. intros [= <-]. by right.
      * rewrite lookup_insert_ne by done. by left.
Qed.

Lemma not_in_objects_flags w l :
  l ∉ dom (objects w) →
  is_initialized (instance_at w l) = false
  ∧ is_processing (instance_at w l) = false.
Proof.
  intros Hl%not_elem_of_dom. unfold instance_at.
  by rewrite lookup_total_alt, Hl.
Qed.

(** X14: the ingestion of a single document never takes or sets a flag:
    whatever its outcome, no instance is more initialised or more busy
    than before (the instance it may create for the parent directory is
    neither), so a directory that could not be queried before still
    cannot be queried after. *)
Theorem X14_single_document_sets_no_flag now file_path api_key kwargs w :
  let w' := (process_single_document env settings now file_path api_key
               kwargs w).2 in
  (∀ l, is_initialized (instance_at w' l) = is_initialized (instance_at w l)
        ∧ is_processing (instance_at w' l) = is_processing (instance_at w l))
  ∧ (∀ now' directory_path query mode,
       (∀ l, _instances w !! resolve env directory_path = Some l →
             is_initialized (instance_at w l) = false) →
       ∃ e,
         (query_directory env now' directory_path query mode w').1 = Raise e
         ∧ (e = not_processed directory_path
            ∨ e = not_initialized directory_path)).
Proof.
  pose proof (get_or_create_instance_world now (path_parent env file_path)
                api_key (dk_working_dir kwargs ≫= id) w) as Hworld.
  assert (∃ log',
    (process_single_document env settings now file_path api_key kwargs w).2
    = {| _instances :=
           _instances (get_or_create_instance env settings now
                         (path_parent env file_path) api_key
                         (dk_working_dir kwargs ≫= id) w).2;
         objects :=
           objects (get_or_create_instance env settings now
                      (path_parent env file_path) api_key
                      (dk_working_dir kwargs ≫= id) w).2;
         log := log' |}) as [log' ->].
  { unfold process_single_document. unfold_monad.
    destruct (get_or_create_instance _ _ _ _ _ _ _) as [[l|e|] w1];
      [|exists (log w1); by destruct w1..].
    destruct (dk_working_dir kwargs); [exists (log w1); by destruct w1|].
    destruct (dk_unexpected kwargs); [exists (log w1); by destruct w1|].
    apply with_log_world. }
  destruct (get_or_create_instance _ _ _ _ _ _ _) as [o w1].
  simpl in *. destruct Hworld as (_ & Hflags & Hreg).
  split; [exact Hflags|].
  intros now' d query mode Huninit.
  set (w' := {| _instances := _instances w1; objects := objects w1;
                log := log' |}).
  destruct (_instances w' !! resolve env d) as [l|] eqn:Hlook.
  - exists (not_initialized d).
    rewrite (query_directory_not_initialized _ _ _ _ _ _ l); [by auto|done|].
    change (is_initialized (instance_at w1 l) = false).
    rewrite (proj1 (Hflags l)).
    destruct (Hreg _ _ Hlook) as [Hold|Hnew]; [by apply Huninit|].
    by apply not_in_objects_flags.
  - exists (not_processed d). unfold query_directory. unfold_monad.
    rewrite lookup_instance_missing by done. auto.
Qed.

Lemma process_directory_idle now directory_path api_key kwargs w l :
  _instances w !! resolve env directory_path = Some l →
  is_processing (instance_at w l) = false →
  process_directory env settings now directory_path api_key kwargs w
  = process_directory_run env settings l directory_path kwargs
      (update_instance l (set_is_processing true) (touch now l w).2).2.
Proof.
  intros Hl Hidle.
  unfold process_directory, process_directory_admit. unfold_monad.
  rewrite (get_or_create_instance_hit _ _ _ _ _ _ _ l) by done. simpl.
  unfold instance_at at 1. simpl. rewrite lookup_total_insert_eq. simpl.
  fold (instance_at w l). by rewrite Hidle.
Qed.

(** What a call of [process_directory] does to the world when the
    directory has an instance. *)
Lemma process_directory_found now directory_path api_key kwargs w l :
  _instances w !! resolve env directory_path = Some l →
  let w' := (process_directory env settings now directory_path api_key
               kwargs w).2 in
  _instances w' = _instances w
  ∧ query_service (instance_at w' l) = query_service (instance_at w l)
  ∧ (is_initialized (instance_at w l) = true →
     is_initialized (instance_at w' l) = true)
  ∧ (∀ l', l' ≠ l → instance_at w' l' = instance_at w l').
Proof.
  intros Hl. destruct (is_processing (instance_at w l)) eqn:Hbusy.
  - rewrite (process_directory_busy _ _ _ _ _ _ _ l) by done. simpl.
    split; [done|]. unfold instance_at. simpl.
    rewrite lookup_total_insert_eq. simpl. repeat split; try done.
    intros l' Hne. by rewrite lookup_total_insert_ne.
  - rewrite (process_directory_idle _ _ _ _ _ l) by done.
    set (w1 := (update_instance l (set_is_processing true)
                  (touch now l w).2).2).
    destruct (process_directory_run_world l directory_path kwargs w1)
      as (Hreg & Hothers & processing & initialized & Hl').
    assert (instance_at w1 l
            = set_is_processing true
                (set_last_accessed now (instance_at w l))) as Hw1.
    { unfold w1. rewrite instance_at_update_eq. f_equal.
      apply instance_at_update_eq. }
    split; [by rewrite Hreg|]. split; [by rewrite Hl', Hw1|]. split.
    + intros Hinit.
      apply (after_stable keeps_initialized env settings
               (ProcessDirectoryRun l directory_path kwargs) w1).
      by rewrite Hw1.
    + intros l' Hne. rewrite Hothers by done.
      unfold w1. rewrite instance_at_update_ne' by done.
      by apply instance_at_update_ne'.
Qed.

(** X15: an ingestion does not invalidate the query cache.  A call of
    [process_directory] on a directory that has an instance leaves the
    registry, the query service of that instance and every other
    instance as they were, whatever its outcome; so a query that was
    answered before is answered from the cache afterwards, with the
    payload stored before the ingestion and without a call of the
    backend. *)
Theorem X15_ingestion_keeps_the_query_cache now directory_path api_key
    kwargs w l :
  _instances w !! resolve env directory_path = Some l →
  let w' := (process_directory env settings now directory_path api_key
               kwargs w).2 in
  _instances w' = _instances w
  ∧ query_service (instance_at w' l) = query_service (instance_at w l)
  ∧ (∀ l', l' ≠ l → instance_at w' l' = instance_at w l')
  ∧ (∀ now' text mode c cached,
       is_initialized (instance_at w l) = true →
       mode ∈ QueryService.VALID_MODES →
       QueryService._cache (query_service (instance_at w l)) = Some c →
       c !! QueryService.cache_key mode text = Some cached →
       (query_directory env now' directory_path text mode w').1
         = Return cached
       ∧ log (query_directory env now' directory_path text mode w').2
         = log w').
Proof.
  intros Hl w'.
  destruct (process_directory_found now directory_path api_key kwargs w l Hl)
    as (Hreg & Hqs & Hinit & Hothers). fold w' in Hreg, Hqs, Hinit, Hothers.
  split; [done|]. split; [done|]. split; [done|].
  intros now' text mode c cached Hi Hmode Hc Hcached.
  rewrite (query_directory_initialized _ _ _ _ _ l);
    [|by rewrite Hreg|by apply Hinit].
  unfold with_query_service, touch.
  rewrite instance_at_update_eq. simpl. rewrite Hqs.
  rewrite (query_hit env _ c _ _ _ cached) by done. done.
Qed.

(** X16: a directory in which the scan finds no file counts as ingested:
    the call returns the all-zero report without a call of the backend
    and the instance is initialised, so that the next query is handed to
    the query service. *)
Theorem X16_empty_directory_initializes now directory_path text mode kwargs
    w l :
  kw_working_dir kwargs = None → kw_unexpected kwargs = None →
  DocumentProcessor._find_files env directory_path
    (DocumentProcessor.or_list (kw_file_extensions kwargs)
       (SUPPORTED_FILE_EXTENSIONS settings)) (kw_recursive kwargs)
    = Replied [] →
  let run := process_directory_run env settings l directory_path kwargs w in
  run.1 = Return {| report_status := "completed"; total_files := 0;
                    processed_files := 0; failed_files := 0;
                    skipped_files := 0; errors := [];
                    working_directory := None |}
  ∧ log run.2 = log w
  ∧ is_initialized (instance_at run.2 l) = true
  ∧ is_processing (instance_at run.2 l) = false
  ∧ (_instances w !! resolve env directory_path = Some l →
     query_directory env now directory_path text mode run.2
     = with_query_service l (QueryService.query env text mode)
         (touch now l run.2).2).
Proof.
  intros Hwd Hun Hscan.
  assert (call_processor env settings l directory_path kwargs w
          = (Return {| report_status := "completed"; total_files := 0;
                       processed_files := 0; failed_files := 0;
                       skipped_files := 0; errors := [];
                       working_directory := None |}, w)) as Hcall.
  { unfold call_processor. rewrite Hwd, Hun. unfold_monad. unfold with_log.
    unfold DocumentProcessor.process_directory. unfold_monad.
    rewrite Hscan. simpl. by destruct w. }
  assert (process_directory_run env settings l directory_path kwargs w
          = (Return {| report_status := "completed"; total_files := 0;
                       processed_files := 0; failed_files := 0;
                       skipped_files := 0; errors := [];
                       working_directory := None |},
             (update_instance l (set_is_processing false)
                (update_instance l (set_is_initialized true) w).2).2))
    as Hrun.
  { unfold process_directory_run, try_finally. unfold_monad.
    by rewrite Hcall. }
  intros run. unfold run. rewrite Hrun. cbn [fst snd].
  split; [done|]. split; [done|].
  rewrite !instance_at_update_eq. split; [done|]. split; [done|].
  intros Hl. apply query_directory_initialized; [done|].
  by rewrite !instance_at_update_eq.
Qed.


(** X18: a query concerns one instance only: when the directory has an
    instance, the instances of the other directories (their caches,
    their flags, their access times) and the registry are as before, for
    both kinds of query and whatever the outcome; when it has none, the
    query fails and the world is exactly as before. *)
Theorem X18_queries_touch_one_instance now directory_path query content
    mode w :
  (∀ l, _instances w !! resolve env directory_path = Some l →
     let w1 := (query_directory env now directory_path query mode w).2 in
     let w2 := (query_with_multimodal env now directory_path query content
                  mode w).2 in
     _instances w1 = _instances w ∧ _instances w2 = _instances w
     ∧ ∀ l', l' ≠ l →
         instance_at w1 l' = instance_at w l'
         ∧ instance_at w2 l' = instance_at w l')
  ∧ (_instances w !! resolve env directory_path = None →
     query_directory env now directory_path query mode w
       = (Raise (not_processed directory_path), w)
     ∧ query_with_multimodal env now directory_path query content mode w
       = (Raise (not_processed directory_path), w)).
Proof.
  split.
  - intros l Hl.
    destruct (query_directory_found now directory_path query mode w l Hl)
      as (Hreg & _ & _ & _ & Hothers).
    rewrite (query_with_multimodal_found env now directory_path query content
               mode w l Hl).
    destruct (with_query_service_world l
                (QueryService.query_with_multimodal env query content mode)
                (touch now l w).2) as (o & q' & log' & ->).
    simpl. split; [done|]. split; [done|].
    intros l' Hne. split; [by apply Hothers|].
    unfold instance_at. simpl. by rewrite !lookup_total_insert_ne.
  - intros Hnone. unfold query_directory, query_with_multimodal.
    unfold_monad. by rewrite lookup_instance_missing.
Qed.

End MoreLifecycle.

(** ** The tools *)

Section MoreTools.
Import RAGManager Tools.
Variable env : Env.
Variable settings : Settings.

(** X19: a tool called without one of the parameters it requires (absent
    or null) fails with a ["ValidationError"] that lists the missing
    parameters in the order the handler requires them, and the manager is
    not consulted: the world is exactly as before. *)
Theorem X19_missing_parameters_are_reported now c w :
  missing (required_params c) ≠ [] →
  call_tool env settings now c w
  = (Return (ToolFailure
               ("Missing required parameters: "
                +:+ String.concat ", " (missing (required_params c)))
               "ValidationError"), w).
Proof.
  intros Hmissing. unfold call_tool, handle_errors.
  destruct c as [p|p|p|p| |d]; simpl in *.
  - unfold ProcessDirectoryHandler.
    destruct (pd_directory_path p), (pd_api_key p); done.
  - unfold ProcessSingleDocumentHandler.
    destruct (ps_file_path p), (ps_api_key p); done.
  - unfold QueryDirectoryHandler.
    destruct (qd_directory_path p), (qd_query p); done.
  - unfold QueryWithMultimodalHandler.
    destruct (qm_directory_path p), (qm_query p), (qm_multimodal_content p);
      done.
  - done.
  - unfold GetRAGInfoHandler. destruct d; done.
Qed.

Lemma bind_raise {S A B} (m : M S A) (k : A → M S B) s e :
  (m s).1 = Raise e → (m ≫= k) s = (Raise e, (m s).2).
Proof. unfold_monad. destruct (m s) as [o s']. simpl. by intros ->. Qed.

Lemma process_directory_with_working_dir now directory_path api_key kwargs w :
  is_Some (kw_working_dir kwargs) →
  let r := process_directory env settings now directory_path api_key kwargs w in
  (∃ e, r.1 = Raise e)
  ∧ log r.2 = log w
  ∧ (∀ l, is_initialized (instance_at r.2 l) = is_initialized (instance_at w l)
          ∧ is_processing (instance_at r.2 l) = is_processing (instance_at w l))
  ∧ (∀ l, _instances w !! resolve env directory_path = Some l →
          is_processing (instance_at w l) = false →
          r.1 = Raise (multiple_values "DocumentProcessor.process_directory"
                         "working_dir")).
Proof.
  intros [wd Hwd] r.
  assert (∀ l w1,
    process_directory_run env settings l directory_path kwargs w1
    = (Raise (multiple_values "DocumentProcessor.process_directory"
                "working_dir"),
       (update_instance l (set_is_processing false) w1).2)) as Hrun.
  { intros l w1. unfold process_directory_run, try_finally, call_processor.
    rewrite Hwd. by unfold_monad. }
  assert (∀ l, _instances w !! resolve env directory_path = Some l →
            is_processing (instance_at w l) = false →
            r.1 = Raise (multiple_values "DocumentProcessor.process_directory"
                           "working_dir")) as Hidle.
  { intros l Hl Hidle. unfold r.
    rewrite (process_directory_idle env settings now directory_path api_key
               kwargs w l) by done.
    by rewrite Hrun. }
  cut ((∃ e, r.1 = Raise e) ∧ log r.2 = log w
       ∧ ∀ l, is_initialized (instance_at r.2 l)
                = is_initialized (instance_at w l)
              ∧ is_processing (instance_at r.2 l)
                = is_processing (instance_at w l)); [tauto|].
  clear Hidle. unfold r, process_directory, process_directory_admit.
  pose proof (get_or_create_instance_world env settings now directory_path
                api_key (kw_working_dir kwargs ≫= id) w)
    as (Hlog & Hflags & _).
  pose proof (ends_get_or_create_instance env settings now directory_path
                api_key (kw_working_dir kwargs ≫= id) w) as Hends.
  unfold_monad.
  destruct (get_or_create_instance env settings now directory_path
              api_key _ w)
    as [[l|e|] w1]; cbn [fst snd] in *; [|by eauto|done].
  destruct (is_processing (instance_at w1 l)) eqn:Hp; cbn [fst snd];
    [by eauto|].
  fold (update_instance l (set_is_processing true) w1).
  pose (w2 := (update_instance l (set_is_processing true) w1).2).
  change (update_instance l (set_is_processing true) w1)
    with (Return (), w2).
  cbn iota beta. rewrite Hrun. cbn [fst snd].
  split; [by eauto|]. split; [done|].
  intros l'. destruct (Hflags l') as [<- <-]. unfold w2.
  destruct (decide (l' = l)) as [->|Hne].
  - rewrite !instance_at_update_eq. by rewrite <-Hp.
  - by rewrite !instance_at_update_ne' by done.
Qed.

Lemma process_single_document_with_working_dir now file_path api_key
    kwargs w :
  is_Some (dk_working_dir kwargs) →
  let r := process_single_document env settings now file_path api_key
             kwargs w in
  (∃ e, r.1 = Raise e)
  ∧ r.2 = (get_or_create_instance env settings now (path_parent env file_path)
             api_key (dk_working_dir kwargs ≫= id) w).2.
Proof.
  intros [wd Hwd] r. unfold r, process_single_document.
  pose proof (ends_get_or_create_instance env settings now
                (path_parent env file_path) api_key
                (dk_working_dir kwargs ≫= id) w) as Hends.
  unfold_monad.
  destruct (get_or_create_instance env settings now _ api_key _ w)
    as [[l|e|] w1]; cbn [fst snd] in *; [|by eauto|done].
  rewrite Hwd. by eauto.
Qed.

Lemma multimodal_query_log q text content mode log :
  let r := QueryService.query_with_multimodal env text content mode (q, log) in
  r.2.2 = log
  ∨ r.2.2 = log ++ [AnswerMultimodal mode text (length content)].
Proof.
  destruct (decide (mode ∈ QueryService.VALID_MODES)) as [Hmode|Hmode];
    cycle 1.
  { left. unfold QueryService.query_with_multimodal. unfold_monad.
    by rewrite validate_mode_invalid by done. }
  unfold QueryService.query_with_multimodal. unfold_monad.
  rewrite validate_mode_valid by done. simpl.
  destruct (QueryService._validate_multimodal_content content)
    as [validated|e] eqn:Hv; simpl; [|by left].
  apply validate_content_spec in Hv as [-> _].
  right. by destruct (answer_multimodal env log text content mode).
Qed.

(** What one call of a tool does to a world in which no instance is
    initialised or busy and the backend has only answered multimodal
    queries. *)
Lemma call_tool_all_idle now c w :
  all_idle w → Forall is_multimodal_answer (log w) →
  let r := call_tool env settings now c w in
  all_idle r.2 ∧ Forall is_multimodal_answer (log r.2)
  ∧ match c with
    | CallProcessDirectory _ | CallProcessSingleDocument _
    | CallQueryDirectory _ =>
        ∃ error error_type, r.1 = Return (ToolFailure error error_type)
    | _ => True
    end.
Proof.
  intros Hidle Hlog r.
  assert (∀ e w',
    handler env settings now c w = (Raise e, w') →
    all_idle w' → Forall is_multimodal_answer (log w') →
    all_idle r.2 ∧ Forall is_multimodal_answer (log r.2)
    ∧ ∃ error error_type, r.1 = Return (ToolFailure error error_type))
    as Hraise.
  { intros e w' He ? ?. unfold r.
    rewrite (call_tool_of_raise env settings now c w e w' He). by eauto. }
  assert (∀ e w',
    handler env settings now c w = (Raise e, w') →
    all_idle w' → Forall is_multimodal_answer (log w') →
    all_idle r.2 ∧ Forall is_multimodal_answer (log r.2)
    ∧ match c with
      | CallProcessDirectory _ | CallProcessSingleDocument _
      | CallQueryDirectory _ =>
          ∃ error error_type, r.1 = Return (ToolFailure error error_type)
      | _ => True
      end) as Hraise'.
  { intros e w' He H1 H2.
    destruct (Hraise e w' He H1 H2) as (? & ? & ?). by destruct c. }
  assert (∀ l f w0, all_idle w0 →
            (∀ i, is_initialized (f i) = is_initialized i
                  ∧ is_processing (f i) = is_processing i) →
            all_idle (update_instance l f w0).2) as Hupdate.
  { intros l f w0 H0 Hf l'. destruct (decide (l' = l)) as [->|Hne].
    - rewrite instance_at_update_eq. destruct (Hf (instance_at w0 l)) as [-> ->].
      apply H0.
    - rewrite instance_at_update_ne' by done. apply H0. }
  destruct c as [p|p|p|p| |d]; cbn iota in Hraise'.
  - (* process_directory *)
    destruct (pd_directory_path p) as [directory_path|] eqn:Hd,
             (pd_api_key p) as [api_key|] eqn:Hk;
      try (eapply Hraise';
           [unfold handler, ProcessDirectoryHandler; rewrite Hd, Hk;
            reflexivity|done..]).
    assert (∃ kwargs, is_Some (kw_working_dir kwargs)
              ∧ handler env settings now (CallProcessDirectory p)
                = (result ← process_directory env settings now directory_path
                              api_key kwargs;
                   mret (ToolSuccess (BatchPayload result))))
      as (kwargs & Hwd & Hhandler).
    { eexists. split; [|unfold handler, ProcessDirectoryHandler;
                        rewrite Hd, Hk; reflexivity]. simpl. by eauto. }
    destruct (process_directory_with_working_dir now directory_path api_key
                kwargs w Hwd) as ([e He] & Hlog' & Hflags & _).
    eapply (Hraise' e).
    + rewrite Hhandler. by apply bind_raise.
    + intros l. destruct (Hflags l) as [-> ->]. apply Hidle.
    + by rewrite Hlog'.
  - (* process_single_document *)
    destruct (ps_file_path p) as [file_path|] eqn:Hf,
             (ps_api_key p) as [api_key|] eqn:Hk;
      try (eapply Hraise';
           [unfold handler, ProcessSingleDocumentHandler; rewrite Hf, Hk;
            reflexivity|done..]).
    assert (∃ kwargs, is_Some (dk_working_dir kwargs)
              ∧ handler env settings now (CallProcessSingleDocument p)
                = (result ← process_single_document env settings now file_path
                              api_key kwargs;
                   mret (ToolSuccess (FilePayload result))))
      as (kwargs & Hwd & Hhandler).
    { eexists. split; [|unfold handler, ProcessSingleDocumentHandler;
                        rewrite Hf, Hk; reflexivity]. simpl. by eauto. }
    destruct (process_single_document_with_working_dir now file_path api_key
                kwargs w Hwd) as ([e He] & Hw').
    destruct (get_or_create_instance_world env settings now
                (path_parent env file_path) api_key
                (dk_working_dir kwargs ≫= id) w) as (Hlog' & Hflags & _).
    rewrite <-Hw' in Hlog', Hflags.
    eapply (Hraise' e).
    + rewrite Hhandler. by apply bind_raise.
    + intros l. destruct (Hflags l) as [-> ->]. apply Hidle.
    + by rewrite Hlog'.
  - (* query_directory *)
    destruct (qd_directory_path p) as [directory_path|] eqn:Hd,
             (qd_query p) as [query|] eqn:Hq;
      try (eapply Hraise';
           [unfold handler, QueryDirectoryHandler; rewrite Hd, Hq;
            reflexivity|done..]).
    destruct (_instances w !! resolve env directory_path) as [l|] eqn:Hl.
    + eapply (Hraise' (not_initialized directory_path) (touch now l w).2).
      * unfold handler, QueryDirectoryHandler. rewrite Hd, Hq. unfold_monad.
        rewrite (query_directory_not_initialized env now directory_path query
                   _ w l Hl); [done|apply Hidle].
      * by apply Hupdate.
      * done.
    + eapply (Hraise' (not_processed directory_path) w); [|done..].
      unfold handler, QueryDirectoryHandler. rewrite Hd, Hq.
      unfold query_directory. unfold_monad.
      by rewrite lookup_instance_missing.
  - (* query_with_multimodal *)
    destruct (qm_directory_path p) as [directory_path|] eqn:Hd,
             (qm_query p) as [query|] eqn:Hq,
             (qm_multimodal_content p) as [content|] eqn:Hc;
      try (eapply Hraise';
           [unfold handler, QueryWithMultimodalHandler; rewrite Hd, Hq, Hc;
            reflexivity|done..]).
    destruct (_instances w !! resolve env directory_path) as [l|] eqn:Hl;
      cycle 1.
    { eapply (Hraise' (not_processed directory_path) w); [|done..].
      unfold handler, QueryWithMultimodalHandler. rewrite Hd, Hq, Hc.
      unfold query_with_multimodal. unfold_monad.
      by rewrite lookup_instance_missing. }
    assert (r.2 = (query_with_multimodal env now directory_path query content
                     (default "hybrid" (qm_mode p)) w).2) as Hr.
    { unfold r, call_tool, handle_errors, handler, QueryWithMultimodalHandler.
      rewrite Hd, Hq, Hc. unfold_monad.
      by destruct (query_with_multimodal _ _ _ _ _ _ _) as [[] ?]. }
    rewrite Hr, (query_with_multimodal_found env now directory_path query
                   content _ w l Hl).
    unfold with_query_service.
    pose proof (multimodal_query_log
                  (query_service (instance_at (touch now l w).2 l)) query
                  content (default "hybrid" (qm_mode p))
                  (log (touch now l w).2)) as Hmm.
    destruct (QueryService.query_with_multimodal _ _ _ _ _) as [o [q' log']].
    simpl in Hmm. cbn [snd]. split; [|split; [|done]].
    + apply (Hupdate l (set_query_service q') (touch now l w).2);
        [by apply Hupdate|done].
    + simpl. destruct Hmm as [->| ->]; [done|].
      apply Forall_app. split; [done|]. by constructor.
  - (* list_processed_directories *)
    done.
  - (* get_rag_info *)
    destruct d as [d|]; [|by eapply Hraise'].
    unfold r, call_tool, handle_errors, handler, GetRAGInfoHandler,
      get_rag_info. unfold_monad. simpl.
    by destruct (_instances w !! resolve env d).
Qed.

(** X20: driven through the tools alone, the manager never ingests
    anything.  The ingestion handlers pass [working_dir] on among the
    keyword arguments, which the document processor then receives twice
    (or, for a single document, does not accept), so the call raises
    before any file is read.  Hence in every world reached by tool calls
    made one after the other from the start: no registered instance is
    initialised or busy, the backend has only ever answered multimodal
    queries, and the tools [process_directory], [process_single_document]
    and [query_directory] all answer with a failure. *)
Theorem X20_tools_never_ingest w :
  tool_reachable env settings w →
  (∀ k l, _instances w !! k = Some l →
     is_initialized (instance_at w l) = false
     ∧ is_processing (instance_at w l) = false)
  ∧ Forall is_multimodal_answer (log w)
  ∧ (∀ now p, ∃ error error_type,
       (call_tool env settings now (CallProcessDirectory p) w).1
       = Return (ToolFailure error error_type))
  ∧ (∀ now p, ∃ error error_type,
       (call_tool env settings now (CallProcessSingleDocument p) w).1
       = Return (ToolFailure error error_type))
  ∧ (∀ now p, ∃ error error_type,
       (call_tool env settings now (CallQueryDirectory p) w).1
       = Return (ToolFailure error error_type)).
Proof.
  intros Hreach.
  assert (all_idle w ∧ Forall is_multimodal_answer (log w)) as [Hidle Hlog].
  { induction Hreach as [|now c w _ [Hidle Hlog]].
    - split; [|by constructor]. intros l. unfold instance_at, empty_world.
      simpl. by rewrite lookup_total_empty.
    - by destruct (call_tool_all_idle now c w Hidle Hlog) as (? & ? & _). }
  split; [by intros k l _|]. split; [done|].
  split; [|split]; intros now p.
  - by destruct (call_tool_all_idle now (CallProcessDirectory p) w Hidle Hlog)
      as (_ & _ & ?).
  - by destruct (call_tool_all_idle now (CallProcessSingleDocument p) w
                   Hidle Hlog) as (_ & _ & ?).
  - by destruct (call_tool_all_idle now (CallQueryDirectory p) w Hidle Hlog)
      as (_ & _ & ?).
Qed.


(** X22: what the [process_single_document] tool answers.  Whatever its
    parameters, it fails, invokes no backend and changes no flag of any
    instance; once the instance of the parent directory is found or
    created, the failure is the [TypeError] of the call of the document
    processor, which does not accept [working_dir]. *)
Theorem X22_process_single_document_tool_always_fails now p w :
  let r := call_tool env settings now (CallProcessSingleDocument p) w in
  (∃ error error_type, r.1 = Return (ToolFailure error error_type))
  ∧ log r.2 = log w
  ∧ (∀ l, is_initialized (instance_at r.2 l) = is_initialized (instance_at w l)
          ∧ is_processing (instance_at r.2 l) = is_processing (instance_at w l))
  ∧ (∀ file_path api_key l w1,
       ps_file_path p = Some file_path →
       ps_api_key p = Some api_key →
       get_or_create_instance env settings now (path_parent env file_path)
         api_key (ps_working_dir p) w = (Return l, w1) →
       r = (Return (ToolFailure
                      ("DocumentProcessor.process_single_document() got an "
                       +:+ "unexpected keyword argument 'working_dir'")
                      "TypeError"), w1)).
Proof.
  intros r.
  destruct (ps_file_path p) as [file_path|] eqn:Hf,
           (ps_api_key p) as [api_key|] eqn:Hk;
    [|unfold r, call_tool, handle_errors, handler,
        ProcessSingleDocumentHandler;
      rewrite Hf, Hk; unfold raise; cbn [fst snd];
      (split; [by eexists _, _|]); (split; [done|]); (split; [done|]);
      intros; discriminate..].
  assert (∃ kwargs, dk_working_dir kwargs = Some (ps_working_dir p)
            ∧ handler env settings now (CallProcessSingleDocument p)
              = (result ← process_single_document env settings now file_path
                            api_key kwargs;
                 mret (ToolSuccess (FilePayload result))))
    as (kwargs & Hwd & Hhandler).
  { eexists. split; [|unfold handler, ProcessSingleDocumentHandler;
                      rewrite Hf, Hk; reflexivity]. done. }
  destruct (process_single_document_with_working_dir now file_path api_key
              kwargs w) as ([e He] & Hw'); [by rewrite Hwd|].
  destruct (get_or_create_instance_world env settings now
              (path_parent env file_path) api_key
              (dk_working_dir kwargs ≫= id) w) as (Hlog' & Hflags & _).
  rewrite <-Hw' in Hlog', Hflags.
  assert (handler env settings now (CallProcessSingleDocument p) w
          = (Raise e, (process_single_document env settings now file_path
                         api_key kwargs w).2)) as Hh.
  { rewrite Hhandler. by apply bind_raise. }
  unfold r. rewrite (call_tool_of_raise env settings now _ w e _ Hh).
  cbn [fst snd]. split; [by eauto|]. split; [done|]. split; [done|].
  intros f k l w1 [= <-] [= <-] Hcreate.
  rewrite Hw', Hwd. simpl. rewrite Hcreate. simpl.
  unfold process_single_document in He. unfold_monad.
  rewrite Hwd in He. simpl in He. rewrite Hcreate in He. simpl in He.
  by injection He as <-.
Qed.

(** X23: the listing tool reads and never writes.  It succeeds in every
    world and leaves it exactly as it is (no access time moves); it
    lists one entry per registered directory, [total_count] being the
    size of the registry, whether or not the directory was ever ingested;
    and what [get_rag_info] tells of a directory is one of the entries. *)
Theorem X23_listing_reads_the_registry now w :
  ∃ directories,
    call_tool env settings now CallListProcessedDirectories w
    = (Return (ToolSuccess
                 (DirectoriesPayload directories (size (_instances w)))), w)
    ∧ length directories = size (_instances w)
    ∧ (∀ info, info ∈ directories ↔
         ∃ k l, _instances w !! k = Some l
                ∧ info = get_info (instance_at w l))
    ∧ (∀ directory_path info,
         call_tool env settings now (CallGetRagInfo (Some directory_path)) w
         = (Return (ToolSuccess (InfoPayload info)), w) →
         info ∈ directories).
Proof.
  exists ((λ kl, get_info (instance_at w kl.2)) <$> map_to_list (_instances w)).
  assert (∀ info,
    info ∈ (λ kl : string * loc, get_info (instance_at w kl.2))
             <$> map_to_list (_instances w)
    ↔ ∃ k l, _instances w !! k = Some l ∧ info = get_info (instance_at w l))
    as Hlist.
  { intros info. rewrite list_elem_of_fmap. split.
    - intros ([k l] & -> & Hkl%elem_of_map_to_list). by exists k, l.
    - intros (k & l & Hkl & ->). exists (k, l).
      split; [done|]. by apply elem_of_map_to_list. }
  split; [|split; [|split; [done|]]].
  - unfold call_tool, handle_errors, handler, ListProcessedDirectoriesHandler,
      list_processed_directories. unfold_monad. cbn [fst snd].
    by rewrite length_fmap, length_map_to_list.
  - by rewrite length_fmap, length_map_to_list.
  - intros d info. unfold call_tool, handle_errors, handler,
      GetRAGInfoHandler, get_rag_info. unfold_monad. cbn [fst snd].
    destruct (_instances w !! resolve env d) as [l|] eqn:Hl; simpl; [|done].
    intros [= <-]. apply Hlist. by exists (resolve env d), l.
Qed.

End MoreTools.

(** ** Metrics *)

Section MoreMetrics.
Import MetricsCollector.

#[local] Instance item_le_trans : Transitive item_le.
Proof.
  intros [k1 v1] [k2 v2] [k3 v3]. unfold item_le. simpl.
  repeat case_decide; subst; try done.
  - apply transitivity.
  - intros H1 H2. destruct H0. by apply (anti_symm String.le).
  - apply transitivity.
Qed.

#[local] Instance item_le_total : Total item_le.
Proof.
  intros [k1 v1] [k2 v2]. unfold item_le. simpl.
  repeat case_decide; subst; try done; apply total, _.
Qed.

#[local] Instance item_le_antisym : AntiSymm (=) item_le.
Proof.
  intros [k1 v1] [k2 v2]. unfold item_le. simpl.
  repeat case_decide; subst; try done.
  - intros H1 H2. f_equal. by apply (anti_symm String.le).
  - intros H1 H2. destruct H. by apply (anti_symm String.le).
Qed.

Lemma build_metric_name_perm name (labels labels' : Labels) :
  labels ≡ₚ labels' →
  _build_metric_name name (Some labels) = _build_metric_name name (Some labels').
Proof.
  intros Hperm.
  assert (merge_sort item_le labels = merge_sort item_le labels') as Hsort.
  { apply (Sorted_unique item_le); try apply Sorted_merge_sort; try apply _.
    by rewrite !merge_sort_Permutation. }
  unfold _build_metric_name, label_str. rewrite Hsort.
  destruct labels as [|x labels], labels' as [|y labels']; try done.
  - by apply Permutation_nil_cons in Hperm.
  - symmetry in Hperm. by apply Permutation_nil_cons in Hperm.
Qed.

Lemma set_lock_free s : _lock s = false → set_lock false (set_lock true s) = s.
Proof. destruct s. simpl. by intros ->. Qed.

(** A body that keeps the lock as it finds it runs under a free lock and
    leaves it free. *)
Lemma with_lock_modify (f : t → t) s :
  _lock s = false → (∀ s0, f (set_lock true s0) = set_lock true (f s0)) →
  (∀ s0, _lock (f s0) = _lock s0) →
  with_lock (modify f) s = (Return tt, f s).
Proof.
  intros Hfree Hcomm Hlock. unfold with_lock, modify. rewrite Hfree.
  rewrite Hcomm. f_equal. apply set_lock_free. by rewrite Hlock.
Qed.

Lemma with_lock_read {A} (f : t → A) s :
  _lock s = false → (∀ s0, f (set_lock true s0) = f s0) →
  with_lock (s0 ← get; mret (f s0)) s = (Return (f s), s).
Proof.
  intros Hfree Hf. unfold with_lock. unfold_monad. rewrite Hfree, Hf.
  by rewrite set_lock_free.
Qed.

(** X24: counters add up and are addressed by the set of their labels.
    On a free lock, [increment] returns, leaves the lock free and adds
    the value to the counter of that name and those labels, which starts
    from 0; [get_counter] reads it back, changes nothing, and reads the
    same counter when the labels are given in another order; no other
    counter, gauge, histogram or timer is changed. *)
Theorem X24_counters_add_up name value (labels labels' : Labels) s :
  _lock s = false → labels ≡ₚ labels' →
  let full_name := _build_metric_name name (Some labels) in
  let before := default 0 (_counters s !! full_name) in
  let s' := (increment name value (Some labels) s).2 in
  increment name value (Some labels) s = (Return tt, s')
  ∧ _lock s' = false
  ∧ get_counter name (Some labels) s = (Return before, s)
  ∧ get_counter name (Some labels') s' = (Return (before + value), s')
  ∧ (∀ other, other ≠ full_name →
       _counters s' !! other = _counters s !! other)
  ∧ _gauges s' = _gauges s ∧ _histograms s' = _histograms s
  ∧ _timers s' = _timers s.
Proof.
  intros Hfree Hperm full_name before s'.
  assert (increment name value (Some labels) s
          = (Return tt,
             set_counters (<[full_name := before + value]> (_counters s)) s))
    as Hinc.
  { unfold increment. by rewrite with_lock_modify. }
  unfold s'. rewrite Hinc. cbn [fst snd].
  split; [done|]. split; [done|]. split; [|split; [|split]].
  - unfold get_counter.
    by rewrite (with_lock_read (λ s0, default 0 (_counters s0 !! _))).
  - unfold get_counter.
    rewrite (with_lock_read (λ s0, default 0 (_counters s0 !! _))) by done.
    rewrite <-(build_metric_name_perm name labels labels') by done.
    simpl. fold full_name. by rewrite lookup_insert_eq.
  - intros other Hne. simpl. by rewrite lookup_insert_ne.
  - done.
Qed.

(** X25: a timer measures from its last start to its first stop.
    Stopping a timer that is not running returns [None] and changes
    nothing.  After [start_timer], whatever was running under that name
    before, [stop_timer] returns the time elapsed since that start,
    appends it to the histogram [<name>_duration_seconds] and forgets the
    timer, so that a second stop returns [None]. *)
Theorem X25_timer_measures_start_to_stop name labels started stopped later s :
  _lock s = false →
  let full_name :=
    _build_metric_name (name +:+ "_duration_seconds") labels in
  let s1 := (start_timer name started s).2 in
  let s2 := (stop_timer name labels stopped s1).2 in
  (_timers s !! name = None →
   stop_timer name labels stopped s = (Return None, s))
  ∧ stop_timer name labels stopped s1 = (Return (Some (stopped - started)), s2)
  ∧ _timers s2 = delete name (_timers s)
  ∧ _histograms s2
    = <[full_name := default [] (_histograms s !! full_name)
                     ++ [stopped - started]]> (_histograms s)
  ∧ _counters s2 = _counters s ∧ _gauges s2 = _gauges s
  ∧ _lock s2 = false
  ∧ stop_timer name labels later s2 = (Return None, s2).
Proof.
  intros Hfree full_name s1 s2.
  assert (∀ s0 now, _lock s0 = false → _timers s0 !! name = None →
            stop_timer name labels now s0 = (Return None, s0)) as Hidle.
  { intros s0 now H0 Hnone. unfold stop_timer, with_lock. unfold_monad.
    rewrite H0. simpl. rewrite Hnone. by rewrite set_lock_free. }
  assert (s1 = set_timers (<[name := started]> (_timers s)) s) as Hs1.
  { unfold s1, start_timer. by rewrite with_lock_modify. }
  assert (stop_timer name labels stopped s1
          = (Return (Some (stopped - started)),
             append_observation full_name (stopped - started)
               (set_timers (delete name (_timers s)) s))) as Hstop.
  { rewrite Hs1. unfold stop_timer, with_lock. unfold_monad. simpl.
    rewrite Hfree. rewrite lookup_insert_eq. simpl.
    rewrite delete_insert_eq. f_equal.
    unfold append_observation, set_histograms, set_timers, set_lock. simpl.
    by rewrite Hfree. }
  split; [by apply Hidle|].
  unfold s2. rewrite Hstop. cbn [fst snd].
  split; [done|]. split; [done|]. split; [done|]. split; [done|].
  split; [done|]. split; [done|].
  apply Hidle; [done|]. simpl. apply lookup_delete_eq.
Qed.

Lemma get_all_metrics_hang now s :
  _lock s = false → _histograms s ≠ ∅ → (get_all_metrics now s).1 = Hang.
Proof.
  intros Hfree Hne. unfold get_all_metrics, with_lock. rewrite Hfree.
  unfold_monad. simpl.
  destruct (map_to_list (_histograms s)) as [|[k v] rest] eqn:Hlist.
  { by apply map_to_list_empty_iff in Hlist. }
  done.
Qed.

Lemma get_all_metrics_return now s :
  _lock s = false → _histograms s = ∅ →
  get_all_metrics now s
  = (Return {| timestamp := now; counters := _counters s;
               gauges := _gauges s; histograms := ∅;
               metadata := _metadata s |}, s).
Proof.
  intros Hfree Hempty. unfold get_all_metrics, with_lock. rewrite Hfree.
  unfold_monad. simpl. rewrite Hempty, map_to_list_empty. simpl.
  by rewrite set_lock_free.
Qed.

(** X26: [flush] blocks for ever once a histogram exists.
    [get_all_metrics] computes the statistics of every histogram while
    it holds the lock, and [get_histogram_stats] takes the same lock,
    which is not reentrant.  So on a free lock [flush] returns exactly
    when no histogram has been recorded (and then reports none); it
    blocks after any [observe] and after any timed block whose body
    leaves the collector alone; after [reset] it returns again. *)
Theorem X26_flush_blocks_once_a_histogram_exists now s :
  _lock s = false →
  (_histograms s = ∅ →
   flush now s
   = (Return {| timestamp := now; counters := _counters s;
                gauges := _gauges s; histograms := ∅;
                metadata := _metadata s |}, s))
  ∧ (_histograms s ≠ ∅ → (flush now s).1 = Hang)
  ∧ (∀ name value labels,
       (flush now (observe name value labels s).2).1 = Hang)
  ∧ (∀ A name started stopped (body : M t A),
       (∀ s0, (body s0).1 ≠ Hang ∧ (body s0).2 = s0) →
       (timer name started stopped body s).1
       = (body (start_timer name started s).2).1
       ∧ (flush now (timer name started stopped body s).2).1 = Hang)
  ∧ (∃ data, flush now (reset s).2 = (Return data, (reset s).2)).
Proof.
  intros Hfree. unfold flush.
  split; [by apply get_all_metrics_return|].
  split; [by apply get_all_metrics_hang|]. split; [|split].
  - intros name value labels. unfold observe.
    rewrite with_lock_modify by done. cbn [snd].
    apply get_all_metrics_hang; [done|]. simpl.
    apply insert_non_empty.
  - intros A name started stopped body Hbody.
    assert (start_timer name started s
            = (Return tt, set_timers (<[name := started]> (_timers s)) s))
      as Hstart.
    { unfold start_timer. by rewrite with_lock_modify. }
    rewrite Hstart. cbn [snd].
    set (s1 := set_timers (<[name := started]> (_timers s)) s).
    destruct (Hbody s1) as [Hends Hsame].
    assert (stop_timer name None stopped s1
            = (Return (Some (stopped - started)),
               append_observation (name +:+ "_duration_seconds")
                 (stopped - started)
                 (set_timers (delete name (_timers s)) s))) as Hstop.
    { unfold s1, stop_timer, with_lock. unfold_monad. simpl.
      rewrite Hfree. rewrite lookup_insert_eq. simpl.
      rewrite delete_insert_eq. f_equal.
      unfold append_observation, set_histograms, set_timers, set_lock. simpl.
      by rewrite Hfree. }
    assert (timer name started stopped body s
            = ((body s1).1,
               append_observation (name +:+ "_duration_seconds")
                 (stopped - started)
                 (set_timers (delete name (_timers s)) s))) as Htimer.
    { unfold timer. unfold_monad. rewrite Hstart. cbn iota beta.
      fold s1. unfold try_finally.
      destruct (body s1) as [o s1'] eqn:Hb. simpl in Hends, Hsame.
      subst s1'. rewrite Hstop. by destruct o. }
    rewrite Htimer. cbn [fst snd]. split; [done|].
    apply get_all_metrics_hang; [done|]. simpl. apply insert_non_empty.
  - eexists. unfold reset. rewrite with_lock_modify by done. cbn [snd].
    by apply get_all_metrics_return.
Qed.




End MoreMetrics.

(** ** Utilities *)

Section MoreUtilities.

Lemma lstrip_split chars name :
  ∃ stripped,
    name = stripped ++ FileUtils.lstrip chars name
    ∧ Forall (λ c, c ∈ chars) stripped.
Proof.
  induction name as [|c name (stripped & Hname & Hall)]; simpl.
  - by exists [].
  - destruct (decide (c ∈ chars)).
    + exists (c :: stripped). split; [simpl; by rewrite <-Hname|by constructor].
    + by exists [].
Qed.

Lemma lstrip_head chars name c :
  head (FileUtils.lstrip chars name) = Some c → c ∉ chars.
Proof.
  induction name as [|a name IH]; simpl; [done|].
  destruct (decide (a ∈ chars)); [done|]. by intros [= <-].
Qed.

Lemma lstrip_id chars name :
  (∀ c, head name = Some c → c ∉ chars) → FileUtils.lstrip chars name = name.
Proof.
  destruct name as [|a name]; simpl; [done|]. intros Hhead.
  by rewrite decide_False by (by apply Hhead).
Qed.

Lemma strip_spec chars name :
  let stripped := FileUtils.strip chars name in
  (∃ before after, name = before ++ stripped ++ after)
  ∧ (∀ c, head stripped = Some c → c ∉ chars)
  ∧ (∀ c, last stripped = Some c → c ∉ chars).
Proof.
  unfold FileUtils.strip.
  destruct (lstrip_split chars name) as (before & Hname & _).
  set (m := FileUtils.lstrip chars name) in *.
  destruct (lstrip_split chars (reverse m)) as (after & Hm & _).
  set (r := FileUtils.lstrip chars (reverse m)) in *.
  assert (m = reverse r ++ reverse after) as Hm'.
  { rewrite <-reverse_app, <-Hm. by rewrite reverse_involutive. }
  split; [|split].
  - exists before, (reverse after). by rewrite <-Hm'.
  - intros c Hc. rewrite head_reverse in Hc.
    destruct (reverse r) as [|a rest] eqn:Hr.
    { apply (f_equal reverse) in Hr. rewrite reverse_involutive in Hr.
      by rewrite Hr in Hc. }
    assert (a = c) as ->.
    { rewrite <-head_reverse, Hr in Hc. by injection Hc. }
    apply (lstrip_head chars name). fold m. by rewrite Hm'.
  - intros c. rewrite last_reverse. apply lstrip_head.
Qed.

Lemma strip_id chars name :
  (∀ c, head name = Some c → c ∉ chars) →
  (∀ c, last name = Some c → c ∉ chars) →
  FileUtils.strip chars name = name.
Proof.
  intros Hhead Hlast. unfold FileUtils.strip.
  rewrite (lstrip_id chars name) by done.
  rewrite lstrip_id; [apply reverse_involutive|].
  intros c. rewrite head_reverse. apply Hlast.
Qed.

Lemma replace_invalid_valid c :
  FileUtils.replace_invalid c ∉ FileUtils.invalid_chars.
Proof.
  unfold FileUtils.replace_invalid.
  destruct (decide (c ∈ FileUtils.invalid_chars)); [|done].
  unfold FileUtils.invalid_chars. intros H.
  repeat (apply elem_of_cons in H as [H|H]; [discriminate H|]).
  by apply elem_of_nil in H.
Qed.

(** X28: [safe_filename] gives a name that is safe and stable.  For
    every input the result is not empty, contains none of the characters
    of [invalid_chars], neither starts nor ends with a dot or a space,
    and is no longer than the input (or than the seven characters of the
    default name); and a second application changes nothing. *)
Theorem X28_safe_filename_is_safe filename :
  let name := FileUtils.safe_filename filename in
  let cs := String.list_ascii_of_string name in
  cs ≠ []
  ∧ Forall (λ c, c ∉ FileUtils.invalid_chars) cs
  ∧ (∀ c, head cs = Some c → c ≠ "."%char ∧ c ≠ " "%char)
  ∧ (∀ c, last cs = Some c → c ≠ "."%char ∧ c ≠ " "%char)
  ∧ (String.length name ≤ Nat.max (String.length filename) 7)%nat
  ∧ FileUtils.safe_filename name = name.
Proof.
  intros name cs.
  set (replaced := FileUtils.replace_invalid
                     <$> String.list_ascii_of_string filename).
  destruct (strip_spec ["."; " "]%char replaced)
    as ((before & after & Hsplit) & Hhead & Hlast).
  assert (Forall (λ c, c ∉ FileUtils.invalid_chars) replaced) as Hvalid.
  { apply Forall_fmap, Forall_forall. intros c _.
    apply replace_invalid_valid. }
  assert (TCEq name (FileUtils.safe_filename filename)) as Hname by done.
  unfold FileUtils.safe_filename in Hname. fold replaced in Hname.
  destruct (FileUtils.strip ["."; " "]%char replaced) as [|a rest] eqn:Hs.
  - (* nothing is left: the name is "unnamed" *)
    apply TCEq_eq in Hname. subst cs. rewrite Hname. simpl.
    split; [done|]. split.
    { repeat constructor; unfold FileUtils.invalid_chars; intros H;
        repeat (apply elem_of_cons in H as [H|H]; [discriminate H|]);
        by apply elem_of_nil in H. }
    split; [by intros c [= <-]|]. split; [by intros c [= <-]|].
    split; [lia|done].
  - apply TCEq_eq in Hname.
    assert (cs = a :: rest) as Hcs.
    { subst cs. rewrite Hname.
      apply String.list_ascii_of_string_of_list_ascii. }
    assert (Forall (λ c, c ∉ FileUtils.invalid_chars) (a :: rest)) as Hok.
    { rewrite Hsplit in Hvalid.
      by apply Forall_app in Hvalid as [_ [? _]%Forall_app]. }
    assert (∀ c, c ∉ ["."; " "]%char → c ≠ "."%char ∧ c ≠ " "%char)
      as Hchars.
    { intros c Hc. split; intros ->; apply Hc; set_solver. }
    rewrite Hcs. split; [done|]. split; [done|].
    split; [by intros c Hc; apply Hchars, Hhead|].
    split; [by intros c Hc; apply Hchars, Hlast|]. split.
    + transitivity (String.length filename); [|lia].
      assert (∀ s, String.length s = length (String.list_ascii_of_string s))
        as Hlen by (induction s; simpl; congruence).
      rewrite !Hlen. fold cs. rewrite Hcs.
      assert (length replaced
              = length (String.list_ascii_of_string filename)) as <-
        by apply length_fmap.
      rewrite Hsplit, !length_app. lia.
    + unfold FileUtils.safe_filename. fold cs. rewrite Hcs.
      assert (FileUtils.replace_invalid <$> (a :: rest) = a :: rest) as ->.
      { clear -Hok. induction Hok as [|c l Hc _ IH]; [done|].
        rewrite fmap_cons, IH. f_equal.
        unfold FileUtils.replace_invalid. by rewrite decide_False. }
      rewrite (strip_id _ (a :: rest)) by done. by rewrite Hname.
Qed.

(** A function whose [k]-th call ends as [outcomes k], and a sleep that
    is recorded: the state is the number of calls made and the delays
    slept. *)
Lemma attempts_spec {A D} (mul min : D → D → D) (jitter_factor : nat → D)
    (outcomes : nat → Outcome A) max_retries backoff_factor max_delay jitter
    exceptions remaining attempt delay last_exception delays :
  let func : M (nat * list D) A := λ s, (outcomes s.1, (S s.1, s.2)) in
  let sleep : D → M (nat * list D) unit :=
    λ d s, (Return tt, (s.1, s.2 ++ [d])) in
  (0 < remaining)%nat →
  Z.of_nat (attempt + remaining) = max_retries + 1 →
  let r := RetryHandler.attempts mul min jitter_factor sleep func max_retries
             backoff_factor max_delay jitter exceptions remaining attempt
             delay last_exception (attempt, delays) in
  let calls := r.2.1 in
  (attempt < calls ≤ attempt + remaining)%nat
  ∧ r.1 = outcomes (calls - 1)%nat
  ∧ length r.2.2 = (length delays + (calls - 1 - attempt))%nat
  ∧ (∀ k, (attempt ≤ k < calls - 1)%nat →
       ∃ e, outcomes k = Raise e ∧ exceptions e = true)
  ∧ ((calls < attempt + remaining)%nat →
     ∀ e, outcomes (calls - 1)%nat = Raise e → exceptions e = false).
Proof.
  intros func sleep. revert attempt delay last_exception delays.
  induction remaining as [|remaining IH];
    intros attempt delay last_exception delays Hpos Hsum; [lia|].
  cbn [RetryHandler.attempts]. cbv zeta.
  change (func (attempt, delays)) with (outcomes attempt, (S attempt, delays)).
  assert (∀ o,
    outcomes attempt = o →
    (∀ e, o = Raise e → exceptions e = true →
          Z.of_nat attempt = max_retries) →
    ∀ r, r = (o, (S attempt, delays)) →
    (attempt < r.2.1 ≤ attempt + S remaining)%nat
    ∧ r.1 = outcomes (r.2.1 - 1)%nat
    ∧ length r.2.2 = (length delays + (r.2.1 - 1 - attempt))%nat
    ∧ (∀ k, (attempt ≤ k < r.2.1 - 1)%nat →
         ∃ e, outcomes k = Raise e ∧ exceptions e = true)
    ∧ ((r.2.1 < attempt + S remaining)%nat →
       ∀ e, outcomes (r.2.1 - 1)%nat = Raise e → exceptions e = false))
    as Hstop.
  { intros o Ho Hlast r ->. cbn [fst snd].
    replace (S attempt - 1)%nat with attempt by lia. rewrite Ho.
    split; [lia|]. split; [done|]. split; [lia|]. split; [intros; lia|].
    intros Hlt e He. destruct (exceptions e) eqn:Hcaught; [|done].
    specialize (Hlast e He Hcaught). lia. }
  destruct (outcomes attempt) as [a|e|] eqn:Ho.
  - refine (Hstop _ eq_refl _ _ eq_refl). intros; congruence.
  - destruct (exceptions e) eqn:Hcaught;
      [|refine (Hstop _ eq_refl _ _ eq_refl); intros; congruence].
    destruct (decide (Z.of_nat attempt = max_retries)) as [Hlast|Hmore];
      [refine (Hstop _ eq_refl _ _ eq_refl); intros; congruence|].
    unfold_monad.
    set (d := if jitter
              then mul (min (mul delay backoff_factor) max_delay)
                       (jitter_factor attempt)
              else min (mul delay backoff_factor) max_delay).
    change (sleep d (S attempt, delays))
      with (Return (), (S attempt, delays ++ [d])).
    cbn beta iota.
    specialize (IH (S attempt) d (Some e) (delays ++ [d])).
    destruct IH as (Hcalls & Hout & Hlen & Hcaught' & Hfinal); [lia|lia|].
    split; [lia|]. split; [done|]. split.
    { rewrite Hlen, length_app. simpl. lia. }
    split.
    + intros k Hk. destruct (decide (k = attempt)) as [->|Hne]; [by eauto|].
      apply Hcaught'. lia.
    + intros Hlt. apply Hfinal. lia.
  - refine (Hstop _ eq_refl _ _ eq_refl). intros; congruence.
Qed.

(** X29: what [retry_async] does with a function whose [k]-th call ends
    as [outcomes k].  With [max_retries >= 0] the function is called at
    least once and at most [max_retries + 1] times; the result is the
    outcome of the last call made; every call before it raised an
    exception of the kinds that are caught; the calls stop before the
    last permitted one only on a result or an exception that is not
    caught; and the coroutine sleeps once between two calls and not
    after the last.  With [max_retries < 0] the function is never called
    and the statement after the loop raises a [TypeError]. *)
Theorem X29_retry_calls_until_final_outcome {A D} (mul min : D → D → D)
    (jitter_factor : nat → D) (outcomes : nat → Outcome A) max_retries
    backoff_factor initial_delay max_delay jitter exceptions :
  let func : M (nat * list D) A := λ s, (outcomes s.1, (S s.1, s.2)) in
  let sleep : D → M (nat * list D) unit :=
    λ d s, (Return tt, (s.1, s.2 ++ [d])) in
  let r := RetryHandler.retry_async mul min jitter_factor sleep func
             max_retries backoff_factor initial_delay max_delay jitter
             exceptions (0%nat, []) in
  let calls := r.2.1 in
  (max_retries < 0 →
   r = (Raise RetryHandler.no_last_exception, (0%nat, [])))
  ∧ (0 ≤ max_retries →
     1 ≤ Z.of_nat calls ≤ max_retries + 1
     ∧ r.1 = outcomes (calls - 1)%nat
     ∧ length r.2.2 = (calls - 1)%nat
     ∧ (∀ k, (k < calls - 1)%nat →
          ∃ e, outcomes k = Raise e ∧ exceptions e = true)
     ∧ (Z.of_nat calls < max_retries + 1 →
        ∀ e, outcomes (calls - 1)%nat = Raise e → exceptions e = false)).
Proof.
  intros func sleep r calls. split.
  - intros Hneg. unfold r, RetryHandler.retry_async.
    replace (Z.to_nat (max_retries + 1)) with 0%nat by lia. done.
  - intros Hpos.
    destruct (attempts_spec mul min jitter_factor outcomes max_retries
                backoff_factor max_delay jitter exceptions
                (Z.to_nat (max_retries + 1)) 0 initial_delay None [])
      as (Hcalls & Hout & Hlen & Hcaught & Hfinal); [lia|lia|].
    fold func sleep in Hcalls, Hout, Hlen, Hcaught, Hfinal.
    change (RetryHandler.attempts mul min jitter_factor sleep func
              max_retries backoff_factor max_delay jitter exceptions
              (Z.to_nat (max_retries + 1)) 0 initial_delay None (0%nat, []))
      with r in *.
    fold calls in Hcalls, Hout, Hlen, Hcaught, Hfinal.
    split; [lia|]. split; [done|]. split; [simpl in Hlen; lia|].
    split; [intros k Hk; apply Hcaught; lia|].
    intros Hlt. apply Hfinal. lia.
Qed.

(** X30: the validators of [Validator] agree with the checks the
    services make themselves: [validate_query_mode] accepts a mode
    exactly when the query service does and otherwise raises the same
    [ValueError], and [validate_positive_int] accepts exactly the numbers
    of workers with which a document processor can be built. *)
Theorem X30_validators_agree_with_the_services {S} mode name settings
    (s : S) :
  (Validator.validate_query_mode mode, s) = QueryService._validate_mode mode s
  ∧ (Validator.validate_query_mode mode = Return tt
     ↔ mode ∈ QueryService.VALID_MODES)
  ∧ (Validator.validate_positive_int (RAG_MAX_WORKERS settings) name
       = Return tt
     ↔ DocumentProcessor.init settings = Return tt).
Proof.
  split; [|split].
  - unfold Validator.validate_query_mode, QueryService._validate_mode.
    change Validator.valid_modes with QueryService.VALID_MODES.
    by destruct (decide (mode ∈ QueryService.VALID_MODES)).
  - unfold Validator.validate_query_mode.
    change Validator.valid_modes with QueryService.VALID_MODES.
    by destruct (decide (mode ∈ QueryService.VALID_MODES)).
  - unfold Validator.validate_positive_int, DocumentProcessor.init.
    by destruct (decide (RAG_MAX_WORKERS settings ≤ 0)).
Qed.

End MoreUtilities.

(** ** Instances *)

Lemma X2_batch_results_follow_the_files_witness :
  ∃ results log',
    DocumentProcessor._process_files_batch Demo.env default_settings
      Samples.docs "wd" 4 Demo.all_enabled [] = (Return results, log')
    ∧ result_path <$> results
      = ["/docs/a.txt"; "/docs/b.md"; "/docs/big.txt"]
    ∧ log' = [Ingest "/docs/a.txt"; Ingest "/docs/b.md"].
Proof.
  assert (∃ results log',
    DocumentProcessor._process_files_batch Demo.env default_settings
      Samples.docs "wd" 4 Demo.all_enabled [] = (Return results, log'))
    as (results & log' & Hrun).
  { vm_compute. by eexists _, _. }
  exists results, log'. split; [exact Hrun|].
  destruct (X2_batch_results_follow_the_files Demo.env default_settings
              Samples.docs "wd" 4 Demo.all_enabled [] results log' Hrun)
    as (_ & Hpaths & _ & Hlog).
  split; [rewrite Hpaths|rewrite Hlog]; vm_compute; reflexivity.
Defined.

Lemma X3_worker_count_edges_witness :
  DocumentProcessor._find_files Demo.env "/docs"
    [".pdf"; ".docx"; ".pptx"; ".txt"; ".md"] true = Replied Samples.docs
  ∧ DocumentProcessor.process_directory Demo.env default_settings "/docs" "wd"
      None true Demo.all_enabled (Some (-1)) []
    = (Raise DocumentProcessor.semaphore_negative, []).
Proof.
  assert (DocumentProcessor._find_files Demo.env "/docs"
            (DocumentProcessor.or_list None
               (SUPPORTED_FILE_EXTENSIONS default_settings)) true
          = Replied Samples.docs) as Hscan by (vm_compute; reflexivity).
  split; [exact Hscan|].
  apply (X3_worker_count_edges Demo.env default_settings "/docs" "wd" None
           true Demo.all_enabled (Some (-1)) [] Samples.docs Hscan).
  all: first [discriminate | vm_compute; reflexivity].
Defined.

Lemma X4_scan_error_aborts_the_batch_witness :
  DocumentProcessor.process_directory Samples.denied_env default_settings
    "/docs" "wd" (Some [".txt"; ".md"; ".pdf"]) true Demo.all_enabled None []
  = (Raise (mkExc (OtherException "PermissionError")
              "[Errno 13] Permission denied: '/docs'"), []).
Proof.
  apply (X4_scan_error_aborts_the_batch Samples.denied_env default_settings
           "/docs" "wd" true Demo.all_enabled None [] [".txt"] ".md" [".pdf"]).
  - constructor; [|constructor]. eexists. vm_compute; reflexivity.
  - vm_compute; reflexivity.
Defined.

Lemma X5_invalid_mode_is_refused_first_witness :
  QueryService.query Demo.env "what is X" "fast"
    (QueryService.init default_settings "wd", [])
  = (Raise (QueryService.invalid_mode "fast"),
     (QueryService.init default_settings "wd", []))
  ∧ QueryService.query_with_multimodal Demo.env "what is X"
      [Samples.table_item] "fast"
      (QueryService.init default_settings "wd", [])
    = (Raise (QueryService.invalid_mode "fast"),
       (QueryService.init default_settings "wd", [])).
Proof.
  apply (X5_invalid_mode_is_refused_first Demo.env).
  unfold QueryService.VALID_MODES. intros H.
  repeat (apply elem_of_cons in H as [H|H]; [discriminate H|]).
  by apply elem_of_nil in H.
Defined.

Lemma X7_multimodal_query_bypasses_the_cache_witness :
  ∃ o,
    QueryService.query_with_multimodal Demo.env "what is X"
      [Samples.table_item; Samples.equation_item] "hybrid"
      (QueryService.init default_settings "wd", [])
    = (o, (QueryService.init default_settings "wd",
           [AnswerMultimodal "hybrid" "what is X" 2]))
    ∧ o ≠ Hang.
Proof.
  apply (X7_multimodal_query_bypasses_the_cache Demo.env
           (QueryService.init default_settings "wd") "what is X"
           [Samples.table_item; Samples.equation_item] "hybrid" []).
  - unfold QueryService.VALID_MODES. by left.
  - repeat constructor; vm_compute; intros; congruence.
Defined.

Lemma X8_multimodal_counts_are_bounded_witness :
  ∃ r s analysis,
    QueryService.query_with_multimodal Demo.env "what is X"
      [Samples.table_item; Samples.equation_item] "hybrid"
      (QueryService.init default_settings "wd", []) = (Return r, s)
    ∧ qr_multimodal_items r = Some 2%nat
    ∧ qr_multimodal_analysis r = Some analysis
    ∧ (tables_processed analysis + equations_processed analysis
       + images_processed analysis ≤ 2)%nat.
Proof.
  assert (∃ r s,
    QueryService.query_with_multimodal Demo.env "what is X"
      [Samples.table_item; Samples.equation_item] "hybrid"
      (QueryService.init default_settings "wd", []) = (Return r, s))
    as (r & s & Hrun).
  { vm_compute. by eexists _, _. }
  destruct (X8_multimodal_counts_are_bounded Demo.env _ _ _ _ _ r s Hrun)
    as (Hitems & analysis & Hanalysis & Hbound).
  by exists r, s, analysis.
Defined.

Lemma X12_a_query_keeps_its_instance_alive_witness :
  let w1 := (RAGManager.query_directory Demo.env 7200000000 "/docs"
               "what is X" "hybrid" Samples.registered).2 in
  RAGManager._instances Samples.registered !! "/docs" = Some 0%nat
  ∧ RAGManager.last_accessed (RAGManager.instance_at w1 0%nat) = 7200000000
  ∧ RAGManager._instances
      (RAGManager.cleanup_stale_instances 7200000001 3600 w1).2 !! "/docs"
    = Some 0%nat.
Proof.
  intros w1.
  assert (RAGManager._instances Samples.registered
            !! resolve Demo.env "/docs" = Some 0%nat) as Hl
    by (vm_compute; reflexivity).
  destruct (X12_a_query_keeps_its_instance_alive Demo.env 7200000000 "/docs"
              "what is X" "hybrid" Samples.registered 0%nat 7200000001 3600 Hl)
    as (Htouch & Hkept & _).
  split; [exact Hl|]. split; [exact Htouch|]. apply Hkept. lia.
Defined.

Lemma X15_ingestion_keeps_the_query_cache_witness :
  let w' := (RAGManager.process_directory Demo.env default_settings 9 "/docs"
               "key" Demo.no_kwargs Samples.registered).2 in
  RAGManager._instances Samples.registered !! "/docs" = Some 0%nat
  ∧ RAGManager._instances w' = RAGManager._instances Samples.registered
  ∧ RAGManager.query_service (RAGManager.instance_at w' 0%nat)
    = RAGManager.query_service
        (RAGManager.instance_at Samples.registered 0%nat).
Proof.
  intros w'.
  assert (RAGManager._instances Samples.registered
            !! resolve Demo.env "/docs" = Some 0%nat) as Hl
    by (vm_compute; reflexivity).
  destruct (X15_ingestion_keeps_the_query_cache Demo.env default_settings 9
              "/docs" "key" Demo.no_kwargs Samples.registered 0%nat Hl)
    as (Hreg & Hqs & _).
  by split; [exact Hl|].
Defined.

Lemma X16_empty_directory_initializes_witness :
  let run := RAGManager.process_directory_run Demo.env default_settings
               0%nat "/empty" Demo.no_kwargs Samples.registered in
  run.1 = Return {| report_status := "completed"; total_files := 0;
                    processed_files := 0; failed_files := 0;
                    skipped_files := 0; errors := [];
                    working_directory := None |}
  ∧ RAGManager.log run.2 = []
  ∧ RAGManager.is_initialized (RAGManager.instance_at run.2 0%nat) = true.
Proof.
  intros run.
  destruct (X16_empty_directory_initializes Demo.env default_settings 5
              "/empty" "what is X" "hybrid" Demo.no_kwargs Samples.registered
              0%nat)
    as (Hreport & Hlog & Hinit & _).
  - reflexivity.
  - reflexivity.
  - vm_compute; reflexivity.
  - by split; [exact Hreport|].
Defined.


Lemma X19_missing_parameters_are_reported_witness :
  Tools.call_tool Demo.env default_settings 5
    (Tools.CallQueryWithMultimodal
       {| Tools.qm_directory_path := None;
          Tools.qm_query := Some "what is X";
          Tools.qm_multimodal_content := None;
          Tools.qm_mode := None |}) Samples.registered
  = (Return (Tools.ToolFailure
               "Missing required parameters: directory_path, multimodal_content"
               "ValidationError"), Samples.registered).
Proof.
  apply (X19_missing_parameters_are_reported Demo.env default_settings 5
           (Tools.CallQueryWithMultimodal
              {| Tools.qm_directory_path := None;
                 Tools.qm_query := Some "what is X";
                 Tools.qm_multimodal_content := None;
                 Tools.qm_mode := None |}) Samples.registered).
  vm_compute. discriminate.
Defined.

Lemma X20_tools_never_ingest_witness :
  let w := (Tools.call_tool Demo.env default_settings 5
              (Tools.CallProcessDirectory Samples.process_docs)
              RAGManager.empty_world).2 in
  tool_reachable Demo.env default_settings w
  ∧ RAGManager._instances w !! "/docs" = Some 0%nat
  ∧ RAGManager.is_initialized (RAGManager.instance_at w 0%nat) = false
  ∧ RAGManager.is_processing (RAGManager.instance_at w 0%nat) = false
  ∧ ∃ error error_type,
      (Tools.call_tool Demo.env default_settings 6
         (Tools.CallQueryDirectory
            {| Tools.qd_directory_path := Some "/docs";
               Tools.qd_query := Some "what is X";
               Tools.qd_mode := None |}) w).1
      = Return (Tools.ToolFailure error error_type).
Proof.
  intros w.
  assert (tool_reachable Demo.env default_settings w) as Hreach
    by (apply tool_reachable_call, tool_reachable_empty).
  assert (RAGManager._instances w !! "/docs" = Some 0%nat) as Hl
    by (vm_compute; reflexivity).
  destruct (X20_tools_never_ingest Demo.env default_settings w Hreach)
    as (Hflags & _ & _ & _ & Hquery).
  destruct (Hflags "/docs" 0%nat Hl) as [Hinit Hidle].
  split; [exact Hreach|]. split; [exact Hl|]. split; [exact Hinit|].
  split; [exact Hidle|]. apply Hquery.
Defined.

Lemma X24_counters_add_up_witness :
  (MetricsCollector.get_counter "errors_total"
     (Some [("tool", "query"); ("type", "validation")])
     (MetricsCollector.increment "errors_total" 2
        (Some [("type", "validation"); ("tool", "query")])
        MetricsCollector.init).2).1
  = Return 2.
Proof.
  destruct (X24_counters_add_up "errors_total" 2
              [("type", "validation"); ("tool", "query")]
              [("tool", "query"); ("type", "validation")]
              MetricsCollector.init eq_refl (perm_swap _ _ _))
    as (_ & _ & _ & Hget & _).
  apply (f_equal fst) in Hget. exact Hget.
Defined.

Lemma X25_timer_measures_start_to_stop_witness :
  (MetricsCollector.stop_timer "tools.query_directory" None 350
     (MetricsCollector.start_timer "tools.query_directory" 100
        MetricsCollector.init).2).1
  = Return (Some 250).
Proof.
  destruct (X25_timer_measures_start_to_stop "tools.query_directory" None
              100 350 400 MetricsCollector.init eq_refl)
    as (_ & Hstop & _).
  apply (f_equal fst) in Hstop. exact Hstop.
Defined.

Lemma X26_flush_blocks_once_a_histogram_exists_witness :
  (MetricsCollector.flush 9 MetricsCollector.init).1
  = Return {| MetricsCollector.timestamp := 9;
              MetricsCollector.counters := ∅;
              MetricsCollector.gauges := ∅;
              MetricsCollector.histograms := ∅;
              MetricsCollector.metadata := ∅ |}
  ∧ (MetricsCollector.flush 9
       (MetricsCollector.observe "latency" 5 None MetricsCollector.init).2).1
    = Hang.
Proof.
  destruct (X26_flush_blocks_once_a_histogram_exists 9 MetricsCollector.init
              eq_refl) as (Hreturn & _ & Hobserve & _).
  split; [|apply Hobserve].
  apply (f_equal fst) in Hreturn; [exact Hreturn|reflexivity].
Defined.

